(** * Arrival Resources: filtering, identity keys and tag canonicalisation

    A shallow embedding of the dashboard logic of
    [src/components/Header.tsx] (the [DashboardPage] component and its
    helpers) and of the width handling of [src/app/api/photo/route.ts].

    JavaScript strings are sequences of UTF-16 code units, modelled as
    [list N].  JavaScript numbers are IEEE 754 binary64 values, modelled
    with Rocq's primitive floats.  [String.prototype.toLowerCase] is a
    parameter, [CaseMapping], known on the Basic Latin and Latin-1
    Supplement blocks; the theorems hold for every such mapping, and the
    examples are computed with the one that leaves the other blocks
    alone. *)

From Stdlib Require Import Floats.
From stdpp Require Import gmap list strings sorting.

Local Open Scope N_scope.

(* Decimal literals such as 42.3 denote the nearest binary64 value, as
   they do in the source. *)
Set Warnings "-inexact-float".

(** ** Strings *)

Module JsString.

Abbreviation jsstring := (list N).

(** An ASCII literal as a sequence of code units. *)
Definition js (s : string) : jsstring :=
  Ascii.N_of_ascii <$> String.list_ascii_of_string s.

(** WhiteSpace and LineTerminator code points of ECMAScript: what
    [String.prototype.trim] strips and what [\s] matches. *)
Definition isSpace (c : N) : bool :=
  ((9 <=? c) && (c <=? 13))
  || (c =? 32) || (c =? 160) || (c =? 5760)
  || ((8192 <=? c) && (c <=? 8202))
  || (c =? 8232) || (c =? 8233) || (c =? 8239) || (c =? 8287)
  || (c =? 12288) || (c =? 65279).

Fixpoint dropWhile (f : N → bool) (s : jsstring) : jsstring :=
  match s with
  | [] => []
  | c :: s' => if f c then dropWhile f s' else s
  end.

Definition trimStart (s : jsstring) : jsstring := dropWhile isSpace s.
Definition trimEnd (s : jsstring) : jsstring :=
  reverse (dropWhile isSpace (reverse s)).
Definition trim (s : jsstring) : jsstring := trimEnd (trimStart s).

(** The lower-case form of a code unit of the Basic Latin and Latin-1
    Supplement blocks; the other code units are returned as they are. *)
Definition lowerUnit (c : N) : N :=
  if ((65 <=? c) && (c <=? 90))
     || ((192 <=? c) && (c <=? 222) && negb (c =? 215))
  then c + 32 else c.

(** A string of the Basic Latin and Latin-1 Supplement blocks. *)
Definition isLatin1 (s : jsstring) : Prop := Forall (λ c, c < 256) s.

(** [String.prototype.toLowerCase].  The Unicode case tables are not
    embedded: the built-in is taken as it comes, with what the language
    fixes for it on the Basic Latin and Latin-1 Supplement blocks, where
    a string is mapped code unit by code unit. *)
Class CaseMapping := {
  toLowerCase : jsstring → jsstring;
  toLowerCase_latin1 (s : jsstring) :
    isLatin1 s → toLowerCase s = lowerUnit <$> s
}.

Fixpoint startsWith (s t : jsstring) : bool :=
  match t, s with
  | [], _ => true
  | _ :: _, [] => false
  | d :: t', c :: s' => (c =? d) && startsWith s' t'
  end.

Definition endsWith (s t : jsstring) : bool :=
  startsWith (reverse s) (reverse t).

Fixpoint includes (s t : jsstring) : bool :=
  startsWith s t ||
  match s with
  | [] => false
  | _ :: s' => includes s' t
  end.

(** [s.replace(/[class]/g, r)] for a one-character class. *)
Definition replaceEach (f : N → bool) (r : jsstring) (s : jsstring) : jsstring :=
  s ≫= (λ c, if f c then r else [c]).

(** [s.replace(/[class]+/g, r)]: each maximal run of the class becomes
    one copy of [r].  [inRun] records that the previous code unit
    belonged to the run being replaced. *)
Fixpoint replaceRunsFrom (f : N → bool) (r : jsstring) (inRun : bool)
    (s : jsstring) : jsstring :=
  match s with
  | [] => []
  | c :: s' =>
      if f c
      then (if inRun then [] else r) ++ replaceRunsFrom f r true s'
      else c :: replaceRunsFrom f r false s'
  end.

Definition replaceRuns (f : N → bool) (r s : jsstring) : jsstring :=
  replaceRunsFrom f r false s.

(** The truthiness test of [a || b] on strings: the empty string is
    falsy. *)
Definition orElse (a b : jsstring) : jsstring :=
  match a with [] => b | _ => a end.

(** [a || b] where [a] may be [null]. *)
Definition orElseNull (a : option jsstring) (b : jsstring) : jsstring :=
  match a with Some (c :: s) => c :: s | _ => b end.

End JsString.
Import JsString.

(** ** Numbers *)

Module JsNumber.

(** [a >= b] on numbers: false as soon as one side is NaN. *)
Definition geb (a b : float) : bool := PrimFloat.leb b a.

(** [Number.isFinite]. *)
Definition isFinite (v : float) : bool := PrimFloat.is_finite v.

(** [Number(n)] for [n : number | null]: [Number(null)] is [+0]. *)
Definition NumberOfNullable (n : option float) : float :=
  match n with
  | Some v => v
  | None => PrimFloat.zero
  end.

End JsNumber.
Import JsNumber.

(** ** The data model of the dashboard *)

Record Place := {
  id : option jsstring;
  category : jsstring;
  organization : jsstring;
  office : jsstring;
  address : jsstring;
  email : option jsstring;
  website : option jsstring;
  place_id : option jsstring;
  opening_hours : option jsstring;
  lat : option float;
  lng : option float;
  phone : option jsstring;
  maps_url : option jsstring;
  photo_ref : option jsstring;
  service_tags : list jsstring
}.

Record TagGuide := {
  tag : jsstring;
  display_name : jsstring;
  description : option jsstring;
  example_keywords : option jsstring
}.

Inductive ViewMode := ViewMap | ViewList.

Record Bounds := {
  west : float;
  south : float;
  east : float;
  north : float
}.

(** ** Helpers of [Header.tsx] *)

(** [safeNum]: a number is returned when it is finite; anything else
    goes through [Number(n)] first. *)
Definition safeNum (n : option float) : option float :=
  let v := match n with
           | Some x => x                      (* typeof n === "number" *)
           | None => NumberOfNullable n       (* Number(n) *)
           end in
  if isFinite v then Some v else None.

Definition sep : jsstring := js "__".

(** [placeKey]: the guards [(x || "")] are the identity on the string
    fields [organization], [office] and [address]. *)
Definition placeKey (p : Place) : jsstring :=
  let pid := trim (orElseNull (id p) (orElseNull (place_id p) [])) in
  let org := trim (orElse (organization p) []) in
  let office := trim (orElse (office p) []) in
  let addr := trim (orElse (address p) []) in
  match pid with
  | _ :: _ => pid ++ sep ++ orElse office org ++ sep ++ addr
  | [] => org ++ sep ++ office ++ sep ++ addr
  end.

(** ** The filter engine *)

(** [(p.service_tags || []).includes(t)] *)
Definition hasTag (p : Place) (t : jsstring) : bool :=
  bool_decide (t ∈ service_tags p).

Definition matchTags (p : Place) (selectedTags : list jsstring) : bool :=
  (length selectedTags =? 0)%nat || forallb (hasTag p) selectedTags.

Definition matchText {cm : CaseMapping} (p : Place) (query : jsstring) : bool :=
  let q := toLowerCase (trim query) in
  let hay := toLowerCase (organization p ++ js " " ++ office p) in
  match q with
  | [] => true
  | _ => includes hay q
  end.

Definition filtered {cm : CaseMapping} (places : list Place) (query : jsstring)
    (selectedTags : list jsstring) : list Place :=
  filter (λ p, matchText p query && matchTags p selectedTags = true) places.

(** One iteration of the loop of [filteredUnique] over the state
    [(seen, out)]. *)
Definition dedupeStep (st : gset jsstring * list Place) (p : Place)
    : gset jsstring * list Place :=
  let k := placeKey p in
  if bool_decide (k ∈ st.1) then st
  else ({[ k ]} ∪ st.1, st.2 ++ [p]).

Definition filteredUnique (filtered : list Place) : list Place :=
  (foldl dedupeStep (∅, []) filtered).2.

Definition inBounds (b : Bounds) (p : Place) : bool :=
  match safeNum (lat p), safeNum (lng p) with
  | Some lat, Some lng =>
      geb lng (west b) && PrimFloat.leb lng (east b)
      && geb lat (south b) && PrimFloat.leb lat (north b)
  | _, _ => false
  end.

Definition placesInView (viewMode : ViewMode) (mapBounds : option Bounds)
    (filteredUnique : list Place) : list Place :=
  match viewMode, mapBounds with
  | ViewMap, Some b => filter (λ p, inBounds b p = true) filteredUnique
  | _, _ => filteredUnique
  end.

(** ** Category colours and icons *)

Module Category.

Definition isSpaceOrHyphen (c : N) : bool := isSpace c || (c =? 45).
Definition isUnderscore (c : N) : bool := c =? 95.

(** The normalised category [c] shared by [categoryColor] and
    [categoryIcon]:
    [(category || "").toString().toLowerCase().trim()], then
    [.replace(/[\s\-]+/g, "_").replace(/_+/g, "_")]. *)
Definition normalizeCategory {cm : CaseMapping}
    (category : jsstring) : jsstring :=
  let raw := trim (toLowerCase (orElse category [])) in
  replaceRuns isUnderscore (js "_") (replaceRuns isSpaceOrHyphen (js "_") raw).

Definition isLibrary (c : jsstring) : bool := includes c (js "library").

Definition isFoodAccess (c : jsstring) : bool :=
  includes c (js "food_access")
  || bool_decide (c = js "food")
  || startsWith c (js "food_")
  || endsWith c (js "_food").

Definition isGovernment (c : jsstring) : bool :=
  includes c (js "government") || includes c (js "city") || includes c (js "state").

Definition isEducation (c : jsstring) : bool :=
  includes c (js "education") || includes c (js "adult").

Definition isCommunity (c : jsstring) : bool :=
  includes c (js "community") || includes c (js "nonprofit")
  || includes c (js "organization").

Definition categoryColor {cm : CaseMapping} (category : jsstring) : jsstring :=
  let c := normalizeCategory category in
  if isLibrary c then js "#2CA3E0"
  else if isFoodAccess c then js "#2563EB"
  else if isGovernment c then js "#99c24d"
  else if isEducation c then js "#E11D48"
  else if isCommunity c then js "#0F766E"
  else js "#111827".

(** The icons are emoji, written as their UTF-16 code units. *)
Definition iconBooks : jsstring := [55357; 56538].
Definition iconCannedFood : jsstring := [55358; 56683].
Definition iconClassicalBuilding : jsstring := [55356; 57307; 65039].
Definition iconGraduationCap : jsstring := [55356; 57235].
Definition iconHandshake : jsstring := [55358; 56605].
Definition iconPin : jsstring := [55357; 56525].

Definition categoryIcon {cm : CaseMapping} (category : jsstring) : jsstring :=
  let c := normalizeCategory category in
  if isLibrary c then iconBooks
  else if isFoodAccess c then iconCannedFood
  else if isGovernment c then iconClassicalBuilding
  else if isEducation c then iconGraduationCap
  else if isCommunity c then iconHandshake
  else iconPin.

End Category.
Import Category.

(** ** The tag canonicaliser built inside [load] *)

Module Canonicalizer.

Definition isNbsp (c : N) : bool := c =? 160.

(** The class of zero-width code points: U+200B to U+200D, and U+FEFF. *)
Definition isZeroWidth (c : N) : bool :=
  ((8203 <=? c) && (c <=? 8205)) || (c =? 65279).

Definition normalizeTagKey {cm : CaseMapping} (input : jsstring) : jsstring :=
  let s := replaceEach isNbsp (js " ") (orElse input []) in
  let s := replaceEach isZeroWidth [] s in
  let s := toLowerCase (trim s) in
  replaceRuns isSpace (js " ") s.

(** The two lookup tables, [displayToTag] and [tagLowerToTag]. *)
Record Tables := {
  displayToTag : gmap jsstring jsstring;
  tagLowerToTag : gmap jsstring jsstring
}.

Definition emptyTables : Tables :=
  {| displayToTag := ∅; tagLowerToTag := ∅ |}.

(** [(tg.tag || "").trim()] *)
Definition canonicalOf (tg : TagGuide) : jsstring := trim (orElse (tag tg) []).

Definition underscoresToSpaces (s : jsstring) : jsstring :=
  replaceEach isUnderscore (js " ") s.

Definition spacesToUnderscores (s : jsstring) : jsstring :=
  replaceRuns isSpace (js "_") s.

(** The keys under which an entry registers its identifier. *)
Definition tagKeys {cm : CaseMapping} (canonical : jsstring) : list jsstring :=
  [ normalizeTagKey canonical;
    normalizeTagKey (underscoresToSpaces canonical) ].

(** The keys under which an entry registers its display name; none when
    the display name is empty. *)
Definition displayKeys {cm : CaseMapping} (tg : TagGuide) : list jsstring :=
  match display_name tg with
  | [] => []
  | _ =>
      let dn := trim (display_name tg) in
      [ normalizeTagKey dn;
        normalizeTagKey (underscoresToSpaces dn);
        normalizeTagKey (spacesToUnderscores dn) ]
  end.

(** [m.set(k, v)] for each key in turn. *)
Definition setAll (keys : list jsstring) (v : jsstring)
    (m : gmap jsstring jsstring) : gmap jsstring jsstring :=
  foldl (λ m k, <[ k := v ]> m) m keys.

(** The body of [for (const tg of tagsData)]. *)
Definition addTagGuide {cm : CaseMapping}
    (t : Tables) (tg : TagGuide) : Tables :=
  let canonical := canonicalOf tg in
  match canonical with
  | [] => t                                     (* continue *)
  | _ =>
      {| tagLowerToTag := setAll (tagKeys canonical) canonical (tagLowerToTag t);
         displayToTag := setAll (displayKeys tg) canonical (displayToTag t) |}
  end.

Definition buildTables {cm : CaseMapping} (tagsData : list TagGuide) : Tables :=
  foldl addTagGuide emptyTables tagsData.

(** [m.get(key) || rest]: a missing key and an empty value both fall
    through. *)
Definition getOr (m : gmap jsstring jsstring) (key : jsstring)
    (rest : jsstring) : jsstring :=
  match m !! key with
  | Some v => orElse v rest
  | None => rest
  end.

Definition canonicalizeTag {cm : CaseMapping}
    (t : Tables) (raw : jsstring) : jsstring :=
  let cleaned := replaceEach isNbsp (js " ") (orElse raw []) in
  let key := normalizeTagKey cleaned in
  match key with
  | [] => []
  | _ =>
      getOr (displayToTag t) key
        (getOr (tagLowerToTag t) key (spacesToUnderscores key))
  end.

Definition isTruthy (s : jsstring) : bool :=
  match s with [] => false | _ => true end.

(** [p.service_tags.map((t) => canonicalizeTag(t)).filter((t) => t)] *)
Definition canonicalizeTags {cm : CaseMapping}
    (t : Tables) (tags : list jsstring) : list jsstring :=
  filter (λ s, isTruthy s = true) (canonicalizeTag t <$> tags).

Definition canonicalizePlace {cm : CaseMapping}
    (t : Tables) (p : Place) : Place :=
  {| id := id p; category := category p; organization := organization p;
     office := office p; address := address p; email := email p;
     website := website p; place_id := place_id p;
     opening_hours := opening_hours p; lat := lat p; lng := lng p;
     phone := phone p; maps_url := maps_url p; photo_ref := photo_ref p;
     service_tags := canonicalizeTags t (service_tags p) |}.

End Canonicalizer.
Import Canonicalizer.

(** ** The dashboard state and the initial load *)

Module Dashboard.

(** The outcome of an awaited promise: a value, or the thrown error. *)
Inductive Settled (A : Type) :=
  | Fulfilled (a : A)
  | Rejected (e : jsstring).
Arguments Fulfilled {A} a.
Arguments Rejected {A} e.

Definition bindSettled {A B} (m : Settled A) (k : A → Settled B) : Settled B :=
  match m with
  | Fulfilled a => k a
  | Rejected e => Rejected e
  end.

Notation "x ←await m ; k" := (bindSettled m (λ x, k))
  (at level 20, m at level 100, k at level 200, right associativity,
   format "x  ←await  m ;  '/' k").

(** The part of the component state the filter engine and the header
    read, with the console as a log of the errors printed. *)
Record State := {
  places : list Place;
  tagGuide : list TagGuide;
  loading : bool;
  query : jsstring;
  selectedTags : list jsstring;
  viewMode : ViewMode;
  mapBounds : option Bounds;
  console : list jsstring
}.

(** The state of the first render: the [useState] initial values. *)
Definition initialState : State :=
  {| places := []; tagGuide := []; loading := true; query := [];
     selectedTags := []; viewMode := ViewMap; mapBounds := None;
     console := [] |}.

Definition setLoading (b : bool) (st : State) : State :=
  {| places := places st; tagGuide := tagGuide st; loading := b;
     query := query st; selectedTags := selectedTags st;
     viewMode := viewMode st; mapBounds := mapBounds st;
     console := console st |}.

Definition setPlaces (ps : list Place) (st : State) : State :=
  {| places := ps; tagGuide := tagGuide st; loading := loading st;
     query := query st; selectedTags := selectedTags st;
     viewMode := viewMode st; mapBounds := mapBounds st;
     console := console st |}.

Definition setTagGuide (ts : list TagGuide) (st : State) : State :=
  {| places := places st; tagGuide := ts; loading := loading st;
     query := query st; selectedTags := selectedTags st;
     viewMode := viewMode st; mapBounds := mapBounds st;
     console := console st |}.

Definition consoleError (e : jsstring) (st : State) : State :=
  {| places := places st; tagGuide := tagGuide st; loading := loading st;
     query := query st; selectedTags := selectedTags st;
     viewMode := viewMode st; mapBounds := mapBounds st;
     console := console st ++ [e] |}.

(** What the network gives [load]: [Promise.all] of the two [fetch]
    calls either throws or yields two responses, and the [json()] of a
    response either throws or yields the parsed data. *)
Definition Responses : Type :=
  Settled (Settled (list Place) * Settled (list TagGuide)).

(** The awaited part of [load], up to the canonicalised data. *)
Definition loadData {cm : CaseMapping}
    (r : Responses) : Settled (list Place * list TagGuide) :=
  res ←await r;
  placesData ←await res.1;
  tagsData ←await res.2;
  let tables := buildTables tagsData in
  Fulfilled (canonicalizePlace tables <$> placesData, tagsData).

(** [load().catch((e) => { console.error(e); setLoading(false); })] *)
Definition load {cm : CaseMapping} (r : Responses) (st : State) : State :=
  let st := setLoading true st in
  match loadData r with
  | Fulfilled (placesData, tagsData) =>
      setLoading false (setTagGuide tagsData (setPlaces placesData st))
  | Rejected e =>
      setLoading false (consoleError e st)
  end.

(** The derived sequences of a state. *)
Definition filteredOf {cm : CaseMapping} (st : State) : list Place :=
  filtered (places st) (query st) (selectedTags st).

Definition filteredUniqueOf {cm : CaseMapping} (st : State) : list Place :=
  filteredUnique (filteredOf st).

Definition placesInViewOf {cm : CaseMapping} (st : State) : list Place :=
  placesInView (viewMode st) (mapBounds st) (filteredUniqueOf st).

Fixpoint digitsOf (d : Decimal.uint) : jsstring :=
  match d with
  | Decimal.Nil => []
  | Decimal.D0 d => 48 :: digitsOf d
  | Decimal.D1 d => 49 :: digitsOf d
  | Decimal.D2 d => 50 :: digitsOf d
  | Decimal.D3 d => 51 :: digitsOf d
  | Decimal.D4 d => 52 :: digitsOf d
  | Decimal.D5 d => 53 :: digitsOf d
  | Decimal.D6 d => 54 :: digitsOf d
  | Decimal.D7 d => 55 :: digitsOf d
  | Decimal.D8 d => 56 :: digitsOf d
  | Decimal.D9 d => 57 :: digitsOf d
  end.

(** An array length inside a template literal. *)
Definition lengthText {A} (l : list A) : jsstring :=
  digitsOf (Nat.to_uint (length l)).

Definition ellipsis : N := 8230.
Definition bullet : N := 8226.

Definition loadingText : jsstring := js "Loading" ++ [ellipsis].

(** The status line of the page header. *)
Definition headerText {cm : CaseMapping} (st : State) : jsstring :=
  if loading st then loadingText
  else match viewMode st with
       | ViewMap =>
           lengthText (placesInViewOf st) ++ js " in view " ++ [bullet]
           ++ js " " ++ lengthText (places st) ++ js " total"
       | ViewList =>
           lengthText (filteredUniqueOf st) ++ js " filtered " ++ [bullet]
           ++ js " " ++ lengthText (places st) ++ js " total"
       end.

End Dashboard.

(** ** [Math.max], [Math.min] and [parseInt] *)

Module JsMath.

(** [Math.max(a, b)]: NaN as soon as one argument is NaN; [+0] is larger
    than [-0]; otherwise [b] when it is greater than [a], else [a]. *)
Definition mathMax (a b : float) : float :=
  if PrimFloat.is_nan a || PrimFloat.is_nan b then PrimFloat.nan
  else if PrimFloat.is_zero a && PrimFloat.is_zero b
       then (if PrimFloat.get_sign a then b else a)
  else if PrimFloat.ltb a b then b else a.

(** [Math.min(a, b)]: NaN as soon as one argument is NaN; [-0] is
    smaller than [+0]; otherwise [b] when it is less than [a], else
    [a]. *)
Definition mathMin (a b : float) : float :=
  if PrimFloat.is_nan a || PrimFloat.is_nan b then PrimFloat.nan
  else if PrimFloat.is_zero a && PrimFloat.is_zero b
       then (if PrimFloat.get_sign a then a else b)
  else if PrimFloat.ltb b a then b else a.

(** The number value of a mathematical integer: rounded to the nearest
    binary64 value, ties to even, infinite beyond the largest one. *)
Definition numberOfZ (z : Z) : float :=
  SF2Prim (binary_normalize prec emax z 0 false).

Definition isDigit (c : N) : bool := (48 <=? c) && (c <=? 57).

Fixpoint takeWhile (f : N → bool) (s : jsstring) : jsstring :=
  match s with
  | [] => []
  | c :: s' => if f c then c :: takeWhile f s' else []
  end.

Definition digitValue (c : N) : Z := Z.of_N (c - 48).

(** The mathematical integer written by a sequence of decimal digits. *)
Definition mathInt (digits : jsstring) : Z :=
  foldl (λ acc c, acc * 10 + digitValue c)%Z 0%Z digits.

(** [Number.parseInt(s, 10)]: leading white space is skipped, a sign is
    read, then the longest run of decimal digits; no digit gives NaN. *)
Definition parseInt10 (s : jsstring) : float :=
  let input := trimStart s in
  let negative := match input with c :: _ => c =? 45 | [] => false end in
  let unsigned := match input with
                  | c :: rest => if (c =? 43) || (c =? 45) then rest else input
                  | [] => input
                  end in
  let digits := takeWhile isDigit unsigned in
  match digits with
  | [] => PrimFloat.nan
  | _ =>
      let n := mathInt digits in
      if (n =? 0)%Z then (if negative then PrimFloat.neg_zero else PrimFloat.zero)
      else numberOfZ (if negative then - n else n)%Z
  end.

End JsMath.
Import JsMath.

(** ** The resizable sidebar *)

Module Sidebar.

Record ResizeState := {
  dragging : bool;
  startX : float;
  startWidth : float
}.

(** The width, the [resizeState] ref, and the item stored under
    ["arrival_sidebar_width"] in [localStorage]. *)
Record State := {
  sidebarWidth : float;
  resizeState : ResizeState;
  storedWidth : option jsstring
}.

Inductive Event :=
  | PointerDown (clientX : float)   (* on the resize handle *)
  | PointerMove (clientX : float)
  | PointerUp.

Section WithConversions.

(** [Number(s)] and [String(v)] are built-ins of the language; the model
    takes them as they come. *)
Variable toNumber : jsstring → float.
Variable numberToString : float → jsstring.

(** [Number(raw)] for the result of [getItem]: [Number(null)] is [+0]. *)
Definition numberOfItem (raw : option jsstring) : float :=
  match raw with
  | None => PrimFloat.zero
  | Some s => toNumber s
  end.

(** The initialiser of the [sidebarWidth] state. *)
Definition initialSidebarWidth (hasWindow : bool) (item : option jsstring) : float :=
  if hasWindow then
    let v := numberOfItem item in
    if isFinite v && geb v 260 && PrimFloat.leb v 520 then v
    else 360%float
  else 360%float.

(** The effect on [sidebarWidth]: [setItem(..., String(sidebarWidth))]. *)
Definition persist (hasWindow : bool) (st : State) : State :=
  if hasWindow then
    {| sidebarWidth := sidebarWidth st; resizeState := resizeState st;
       storedWidth := Some (numberToString (sidebarWidth st)) |}
  else st.

(** The first render in the browser followed by its effects. *)
Definition mount (item : option jsstring) : State :=
  persist true
    {| sidebarWidth := initialSidebarWidth true item;
       resizeState := {| dragging := false; startX := 0; startWidth := 360 |};
       storedWidth := item |}.

(** [setSidebarWidth(next)]: a value that is the same under [Object.is]
    leaves the component as it is; a new value re-renders and runs the
    effect. *)
Definition setSidebarWidth (next : float) (st : State) : State :=
  if PrimFloat.Leibniz.eqb next (sidebarWidth st) then st
  else persist true
         {| sidebarWidth := next; resizeState := resizeState st;
            storedWidth := storedWidth st |}.

Definition onPointerDown (clientX : float) (st : State) : State :=
  {| sidebarWidth := sidebarWidth st;
     resizeState := {| dragging := true; startX := clientX;
                       startWidth := sidebarWidth st |};
     storedWidth := storedWidth st |}.

Definition onMove (clientX : float) (st : State) : State :=
  if negb (dragging (resizeState st)) then st
  else
    let delta := (clientX - startX (resizeState st))%float in
    let next := mathMax 260 (mathMin 520 (startWidth (resizeState st) + delta)) in
    setSidebarWidth next st.

Definition onUp (st : State) : State :=
  {| sidebarWidth := sidebarWidth st;
     resizeState := {| dragging := false; startX := startX (resizeState st);
                       startWidth := startWidth (resizeState st) |};
     storedWidth := storedWidth st |}.

Definition step (st : State) (ev : Event) : State :=
  match ev with
  | PointerDown x => onPointerDown x st
  | PointerMove x => onMove x st
  | PointerUp => onUp st
  end.

Definition run (item : option jsstring) (evs : list Event) : State :=
  foldl step (mount item) evs.

End WithConversions.

(** The pointer coordinates of an event are finite numbers. *)
Definition finiteEvent (ev : Event) : Prop :=
  match ev with
  | PointerDown x | PointerMove x => isFinite x = true
  | PointerUp => True
  end.

(** [260 <= w && w <= 520] *)
Definition inRange (w : float) : bool :=
  PrimFloat.leb 260 w && PrimFloat.leb w 520.

(** What every reachable state satisfies: the width and the width
    recorded at the start of a drag are in the range, the recorded
    pointer position is finite, and the stored item is the width. *)
Definition okState (numberToString : float → jsstring) (st : State) : Prop :=
  inRange (sidebarWidth st) = true
  ∧ isFinite (startX (resizeState st)) = true
  ∧ inRange (startWidth (resizeState st)) = true
  ∧ storedWidth st = Some (numberToString (sidebarWidth st)).

End Sidebar.

(** ** The photo route: the requested width *)

Module Photo.

(** [URLSearchParams.get]: the first value under the name, or [null]. *)
Fixpoint searchParamsGet (params : list (jsstring * jsstring)) (name : jsstring)
    : option jsstring :=
  match params with
  | [] => None
  | (k, v) :: rest =>
      if bool_decide (k = name) then Some v else searchParamsGet rest name
  end.

(** The [w] computed at the top of [GET]. *)
Definition effectiveWidth (params : list (jsstring * jsstring)) : float :=
  let wParam := orElseNull (searchParamsGet params (js "w")) (js "400") in
  let wNum := parseInt10 wParam in
  if isFinite wNum then mathMin 1600 (mathMax 50 wNum) else 400%float.

End Photo.

(** ** Definitions used in the statements *)

(** "Keep the first occurrence of each Place Identity Key, drop
    subsequent repeats": the entry at position [i] stays when its key
    does not occur among the entries before it. *)
Definition firstOccurrences (l : list Place) : list Place :=
  (filter (λ ip : nat * Place, placeKey ip.2 ∉ placeKey <$> take ip.1 l)
          (imap pair l)).*2.

(** The state [(seen, out)] of the loop of [filteredUnique] after the
    entries of [l]. *)
Definition loopState (l : list Place) : gset jsstring * list Place :=
  foldl dedupeStep (∅, []) l.

(** The office component of the identity key: the trimmed office name,
    replaced by the trimmed organisation name when it is empty and an
    upstream identifier is present. *)
Definition officeComponent (p : Place) : jsstring :=
  match trim (orElseNull (id p) (orElseNull (place_id p) [])) with
  | _ :: _ => orElse (trim (office p)) (trim (organization p))
  | [] => trim (office p)
  end.

(** Two records that agree on every field but the office name. *)
Definition agreeExceptOffice (p q : Place) : Prop :=
  id p = id q ∧ place_id p = place_id q
  ∧ organization p = organization q ∧ address p = address q
  ∧ category p = category q ∧ email p = email q ∧ website p = website q
  ∧ opening_hours p = opening_hours q ∧ lat p = lat q ∧ lng p = lng q
  ∧ phone p = phone q ∧ maps_url p = maps_url q
  ∧ photo_ref p = photo_ref q ∧ service_tags p = service_tags q.

(** The rules of [categoryColor] and [categoryIcon] as a table: a test
    on the normalised category, the colour and the icon. *)
Definition CategoryRule : Type := (jsstring → bool) * (jsstring * jsstring).

(** The table for a given food test. *)
Definition categoryRulesWith (food : jsstring → bool) : list CategoryRule :=
  [ (isLibrary, (js "#2CA3E0", iconBooks));
    (food, (js "#2563EB", iconCannedFood));
    (isGovernment, (js "#99c24d", iconClassicalBuilding));
    (isEducation, (js "#E11D48", iconGraduationCap));
    (isCommunity, (js "#0F766E", iconHandshake)) ].

Definition categoryRules : list CategoryRule := categoryRulesWith isFoodAccess.

Definition neutralStyle : jsstring * jsstring := (js "#111827", iconPin).

(** Priority order: the first rule whose test holds decides. *)
Fixpoint firstMatch (rules : list CategoryRule) (c : jsstring)
    : jsstring * jsstring :=
  match rules with
  | [] => neutralStyle
  | (test, style) :: rest => if test c then style else firstMatch rest c
  end.

(** The pieces of a string between the code units of a class. *)
Fixpoint splitOn (f : N → bool) (s : jsstring) : list jsstring :=
  match s with
  | [] => [[]]
  | c :: s' =>
      if f c then [] :: splitOn f s'
      else match splitOn f s' with
           | t :: ts => (c :: t) :: ts
           | [] => [[c]]
           end
  end.

(** The food rule in the words of the specification, "food" as a whole
    token, or a "food_" / "_food" compound, read in two ways.  First
    reading: "food" is one of the pieces between underscores, or "food_"
    or "_food" occurs in the category. *)
Definition foodAsToken (c : jsstring) : bool :=
  bool_decide (js "food" ∈ splitOn isUnderscore c)
  || includes c (js "food_") || includes c (js "_food").

(** Second reading: the category is "food", or begins with "food_", or
    ends with "_food". *)
Definition foodAsAffix (c : jsstring) : bool :=
  bool_decide (c = js "food")
  || startsWith c (js "food_") || endsWith c (js "_food").

(** The error with which the initial fetch fails, if it does: the
    rejection of [Promise.all], or of the first [json()] that throws. *)
Definition fetchFailure (r : Dashboard.Responses) : option jsstring :=
  match r with
  | Dashboard.Rejected e => Some e
  | Dashboard.Fulfilled (Dashboard.Rejected e, _) => Some e
  | Dashboard.Fulfilled (Dashboard.Fulfilled _, Dashboard.Rejected e) => Some e
  | Dashboard.Fulfilled (Dashboard.Fulfilled _, Dashboard.Fulfilled _) => None
  end.

(** "Clamped into the closed range from [lo] to [hi]". *)
Definition clampInto (lo hi x : float) : float :=
  if PrimFloat.ltb x lo then lo
  else if PrimFloat.ltb hi x then hi
  else x.

(** The binary64 values that are neither NaN nor infinite. *)
Definition finiteClass (a : spec_float) : Prop :=
  (∃ s, a = S754_zero s) ∨ (∃ s m e, a = S754_finite s m e).

(** Stand-ins for [Number(s)] and [String(v)] to run the sidebar on
    examples: they are the built-ins on non-negative whole numbers
    written in decimal. *)
Definition sampleToNumber (s : jsstring) : float := parseInt10 s.

Definition wholePart (v : float) : N :=
  match Prim2SF v with
  | S754_finite false m e => Z.to_N (Z.shiftl (Z.pos m) e)
  | _ => 0
  end.

Definition sampleToString (v : float) : jsstring :=
  Dashboard.digitsOf (N.to_uint (wholePart v)).

(** A drag of the handle from x = 360 to x = 400 and then far to the
    right. *)
Definition sampleDrag : list Sidebar.Event :=
  [ Sidebar.PointerDown 360; Sidebar.PointerMove 400;
    Sidebar.PointerMove 1000; Sidebar.PointerUp ].

(** ** Sample records *)

Definition samplePlace (pid : option jsstring) (org off addr : jsstring)
    (coords : option float * option float) (tags : list jsstring) : Place :=
  {| id := None; category := js "Library"; organization := org; office := off;
     address := addr; email := None; website := None; place_id := pid;
     opening_hours := None; lat := coords.1; lng := coords.2; phone := None;
     maps_url := None; photo_ref := None; service_tags := tags |}.

Definition roomA : Place :=
  samplePlace (Some (js "ChIJ123")) (js "City Hall") (js "Room A")
    (js "1 Main St") (None, None) [].

Definition roomB : Place :=
  samplePlace (Some (js "ChIJ123")) (js "City Hall") (js "Room B")
    (js "1 Main St") (None, None) [].

(** [roomA] with a space typed after the office name. *)
Definition roomA' : Place :=
  samplePlace (Some (js "ChIJ123")) (js "City Hall") (js "Room A ")
    (js "1 Main St") (None, None) [].

Definition tagsABC : Place :=
  samplePlace None (js "Org") (js "Office") (js "Addr") (None, None)
    [js "A"; js "B"; js "C"].

(** A record whose coordinates are [null]. *)
Definition unlocated : Place :=
  samplePlace None (js "Help Line") (js "") (js "") (None, None) [].

Definition located (la ln : float) : Place :=
  samplePlace None (js "Branch") (js "") (js "") (Some la, Some ln) [].

Definition aroundOrigin : Bounds :=
  {| west := (-1)%float; south := (-1)%float; east := 1%float; north := 1%float |}.

Definition bostonBounds : Bounds :=
  {| west := (-71.1)%float; south := 42.3%float;
     east := (-71.0)%float; north := 42.4%float |}.

(** An entry registers a key when it has an identifier and the key is
    one of those it sets in [displayToTag] or [tagLowerToTag]. *)
Definition registers {cm : CaseMapping}
    (tg : TagGuide) (key : jsstring) : Prop :=
  canonicalOf tg ≠ [] ∧ key ∈ displayKeys tg ++ tagKeys (canonicalOf tg).

Definition guide (t dn : string) : TagGuide :=
  {| tag := js t; display_name := js dn; description := None;
     example_keywords := None |}.

Definition sampleGuide : list TagGuide :=
  [ guide "esol_classes" "ESOL Classes"; guide "food_pantry" "Food Pantry" ].

(** A guide in which the display name of one entry is the identifier of
    another. *)
Definition crossedGuide : list TagGuide :=
  [ guide "esol" "English"; guide "english" "ESOL" ].

(** A guide entry written in the Basic Latin and Latin-1 Supplement
    blocks. *)
Definition latin1Guide (tg : TagGuide) : Prop :=
  isLatin1 (tag tg) ∧ isLatin1 (display_name tg).

(** A state in list mode whose bounds are known. *)
Definition listModeState : Dashboard.State :=
  {| Dashboard.places := [roomA; roomB; roomA];
     Dashboard.tagGuide := []; Dashboard.loading := false;
     Dashboard.query := js "city"; Dashboard.selectedTags := [];
     Dashboard.viewMode := ViewList;
     Dashboard.mapBounds := Some bostonBounds;
     Dashboard.console := [] |}.

(** The page while the fetch is pending, after the visitor has switched
    to the list and typed a query. *)
Definition pendingListState : Dashboard.State :=
  {| Dashboard.places := []; Dashboard.tagGuide := [];
     Dashboard.loading := true; Dashboard.query := js "library";
     Dashboard.selectedTags := []; Dashboard.viewMode := ViewList;
     Dashboard.mapBounds := None; Dashboard.console := [] |}.

(** * The rest of the dashboard *)

(** ** Selection, aggregation and projection *)

Module Engine.

(** [toggleTag]: the updater it hands to [setSelectedTags]. *)
Definition toggleTag (tag : jsstring) (prev : list jsstring) : list jsstring :=
  if bool_decide (tag ∈ prev) then filter (λ x, x ≠ tag) prev
  else prev ++ [tag].

(** What changes [selectedTags]: a click on a tag chip, or on Clear. *)
Inductive TagEvent :=
  | ToggleTag (tag : jsstring)
  | ClearTags.

Definition selectStep (selected : list jsstring) (ev : TagEvent) : list jsstring :=
  match ev with
  | ToggleTag tag => toggleTag tag selected
  | ClearTags => []
  end.

(** The selection after a sequence of clicks, from the initial [[]]. *)
Definition selectionAfter (evs : list TagEvent) : list jsstring :=
  foldl selectStep [] evs.

(** [Array.prototype.sort] with a comparator whose sign is [cmp]: the
    stable order, which is the one the language gives for a consistent
    comparator.  An element goes after those it does not have to
    precede. *)
Fixpoint insertSorted {A} (cmp : A → A → Z) (x : A) (l : list A) : list A :=
  match l with
  | [] => [x]
  | y :: l' => if (0 <? cmp x y)%Z then y :: insertSorted cmp x l' else x :: l
  end.

Definition sortBy {A} (cmp : A → A → Z) (l : list A) : list A :=
  foldr (insertSorted cmp) [] l.

(** [set.add(t)] on a [Set] kept in insertion order. *)
Definition setAdd (s : list jsstring) (t : jsstring) : list jsstring :=
  if bool_decide (t ∈ s) then s else s ++ [t].

(** The [Set] that [allTags] fills: the tags of the places in view. *)
Definition tagSet (placesInView : list Place) : list jsstring :=
  foldl (λ s p, foldl setAdd s (service_tags p)) [] placesInView.

(** [tagLabel]: display names by identifier, the identifier standing in
    for an empty display name. *)
Definition tagLabel (tagGuide : list TagGuide) : gmap jsstring jsstring :=
  foldl (λ m t, <[ tag t := orElse (display_name t) (tag t) ]> m) ∅ tagGuide.

(** [(tagLabel.get(a) ?? a).toLowerCase()] *)
Definition labelOf {cm : CaseMapping}
    (labels : gmap jsstring jsstring) (a : jsstring) : jsstring :=
  toLowerCase (default a (labels !! a)).

(** [allTags]; [localeCompare] is the built-in of the language, taken
    as it comes. *)
Definition allTags {cm : CaseMapping} (localeCompare : jsstring → jsstring → Z)
    (placesInView : list Place) (labels : gmap jsstring jsstring)
    : list jsstring :=
  sortBy (λ a b, localeCompare (labelOf labels a) (labelOf labels b))
         (tagSet placesInView).

(** A [Map] from categories to counts, in insertion order.  The counts
    are whole numbers far below 2^53, where binary64 arithmetic is
    exact. *)
Definition Counts : Type := list (jsstring * N).

Fixpoint mapGet (m : Counts) (key : jsstring) : option N :=
  match m with
  | [] => None
  | (k, v) :: m' => if bool_decide (k = key) then Some v else mapGet m' key
  end.

(** [m.set(key, v)]: an existing key keeps its place. *)
Fixpoint mapSet (m : Counts) (key : jsstring) (v : N) : Counts :=
  match m with
  | [] => [(key, v)]
  | (k, v') :: m' =>
      if bool_decide (k = key) then (k, v) :: m' else (k, v') :: mapSet m' key v
  end.

(** [p.category || "Uncategorized"] *)
Definition categoryKey (p : Place) : jsstring :=
  orElse (category p) (js "Uncategorized").

(** [m.set(key, (m.get(key) || 0) + 1)] *)
Definition countStep (m : Counts) (p : Place) : Counts :=
  let key := categoryKey p in
  mapSet m key (default 0 (mapGet m key) + 1).

Definition categoryCounts (placesInView : list Place) : Counts :=
  foldl countStep [] placesInView.

(** [entries.sort((a, b) => b[1] - a[1])] *)
Definition countsByCategory (placesInView : list Place) : Counts :=
  sortBy (λ a b, Z.of_N b.2 - Z.of_N a.2)%Z (categoryCounts placesInView).

(** The number of places in view that fall under a category key. *)
Definition occurrences (key : jsstring) (l : list Place) : N :=
  N.of_nat (length (filter (λ p, categoryKey p = key) l)).

(** A point feature of [placesGeoJSON]. *)
Record Feature := {
  coordinates : float * float;       (* [lng, lat] *)
  pid : jsstring;
  featureCategory : jsstring;
  color : jsstring
}.

(** The [filter] and the [map] of [placesGeoJSON] in one pass. *)
Definition featureOf {cm : CaseMapping} (p : Place) : option Feature :=
  match safeNum (lat p), safeNum (lng p) with
  | Some la, Some ln =>
      Some {| coordinates := (ln, la); pid := placeKey p;
              featureCategory := orElse (category p) [];
              color := categoryColor (orElse (category p) []) |}
  | _, _ => None
  end.

Definition placesGeoJSON {cm : CaseMapping}
    (filteredUnique : list Place) : list Feature :=
  omap featureOf filteredUnique.

(** [activePlace]: the first place with the active key. *)
Definition activePlace (activePlaceId : option jsstring) (places : list Place)
    : option Place :=
  match activePlaceId with
  | Some (c :: k) => List.find (λ p, bool_decide (placeKey p = c :: k)) places
  | _ => None                                   (* !activePlaceId *)
  end.

(** What the component asks of the map. *)
Inductive MapCommand :=
  | FlyTo (center : float * float) (zoom : float) (duration : float)
  | EaseTo (center : float * float) (zoom : float) (duration : float)
  | PanBy (offset : float * float) (duration : float).

(** [z || 10] on a number: zero and NaN are falsy. *)
Definition orTen (z : float) : float :=
  if PrimFloat.is_zero z || PrimFloat.is_nan z then 10%float else z.

(** [focusPlace]: the new [activePlaceId] and the commands sent to the
    map; [currentZoom] is [None] when there is no map. *)
Definition focusPlace (p : Place) (currentZoom : option float)
    : option jsstring * list MapCommand :=
  match safeNum (lat p), safeNum (lng p) with
  | Some la, Some ln =>
      (Some (placeKey p),
       match currentZoom with
       | Some z => [FlyTo (ln, la) (mathMax 12 (orTen z)) 900]
       | None => []
       end)
  | _, _ => (Some (placeKey p), [])
  end.

(** The feature under a click on the map. *)
Inductive Clicked :=
  | NoFeature
  | ClusterMarker
      (clusterId : float)                   (* [Number(props.cluster_id)] *)
      (hasSource : bool)
      (center : option (float * float))
      (expansionZoom : option float)        (* [None]: the source reports an error *)
  | PointMarker (pid : jsstring).

(** The [onClick] of the map: the new [activePlaceId] and the commands
    sent. *)
Definition onMapClick (clicked : Clicked) (activePlaceId : option jsstring)
    : option jsstring * list MapCommand :=
  match clicked with
  | NoFeature => (activePlaceId, [])
  | ClusterMarker clusterId hasSource center expansionZoom =>
      (activePlaceId,
       if negb hasSource || negb (isFinite clusterId) then []
       else match expansionZoom, center with
            | Some zoom, Some coords => [EaseTo coords (mathMin zoom 16) 450]
            | _, _ => []
            end)
  | PointMarker (c :: k) => (Some (c :: k), [])
  | PointMarker [] => (activePlaceId, [])
  end.

(** A [DOMRect]. *)
Record Rect := {
  left : float;
  top : float;
  right : float;
  bottom : float
}.

Definition pad : float := 12.

(** [clamp(v)] with its default limit of 240. *)
Definition clampPan (v : float) : float := mathMax (-240) (mathMin 240 v).

(** The pixels the popup has to move by, along one axis: the later test
    overrides the earlier one. *)
Definition axisShift (pLow pHigh cLow cHigh : float) : float :=
  let d := 0%float in
  let d := if PrimFloat.ltb pLow (cLow + pad) then ((cLow + pad) - pLow)%float else d in
  let d := if PrimFloat.ltb (cHigh - pad) pHigh then ((cHigh - pad) - pHigh)%float else d in
  d.

(** The popup correction: the command sent once the popup is measured,
    if any. *)
Definition popupCorrection (cRect pRect : Rect) : list MapCommand :=
  let dx := clampPan (axisShift (left pRect) (right pRect) (left cRect) (right cRect)) in
  let dy := clampPan (axisShift (top pRect) (bottom pRect) (top cRect) (bottom cRect)) in
  if negb (PrimFloat.eqb dx 0) || negb (PrimFloat.eqb dy 0)
  then [PanBy (- dx, - dy)%float 350]
  else [].

(** A rectangle whose four coordinates are finite numbers. *)
Definition finiteRect (r : Rect) : Prop :=
  isFinite (left r) = true ∧ isFinite (top r) = true
  ∧ isFinite (right r) = true ∧ isFinite (bottom r) = true.

(** [-240 <= v && v <= 240] *)
Definition withinPanLimit (v : float) : bool :=
  PrimFloat.leb (-240) v && PrimFloat.leb v 240.

End Engine.
Import Engine.

(** A map container of 800 by 600 pixels, and a popup that sticks out
    above it by 50 pixels. *)
Definition sampleContainer : Rect :=
  {| left := 0; top := 100; right := 800; bottom := 700 |}.

Definition samplePopup : Rect :=
  {| left := 300; top := 50; right := 540; bottom := 250 |}.

(** A record without a category. *)
Definition unlocatedNoCategory : Place :=
  {| id := None; category := []; organization := js "Help Line"; office := [];
     address := []; email := None; website := None; place_id := None;
     opening_hours := None; lat := None; lng := None; phone := None;
     maps_url := None; photo_ref := None; service_tags := [] |}.


(** Two records that agree on every field but the tags. *)
Definition agreeExceptTags (p q : Place) : Prop :=
  id p = id q ∧ place_id p = place_id q
  ∧ organization p = organization q ∧ office p = office q
  ∧ address p = address q ∧ category p = category q
  ∧ email p = email q ∧ website p = website q
  ∧ opening_hours p = opening_hours q ∧ lat p = lat q ∧ lng p = lng q
  ∧ phone p = phone q ∧ maps_url p = maps_url q
  ∧ photo_ref p = photo_ref q.

(** The cleaning that [normalizeTagKey] does before it trims: no-break
    spaces become spaces and zero-width code units go. *)
Definition cleanTagSpaces (s : jsstring) : jsstring :=
  replaceEach isZeroWidth [] (replaceEach isNbsp (js " ") s).

(** ** Links, photos and opening hours *)

Module Links.

(** A letter of the pattern against a code unit, under the flag [i]:
    only the two ASCII cases of a letter match it. *)
Definition asciiFold (c : N) : N :=
  if (65 <=? c) && (c <=? 90) then c + 32 else c.

Fixpoint startsWithFold (s t : jsstring) : bool :=
  match t, s with
  | [], _ => true
  | _ :: _, [] => false
  | d :: t', c :: s' => (asciiFold c =? asciiFold d) && startsWithFold s' t'
  end.

(** [/^https?:\/\//i.test(u)] *)
Definition hasHttpScheme (u : jsstring) : bool :=
  startsWithFold u (js "http://") || startsWithFold u (js "https://").

Definition safeUrl (raw : option jsstring) : option jsstring :=
  let u := trim (orElseNull raw []) in
  match u with
  | [] => None
  | _ => if hasHttpScheme u then Some u else Some (js "https://" ++ u)
  end.

(** [ref.startsWith("http://") || ref.startsWith("https://")] *)
Definition isDirectUrl (ref : jsstring) : bool :=
  startsWith ref (js "http://") || startsWith ref (js "https://").

Section WithEncoders.

(** The percent-encoding of a value by [URLSearchParams] and by
    [encodeURIComponent], built-ins taken as they come. *)
Variable formEncode : jsstring → jsstring.
Variable encodeURIComponent : jsstring → jsstring.

Definition getPhotoSrc (photoRef placeId : option jsstring) : option jsstring :=
  let pid := trim (orElseNull placeId []) in
  let ref := trim (orElseNull photoRef []) in
  if isTruthy ref && isDirectUrl ref then Some ref
  else match pid, ref with
       | _ :: _, _ =>
           Some (js "/api/photo?" ++ js "placeId=" ++ formEncode pid ++ js "&w=300"
                 ++ (if isTruthy ref then js "&ref=" ++ formEncode ref else []))
       | [], _ :: _ =>
           Some (js "/api/photo?ref=" ++ encodeURIComponent ref ++ js "&w=300")
       | [], [] => None
       end.

End WithEncoders.

Definition isBar (c : N) : bool := c =? 124.

(** [" • "] *)
Definition spacedBullet : jsstring := [32; 8226; 32].

(** [h.replace(/\s*\|\s*/g, " • ")], read from left to right.  [pending]
    is the white space seen since the last other code unit: a bar
    swallows it, anything else lets it through.  [afterBar] says that
    the white space being read follows a bar, which swallows it too. *)
Fixpoint replaceBars (pending : jsstring) (afterBar : bool) (s : jsstring)
    : jsstring :=
  match s with
  | [] => pending
  | c :: s' =>
      if isBar c then spacedBullet ++ replaceBars [] true s'
      else if isSpace c then
        (if afterBar then replaceBars [] true s'
         else replaceBars (pending ++ [c]) false s')
      else pending ++ c :: replaceBars [] false s'
  end.

Definition formatHours (hours : option jsstring) : option jsstring :=
  let h := trim (orElseNull hours []) in
  match h with
  | [] => None
  | _ => Some (replaceBars [] false h)
  end.

(** [hashColor]: the running hash stays below 2^37, where binary64
    arithmetic is exact, and [>>> 0] reduces it modulo 2^32. *)
Definition hashStep (h c : N) : N := (h * 31 + c) mod 2 ^ 32.

Definition hashOf (input : jsstring) : N := foldl hashStep 0 input.

Definition hashColor (input : jsstring) : jsstring :=
  js "hsl(" ++ Dashboard.digitsOf (N.to_uint (hashOf input mod 360))
  ++ js " 70% 45%)".

End Links.
Import Links.

(** ** Route handlers *)

Module Handler.

Import Dashboard.

(** A run of an asynchronous handler over effects [E]: what it did, in
    order, and its result or the exception that ended it. *)
Definition Run (E A : Type) : Type := list E * Settled A.

Definition ret {E A} (a : A) : Run E A := ([], Fulfilled a).

(** [throw] *)
Definition throw {E A} (e : jsstring) : Run E A := ([], Rejected e).

(** [await p], for a promise settled as [p]. *)
Definition await {E A} (p : Settled A) : Run E A := ([], p).

Definition bindRun {E A B} (m : Run E A) (k : A → Run E B) : Run E B :=
  match m with
  | (t1, Fulfilled a) => let '(t2, r) := k a in (t1 ++ t2, r)
  | (t1, Rejected e) => (t1, Rejected e)
  end.

End Handler.

Notation "x ←run m ; k" := (Handler.bindRun m (λ x, k))
  (at level 20, m at level 100, k at level 200, right associativity,
   format "x  ←run  m ;  '/' k").

(** ** The photo route: the handler *)

Module PhotoRoute.

Import Dashboard Photo Handler.

(** The environment variables the route reads. *)
Record Env := {
  GOOGLE_PLACES_API_KEY : option jsstring;
  GOOGLE_MAPS_API_KEY : option jsstring
}.

(** The three addresses the route builds, by their parts.  The headers,
    the same on every request, are left out. *)
Inductive Request :=
  | NewPhoto (photoName : jsstring) (maxWidthPx : float) (key : jsstring)
  | LegacyPhoto (photoreference : jsstring) (maxwidth : float) (key : jsstring)
  | PlaceDetails (placeId : jsstring) (key : jsstring).

(** The body of a response, as the three readers give it: as text, as
    bytes, and the value of [json?.photos?.[0]?.name] when it is read as
    JSON ([None] when that is undefined, or the body is not JSON). *)
Record Body := {
  text : jsstring;
  bytes : list N;
  firstPhotoName : option jsstring
}.

(** An upstream response: its status, its [content-type] header and its
    body, [None] for a response without one. *)
Record Upstream := {
  status : N;
  contentType : option jsstring;
  body : option Body
}.

(** [Response.ok] *)
Definition ok (u : Upstream) : bool := (200 <=? status u) && (status u <=? 299).

Inductive Hint := HintNewName | HintFallback | HintLegacy.

Inductive Reply :=
  | JsonError (httpStatus : N) (error : jsstring)
  | NoUpstreamRequest                           (* status 502 *)
  | UpstreamError (upstreamStatus : N) (upstreamType : jsstring)
      (upstreamBody : jsstring) (hint : Hint)   (* status 502 *)
  | Image (type : jsstring) (content : list N). (* status 200 *)

Definition httpStatus (r : Reply) : N :=
  match r with
  | JsonError s _ => s
  | NoUpstreamRequest => 502
  | UpstreamError _ _ _ _ => 502
  | Image _ _ => 200
  end.

Inductive Effect :=
  | Fetch (req : Request)
  | ConsoleError (statuses : list N).

(** [await fetchUpstream(u)], answered by [answer]. *)
Definition fetchUpstream (req : Request) (answer : Settled Upstream) : Run Effect Upstream :=
  ([Fetch req], answer).

Definition consoleError (statuses : list N) : Run Effect unit :=
  ([ConsoleError statuses], Fulfilled tt).

(** The exception of reading a body a second time. *)
Definition bodyUsed : jsstring := js "Body is unusable".

(** The variable [upstream]: a response, with the fact that its body has
    been read already. *)
Definition Held : Type := Upstream * bool.

(** [upstream.arrayBuffer()]: a body can be read once; a response
    without a body reads as empty every time. *)
Definition arrayBuffer (h : Held) : Run Effect (list N) :=
  match body h.1 with
  | None => ret []
  | Some b => if h.2 then throw bodyUsed else ret (bytes b)
  end.

(** [upstream.text().catch(() => "")] *)
Definition textOrEmpty (h : Held) : jsstring :=
  match body h.1 with
  | None => []
  | Some b => if h.2 then [] else text b
  end.

(** [(await detailsResp.json().catch(() => null))?.photos?.[0]?.name] *)
Definition photoNameOf (u : Upstream) : option jsstring :=
  body u ≫= firstPhotoName.

Definition missingRef : jsstring := js "Missing ref (or placeId)".
Definition missingKey : jsstring :=
  js "Missing GOOGLE_PLACES_API_KEY (or GOOGLE_MAPS_API_KEY) in .env.local".

(** [!!ref && (ref.startsWith("places/") || ref.includes("/photos/"))] *)
Definition isNewPlacesPhotoName (ref : jsstring) : bool :=
  isTruthy ref && (startsWith ref (js "places/") || includes ref (js "/photos/")).

(** [(!upstream || !upstream.ok)] *)
Definition unusable (upstream : option Held) : bool :=
  match upstream with
  | None => true
  | Some h => negb (ok h.1)
  end.

(** [ref], [placeId] and [key], with [null], [undefined] and the empty
    string, all of them falsy, as the empty string. *)
Definition refParam (params : list (jsstring * jsstring)) : jsstring :=
  orElseNull (searchParamsGet params (js "ref")) [].

Definition placeIdParam (params : list (jsstring * jsstring)) : jsstring :=
  orElseNull (searchParamsGet params (js "placeId"))
    (orElseNull (searchParamsGet params (js "place_id")) []).

Definition apiKey (env : Env) : jsstring :=
  orElseNull (GOOGLE_PLACES_API_KEY env) (orElseNull (GOOGLE_MAPS_API_KEY env) []).

(** [GET]: the three answers are those of the network to the first
    attempt, to the details request and to the second photo request,
    for the requests that are made. *)
Definition GET (params : list (jsstring * jsstring)) (env : Env)
    (first details second : Settled Upstream) : Run Effect Reply :=
  let ref := refParam params in
  let placeId := placeIdParam params in
  let w := effectiveWidth params in
  if negb (isTruthy ref) && negb (isTruthy placeId)
  then ret (JsonError 400 missingRef)
  else
    let key := apiKey env in
    if negb (isTruthy key) then ret (JsonError 500 missingKey)
    else
      let isNew := isNewPlacesPhotoName ref in
      upstream ←run (if isTruthy ref
                     then u ←run fetchUpstream
                                   (if isNew then NewPhoto ref w key
                                    else LegacyPhoto ref w key) first;
                          ret (Some (u, false))
                     else ret None);
      upstream ←run (if unusable upstream && isTruthy placeId
                     then
                       let firstStatus := match upstream with
                                          | Some h => status h.1
                                          | None => 0
                                          end in
                       detailsResp ←run fetchUpstream (PlaceDetails placeId key) details;
                       upstream ←run
                         (if ok detailsResp
                          then match photoNameOf detailsResp with
                               | Some (c :: name) =>
                                   u ←run fetchUpstream (NewPhoto (c :: name) w key) second;
                                   ret (Some (u, false))
                               | _ =>
                                   ret (match upstream with
                                        | None => Some (detailsResp, true)
                                        | Some h => Some h
                                        end)
                               end
                          else ret (match upstream with
                                    | None => Some (detailsResp, false)
                                    | Some h => Some h
                                    end));
                       _ ←run (match upstream with
                               | Some h =>
                                   if negb (firstStatus =? 0) && negb (ok h.1)
                                   then consoleError [firstStatus; status h.1]
                                   else ret tt
                               | None => ret tt
                               end);
                       ret upstream
                     else ret upstream);
      match upstream with
      | None => ret NoUpstreamRequest
      | Some h =>
          if negb (ok h.1)
          then
            _ ←run consoleError [status h.1];
            ret (UpstreamError (status h.1) (orElseNull (contentType h.1) [])
                   (take 2000 (textOrEmpty h))
                   (if isNew then HintNewName
                    else if isTruthy placeId then HintFallback else HintLegacy))
          else
            content ←run arrayBuffer h;
            ret (Image (orElseNull (contentType h.1) (js "image/jpeg")) content)
      end.

(** The requests among the effects of a run. *)
Definition requests {A} (r : Run Effect A) : list Request :=
  omap (λ e, match e with Fetch req => Some req | _ => None end) r.1.

(** The width a photo request asks for, if it is one. *)
Definition requestedWidth (req : Request) : option float :=
  match req with
  | NewPhoto _ w _ | LegacyPhoto _ w _ => Some w
  | PlaceDetails _ _ => None
  end.

Definition requestKey (req : Request) : jsstring :=
  match req with
  | NewPhoto _ _ k | LegacyPhoto _ _ k | PlaceDetails _ k => k
  end.

(** The first request of [GET] for a truthy [ref]. *)
Definition photoRequest (ref : jsstring) (w : float) (key : jsstring) : Request :=
  if isNewPlacesPhotoName ref then NewPhoto ref w key else LegacyPhoto ref w key.

End PhotoRoute.
Import PhotoRoute.

Definition sampleEnv : PhotoRoute.Env :=
  {| GOOGLE_PLACES_API_KEY := None; GOOGLE_MAPS_API_KEY := Some (js "k") |}.

Definition jpeg : Upstream :=
  {| status := 200; contentType := None;
     body := Some {| text := []; bytes := [255; 216; 255]; firstPhotoName := None |} |}.

Definition onePhoto : Upstream :=
  {| status := 200; contentType := Some (js "application/json");
     body := Some {| text := []; bytes := [];
                     firstPhotoName := Some (js "places/p1/photos/a") |} |}.

Definition noPhotos : Upstream :=
  {| status := 200; contentType := Some (js "application/json");
     body := Some {| text := js "{}"; bytes := [123; 125]; firstPhotoName := None |} |}.

(** ** Regular expressions *)

Module RegExp.

(** The patterns the program uses, matched against a whole string
    ([^...$]) of code units. *)
Inductive Regex :=
  | Never
  | Eps
  | Class (f : N → bool)
  | Seq (r1 r2 : Regex)
  | Alt (r1 r2 : Regex)
  | Star (r : Regex).

(** [r+] *)
Definition Plus (r : Regex) : Regex := Seq r (Star r).

Fixpoint nullable (r : Regex) : bool :=
  match r with
  | Never => false
  | Eps => true
  | Class _ => false
  | Seq r1 r2 => nullable r1 && nullable r2
  | Alt r1 r2 => nullable r1 || nullable r2
  | Star _ => true
  end.

(** The pattern for what may follow a first code unit [c]. *)
Fixpoint deriv (c : N) (r : Regex) : Regex :=
  match r with
  | Never => Never
  | Eps => Never
  | Class f => if f c then Eps else Never
  | Seq r1 r2 =>
      Alt (Seq (deriv c r1) r2) (if nullable r1 then deriv c r2 else Never)
  | Alt r1 r2 => Alt (deriv c r1) (deriv c r2)
  | Star r => Seq (deriv c r) (Star r)
  end.

(** [/^r$/.test(s)] *)
Definition test (r : Regex) (s : jsstring) : bool :=
  nullable (foldl (λ r c, deriv c r) r s).

(** The strings of a pattern. *)
Inductive Matches : Regex → jsstring → Prop :=
  | MEps : Matches Eps []
  | MClass f c : f c = true → Matches (Class f) [c]
  | MSeq r1 r2 s1 s2 :
      Matches r1 s1 → Matches r2 s2 → Matches (Seq r1 r2) (s1 ++ s2)
  | MAltL r1 r2 s : Matches r1 s → Matches (Alt r1 r2) s
  | MAltR r1 r2 s : Matches r2 s → Matches (Alt r1 r2) s
  | MStarNil r : Matches (Star r) []
  | MStarApp r s1 s2 :
      Matches r s1 → Matches (Star r) s2 → Matches (Star r) (s1 ++ s2).

End RegExp.

(** ** The feedback form and its route *)

Module Feedback.

Import Dashboard Handler.

Set Warnings "-register-all".

(** A JSON value; a property that is absent reads as [undefined], here
    [None]. *)
Inductive Json :=
  | JNull
  | JBool (b : bool)
  | JNumber (x : float)
  | JString (s : jsstring)
  | JArray (items : list Json)
  | JObject (members : list (jsstring * Json)).

(** The truthiness of a value. *)
Definition truthy (v : option Json) : bool :=
  match v with
  | None | Some JNull => false
  | Some (JBool b) => b
  | Some (JNumber x) => negb (PrimFloat.eqb x 0 || is_nan x)
  | Some (JString s) => isTruthy s
  | Some (JArray _) | Some (JObject _) => true
  end.

(** [a || b] on values. *)
Definition orJson (a : option Json) (b : Json) : Json :=
  match a with
  | Some v => if truthy a then v else b
  | None => b
  end.

Fixpoint lookupMember (members : list (jsstring * Json)) (k : jsstring) : option Json :=
  match members with
  | [] => None
  | (k', v) :: rest => if bool_decide (k' = k) then Some v else lookupMember rest k
  end.

(** [v.k] for a value that is not [null], and a name that no prototype
    of a JSON value defines: [category], [name], [email], [comment],
    [error], [message], [records], [id]. *)
Definition member (v : Json) (k : jsstring) : option Json :=
  match v with
  | JObject members => lookupMember members k
  | _ => None
  end.

(** The message of the [TypeError] of reading a property of [null] or
    [undefined]. *)
Definition cannotRead : jsstring := js "Cannot read properties of null or undefined".

(** [v.k] *)
Definition get (v : option Json) (k : jsstring) : Settled (option Json) :=
  match v with
  | None | Some JNull => Rejected cannotRead
  | Some v => Fulfilled (member v k)
  end.

(** [v?.k] *)
Definition getOptional (v : option Json) (k : jsstring) : option Json :=
  match v with
  | None | Some JNull => None
  | Some v => member v k
  end.

(** [v[0]] *)
Definition first (v : option Json) : Settled (option Json) :=
  match v with
  | None | Some JNull => Rejected cannotRead
  | Some (JArray items) => Fulfilled (head items)
  | Some (JString s) => Fulfilled ((λ c, JString [c]) <$> head s)
  | Some (JObject members) => Fulfilled (lookupMember members (js "0"))
  | Some _ => Fulfilled None
  end.

(** *** The route *)

Record Env := {
  AIRTABLE_BASE_ID : option jsstring;
  AIRTABLE_TABLE_NAME : option jsstring;
  AIRTABLE_API_KEY : option jsstring
}.

(** The request to Airtable: the base and the table of its address, the
    bearer token, and the fields of the one record of its body. *)
Record AirtableRequest := {
  baseId : jsstring;
  tableName : jsstring;
  bearer : jsstring;
  Category : Json;
  Name : Json;
  Email : Json;
  Comment : Json;
  SubmittedAt : jsstring
}.

(** A response, as its readers give it: [text()], and the value of
    that text as JSON, [None] when it is not JSON. *)
Record Response := {
  status : N;
  statusText : jsstring;
  text : Settled jsstring;
  parsed : option Json
}.

(** [Response.ok] *)
Definition ok (r : Response) : bool := (200 <=? status r) && (status r <=? 299).

Definition notJson : jsstring := js "Unexpected token".

(** [response.json()] *)
Definition json (r : Response) : Settled Json :=
  match text r with
  | Rejected e => Rejected e
  | Fulfilled _ =>
      match parsed r with
      | Some v => Fulfilled v
      | None => Rejected notJson
      end
  end.

Inductive Effect :=
  | Send (req : AirtableRequest)
  | ConsoleLog
  | ConsoleError.

Inductive Payload :=
  | Failure (error : Json)
  | Success (id : option Json).

Record Reply := { code : N; payload : Payload }.

Definition allRequired : jsstring := js "All fields are required".
Definition configurationError : jsstring :=
  js "Server configuration error. Please contact support.".
Definition failedToSave : jsstring := js "Failed to save feedback. Please try again.".

(** [!v] for an environment variable. *)
Definition unset (v : option jsstring) : bool :=
  negb (isTruthy (orElseNull v [])).

(** The body of the [try] of [POST]. *)
Definition attempt (body : Settled Json) (env : Env) (now : jsstring)
    (answer : Settled Response) : Run Effect Reply :=
  body ←run await body;
  category ←run await (get (Some body) (js "category"));
  let name := member body (js "name") in
  let email := member body (js "email") in
  let comment := member body (js "comment") in
  if negb (truthy category) || negb (truthy name)
     || negb (truthy email) || negb (truthy comment)
  then ret {| code := 400; payload := Failure (JString allRequired) |}
  else
    let airtableBaseId := AIRTABLE_BASE_ID env in
    let airtableTableName := orElseNull (AIRTABLE_TABLE_NAME env) (js "Feedback") in
    let airtableApiKey := AIRTABLE_API_KEY env in
    if unset airtableBaseId || unset airtableApiKey
    then
      _ ←run ([ConsoleError], Fulfilled ());
      ret {| code := 500; payload := Failure (JString configurationError) |}
    else
      _ ←run ([ConsoleLog], Fulfilled ());
      response ←run
        ([Send {| baseId := orElseNull airtableBaseId [];
                  tableName := airtableTableName;
                  bearer := orElseNull airtableApiKey [];
                  Category := orJson category JNull;
                  Name := orJson name JNull;
                  Email := orJson email JNull;
                  Comment := orJson comment JNull;
                  SubmittedAt := now |}], answer);
      if negb (ok response)
      then
        errorText ←run await (text response);
        let errorMessage :=
          match parsed response with
          | Some errorJson =>
              match get (Some errorJson) (js "error") with
              | Fulfilled error =>
                  orJson (getOptional error (js "message")) (JString failedToSave)
              | Rejected _ => JString failedToSave
              end
          | None => JString failedToSave
          end in
        _ ←run ([ConsoleError], Fulfilled ());
        ret {| code := 500; payload := Failure errorMessage |}
      else
        result ←run await (json response);
        records ←run await (get (Some result) (js "records"));
        record ←run await (first records);
        id ←run await (get record (js "id"));
        ret {| code := 200; payload := Success id |}.

(** All four fields of the body are truthy. *)
Definition complete (body : Json) : bool :=
  truthy (member body (js "category")) && truthy (member body (js "name"))
  && truthy (member body (js "email")) && truthy (member body (js "comment")).

(** The base and the API key are set. *)
Definition configured (env : Env) : bool :=
  negb (unset (AIRTABLE_BASE_ID env)) && negb (unset (AIRTABLE_API_KEY env)).

(** [POST]: the [try] with its [catch].  Every exception of the body is
    an [Error], whose message the reply carries. *)
Definition POST (body : Settled Json) (env : Env) (now : jsstring)
    (answer : Settled Response) : list Effect * Reply :=
  match attempt body env now answer with
  | (t, Fulfilled reply) => (t, reply)
  | (t, Rejected message) =>
      (t ++ [ConsoleError], {| code := 500; payload := Failure (JString message) |})
  end.

(** The requests to Airtable among the effects. *)
Definition sent (t : list Effect) : list AirtableRequest :=
  omap (λ e, match e with Send req => Some req | _ => None end) t.

(** *** The page *)

Record FormData := {
  category : jsstring;
  name : jsstring;
  email : jsstring;
  comment : jsstring
}.

Record State := {
  formData : FormData;
  isSubmitting : bool;
  showSuccessDialog : bool;
  error : option jsstring
}.

Definition emptyForm : FormData :=
  {| category := []; name := []; email := []; comment := [] |}.

Definition fillInAll : jsstring := js "Please fill in all fields.".
Definition invalidEmail : jsstring := js "Please enter a valid email address.".
Definition failedToSubmit : jsstring := js "Failed to submit feedback".

(** [[^\s@]] *)
Definition plain (c : N) : bool := negb (isSpace c || (c =? 64)).

(** [/^[^\s@]+@[^\s@]+\.[^\s@]+$/] *)
Definition emailRegex : RegExp.Regex :=
  RegExp.Seq (RegExp.Plus (RegExp.Class plain))
    (RegExp.Seq (RegExp.Class (λ c, c =? 64))
       (RegExp.Seq (RegExp.Plus (RegExp.Class plain))
          (RegExp.Seq (RegExp.Class (λ c, c =? 46))
             (RegExp.Plus (RegExp.Class plain))))).

(** [JSON.stringify(formData)], as the server reads it back. *)
Definition formJson (f : FormData) : Json :=
  JObject [ (js "category", JString (category f)); (js "name", JString (name f));
            (js "email", JString (email f)); (js "comment", JString (comment f)) ].

Section WithString.

(** [String(v)] for a value that is not a string. *)
Variable stringOf : Json → jsstring.

(** The message of [new Error(v)]. *)
Definition messageOf (v : Json) : jsstring :=
  match v with
  | JString s => s
  | _ => stringOf v
  end.

(** [`Server error: ${response.status} ${response.statusText}`] *)
Definition serverError (r : Response) : jsstring :=
  js "Server error: " ++ digitsOf (N.to_uint (status r)) ++ js " " ++ statusText r.

(** The [try] of [handleSubmit], after the request has been answered:
    fulfilled when the response is ok, the thrown message otherwise. *)
Definition outcome (answer : Settled Response) : Settled unit :=
  response ←await answer;
  if negb (ok response)
  then
    let errorMessage :=
      match json response with
      | Fulfilled errorData =>
          match get (Some errorData) (js "error") with
          | Fulfilled error => messageOf (orJson error (JString failedToSubmit))
          | Rejected _ => serverError response
          end
      | Rejected _ => serverError response
      end in
    Rejected errorMessage
  else Fulfilled ().

(** [handleSubmit]: the bodies it posts to [/api/feedback], and the state
    when it has finished. *)
Definition handleSubmit (st : State) (answer : Settled Response)
    : list Json * State :=
  let st := {| formData := formData st; isSubmitting := isSubmitting st;
               showSuccessDialog := showSuccessDialog st; error := None |} in
  let f := formData st in
  if negb (isTruthy (category f)) || negb (isTruthy (name f))
     || negb (isTruthy (email f)) || negb (isTruthy (comment f))
  then ([], {| formData := f; isSubmitting := isSubmitting st;
               showSuccessDialog := showSuccessDialog st;
               error := Some fillInAll |})
  else if negb (RegExp.test emailRegex (email f))
  then ([], {| formData := f; isSubmitting := isSubmitting st;
               showSuccessDialog := showSuccessDialog st;
               error := Some invalidEmail |})
  else
    ([formJson f],
     match outcome answer with
     | Fulfilled _ =>
         {| formData := emptyForm; isSubmitting := false;
            showSuccessDialog := true; error := None |}
     | Rejected message =>
         {| formData := f; isSubmitting := false;
            showSuccessDialog := showSuccessDialog st; error := Some message |}
     end).

End WithString.

(** A form with every field filled in and an address of the shape
    [a@b.c], with neither white space nor another [@] in it. *)
Definition wellFormed (f : FormData) : Prop :=
  category f ≠ [] ∧ name f ≠ [] ∧ comment f ≠ []
  ∧ ∃ a b c, email f = a ++ 64 :: b ++ 46 :: c
             ∧ a ≠ [] ∧ b ≠ [] ∧ c ≠ []
             ∧ forallb plain (a ++ b ++ c) = true.

(** The request was answered, with a status from 200 to 299. *)
Definition answeredOk (answer : Settled Response) : bool :=
  match answer with
  | Fulfilled r => ok r
  | Rejected _ => false
  end.

(** The response the page receives for a reply of the route, whose
    body is the text [bodyText]. *)
Definition respond (statusText bodyText : jsstring) (reply : Reply) : Response :=
  {| status := code reply;
     statusText := statusText;
     text := Fulfilled bodyText;
     parsed := Some (match payload reply with
                     | Failure error => JObject [(js "error", error)]
                     | Success (Some id) =>
                         JObject [(js "success", JBool true); (js "id", id)]
                     | Success None => JObject [(js "success", JBool true)]
                     end) |}.

(** The page and the route together: the form is posted, the route
    handles it with the answer [airtable] of Airtable, and the page
    receives the reply. *)
Definition submit (stringOf : Json → jsstring) (st : State) (env : Env)
    (now : jsstring) (airtable : Settled Response) (statusText bodyText : jsstring)
    : list Effect * State :=
  let served := POST (Fulfilled (formJson (formData st))) env now airtable in
  let '(bodies, st') :=
    handleSubmit stringOf st (Fulfilled (respond statusText bodyText served.2)) in
  (match bodies with [] => [] | _ => served.1 end, st').

End Feedback.

Definition sampleForm : Feedback.State :=
  {| Feedback.formData :=
       {| Feedback.category := js "general feedback"; Feedback.name := js "Ana";
          Feedback.email := js "ana@example.org"; Feedback.comment := js "Thanks" |};
     Feedback.isSubmitting := false; Feedback.showSuccessDialog := false;
     Feedback.error := None |}.

Definition airtableEnv : Feedback.Env :=
  {| Feedback.AIRTABLE_BASE_ID := Some (js "app1");
     Feedback.AIRTABLE_TABLE_NAME := None;
     Feedback.AIRTABLE_API_KEY := Some (js "key1") |}.

Definition created : Feedback.Response :=
  {| Feedback.status := 200; Feedback.statusText := js "OK";
     Feedback.text := Dashboard.Fulfilled [];
     Feedback.parsed :=
       Some (Feedback.JObject
               [(js "records",
                 Feedback.JArray [Feedback.JObject [(js "id", Feedback.JString (js "rec1"))]])]) |}.
(** ** The case mapping of the examples *)

(** The case mapping that folds the Basic Latin and Latin-1 Supplement
    blocks and leaves every other code unit as it is.  On the strings of
    these two blocks, among them every string of the examples, it is the
    built-in. *)
#[global] Instance latin1CaseMapping : CaseMapping :=
  {| toLowerCase := fmap lowerUnit; toLowerCase_latin1 := λ _ _, eq_refl |}.

(** * Properties *)

(** ** The case mapping *)

Lemma toLowerCase_nil {cm : CaseMapping} : toLowerCase [] = [].
Proof. by rewrite toLowerCase_latin1 by constructor. Qed.

(** A blank query matches every place. *)
Lemma matchText_blank {cm : CaseMapping} (p : Place) (query : jsstring) :
  trim query = [] → matchText p query = true.
Proof. intros Hq. unfold matchText. by rewrite Hq, toLowerCase_nil. Qed.

(** On strings of the Basic Latin and Latin-1 Supplement blocks every
    case mapping gives what the one of the examples gives: what is
    computed there holds of the built-in. *)

Ltac latin1_string :=
  unfold isLatin1; refine (bool_decide_unpack _ _); vm_compute; exact I.

Ltac latin1_guide :=
  repeat first [ apply Forall_nil_2 | apply Forall_cons_2 | split | latin1_string ].

Section Latin1.

Context {cm : CaseMapping}.

Implicit Types (s r : jsstring) (f : N → bool).

Lemma isLatin1_dropWhile f s : isLatin1 s → isLatin1 (dropWhile f s).
Proof.
  induction 1 as [|c s Hc Hs IH]; cbn; [constructor|].
  destruct (f c); [done|by constructor].
Qed.

Lemma isLatin1_trim s : isLatin1 s → isLatin1 (trim s).
Proof.
  intros Hs. unfold trim, trimEnd, trimStart.
  by apply Forall_reverse, isLatin1_dropWhile, Forall_reverse, isLatin1_dropWhile.
Qed.

Lemma isLatin1_replaceEach f r s :
  isLatin1 r → isLatin1 s → isLatin1 (replaceEach f r s).
Proof.
  intros Hr Hs. unfold replaceEach. apply Forall_bind.
  eapply Forall_impl; [exact Hs|]. intros c Hc. cbn.
  destruct (f c); [done|by repeat constructor].
Qed.

Lemma isLatin1_replaceRunsFrom f r (inRun : bool) s :
  isLatin1 r → isLatin1 s → isLatin1 (replaceRunsFrom f r inRun s).
Proof.
  intros Hr Hs. revert inRun.
  induction Hs as [|c s Hc Hs IH]; intros inRun; cbn; [constructor|].
  destruct (f c); [|constructor; [done|apply IH]].
  apply Forall_app. split; [destruct inRun; [constructor|done]|apply IH].
Qed.

Lemma isLatin1_orElse s : isLatin1 s → isLatin1 (orElse s []).
Proof. by destruct s. Qed.

Lemma matchText_latin1 (p : Place) (query : jsstring) :
  isLatin1 (organization p) → isLatin1 (office p) → isLatin1 query →
  matchText p query = matchText (cm := latin1CaseMapping) p query.
Proof.
  intros Horg Hoff Hq. unfold matchText.
  rewrite !(toLowerCase_latin1 (CaseMapping := cm)); [done| |].
  - apply Forall_app. split; [done|]. apply Forall_app. split; [latin1_string|done].
  - by apply isLatin1_trim.
Qed.

Lemma normalizeCategory_latin1 (category : jsstring) :
  isLatin1 category →
  normalizeCategory category
  = normalizeCategory (cm := latin1CaseMapping) category.
Proof.
  intros Hs. unfold normalizeCategory.
  rewrite (toLowerCase_latin1 (CaseMapping := cm)); [done|].
  by apply isLatin1_orElse.
Qed.

Lemma categoryColor_latin1 (category : jsstring) :
  isLatin1 category →
  categoryColor category = categoryColor (cm := latin1CaseMapping) category.
Proof.
  intros Hs. unfold categoryColor. by rewrite normalizeCategory_latin1.
Qed.

Lemma categoryIcon_latin1 (category : jsstring) :
  isLatin1 category →
  categoryIcon category = categoryIcon (cm := latin1CaseMapping) category.
Proof.
  intros Hs. unfold categoryIcon. by rewrite normalizeCategory_latin1.
Qed.

Lemma normalizeTagKey_latin1 s :
  isLatin1 s → normalizeTagKey s = normalizeTagKey (cm := latin1CaseMapping) s.
Proof.
  intros Hs. unfold normalizeTagKey.
  rewrite (toLowerCase_latin1 (CaseMapping := cm)); [done|].
  apply isLatin1_trim, isLatin1_replaceEach; [constructor|].
  apply isLatin1_replaceEach; [latin1_string|]. by apply isLatin1_orElse.
Qed.

Lemma isLatin1_canonicalOf (tg : TagGuide) :
  isLatin1 (tag tg) → isLatin1 (canonicalOf tg).
Proof. intros Htag. by apply isLatin1_trim, isLatin1_orElse. Qed.

Lemma tagKeys_latin1 s :
  isLatin1 s → tagKeys s = tagKeys (cm := latin1CaseMapping) s.
Proof.
  intros Hs. unfold tagKeys.
  rewrite (normalizeTagKey_latin1 s) by done.
  rewrite (normalizeTagKey_latin1 (underscoresToSpaces s)); [done|].
  apply isLatin1_replaceEach; [latin1_string|done].
Qed.

Lemma displayKeys_latin1 (tg : TagGuide) :
  isLatin1 (display_name tg) →
  displayKeys tg = displayKeys (cm := latin1CaseMapping) tg.
Proof.
  intros Hdn. unfold displayKeys. destruct (display_name tg) as [|c dn] eqn:Heq; [done|].
  pose proof (isLatin1_trim _ Hdn) as Htrim.
  rewrite (normalizeTagKey_latin1 (trim (c :: dn))) by done.
  rewrite (normalizeTagKey_latin1 (underscoresToSpaces (trim (c :: dn))))
    by (apply isLatin1_replaceEach; [latin1_string|done]).
  rewrite (normalizeTagKey_latin1 (spacesToUnderscores (trim (c :: dn)))); [done|].
  apply isLatin1_replaceRunsFrom; [latin1_string|done].
Qed.

Lemma addTagGuide_latin1 (t : Tables) (tg : TagGuide) :
  latin1Guide tg → addTagGuide t tg = addTagGuide (cm := latin1CaseMapping) t tg.
Proof.
  intros [Htag Hdn]. unfold addTagGuide.
  pose proof (isLatin1_canonicalOf tg Htag) as Hcan.
  destruct (canonicalOf tg) as [|c canonical]; [done|].
  by rewrite (tagKeys_latin1 (c :: canonical)), (displayKeys_latin1 tg).
Qed.

Lemma buildTables_latin1 (tagsData : list TagGuide) :
  Forall latin1Guide tagsData →
  buildTables tagsData = buildTables (cm := latin1CaseMapping) tagsData.
Proof.
  unfold buildTables. generalize emptyTables.
  induction tagsData as [|tg tagsData IH]; intros t Hall; [done|].
  apply Forall_cons in Hall as [Htg Hall]. cbn.
  rewrite (addTagGuide_latin1 t tg Htg). by apply IH.
Qed.

Lemma canonicalizeTag_latin1 (tagsData : list TagGuide) (raw : jsstring) :
  Forall latin1Guide tagsData → isLatin1 raw →
  canonicalizeTag (buildTables tagsData) raw
  = canonicalizeTag (cm := latin1CaseMapping)
      (buildTables (cm := latin1CaseMapping) tagsData) raw.
Proof.
  intros Hall Hraw. unfold canonicalizeTag.
  rewrite (buildTables_latin1 tagsData Hall).
  rewrite (normalizeTagKey_latin1 (replaceEach isNbsp (js " ") (orElse raw []))); [done|].
  apply isLatin1_replaceEach; [latin1_string|]. by apply isLatin1_orElse.
Qed.

End Latin1.

(** ** Deduplication *)

Section Dedupe.

Implicit Types (l : list Place) (p : Place) (k : jsstring).

Lemma loopState_snoc l p : loopState (l ++ [p]) = dedupeStep (loopState l) p.
Proof. unfold loopState. by rewrite foldl_app. Qed.

(** The set [seen] holds the keys of the entries walked so far. *)
Lemma seen_keys l k : k ∈ (loopState l).1 ↔ k ∈ placeKey <$> l.
Proof.
  induction l as [|p l IH] using rev_ind.
  - cbn. by rewrite elem_of_empty, elem_of_nil.
  - rewrite loopState_snoc, fmap_app, elem_of_app. unfold dedupeStep. cbn.
    rewrite list_elem_of_singleton, <- IH.
    case_bool_decide as Hin; cbn.
    + split; [tauto|]. intros [?| ->]; done.
    + rewrite elem_of_union, elem_of_singleton. tauto.
Qed.

Lemma filteredUnique_snoc l p :
  filteredUnique (l ++ [p]) =
  filteredUnique l ++ (if bool_decide (placeKey p ∈ placeKey <$> l) then [] else [p]).
Proof.
  unfold filteredUnique. fold (loopState (l ++ [p])) (loopState l).
  rewrite loopState_snoc. unfold dedupeStep.
  pose proof (seen_keys l (placeKey p)) as Hseen.
  repeat case_bool_decide; cbn; try tauto; by rewrite ?app_nil_r.
Qed.

Lemma filteredUnique_sublist l : filteredUnique l `sublist_of` l.
Proof.
  induction l as [|p l IH] using rev_ind; [done|].
  rewrite filteredUnique_snoc. apply sublist_app; [done|].
  case_bool_decide; [apply sublist_nil_l | done].
Qed.

Lemma filteredUnique_NoDup l : NoDup (placeKey <$> filteredUnique l).
Proof.
  induction l as [|p l IH] using rev_ind; [constructor|].
  rewrite filteredUnique_snoc. case_bool_decide as Hin.
  - by rewrite app_nil_r.
  - rewrite fmap_app. apply NoDup_app. split_and!; [done| |apply NoDup_singleton].
    intros k Hk ->%list_elem_of_singleton. apply Hin.
    apply list_elem_of_fmap in Hk as (q & -> & Hq).
    apply list_elem_of_fmap_2. eapply elem_of_sublist; [done|apply filteredUnique_sublist].
Qed.

Lemma filter_ext_in {A} (P Q : A → Prop) `{!∀ x, Decision (P x)}
    `{!∀ x, Decision (Q x)} (xs : list A) :
  (∀ x, x ∈ xs → P x ↔ Q x) → filter P xs = filter Q xs.
Proof.
  induction xs as [|x xs IH]; intros Hext; [done|].
  rewrite !filter_cons. rewrite IH by (intros; apply Hext; by right).
  pose proof (Hext x (list_elem_of_here _ _)).
  repeat case_decide; tauto || done.
Qed.

Lemma firstOccurrences_snoc l p :
  firstOccurrences (l ++ [p]) =
  firstOccurrences l ++ (if bool_decide (placeKey p ∈ placeKey <$> l) then [] else [p]).
Proof.
  unfold firstOccurrences. rewrite imap_app, filter_app, fmap_app. f_equal.
  - f_equal. apply filter_ext_in. intros [i q] Hin. cbn.
    apply elem_of_lookup_imap in Hin as (j & x & [= -> ->] & Hj).
    apply lookup_lt_Some in Hj. rewrite take_app_le by lia. done.
  - cbn. rewrite Nat.add_0_r, take_app_length.
    case_decide; case_bool_decide; done.
Qed.

Lemma filteredUnique_firstOccurrences l : filteredUnique l = firstOccurrences l.
Proof.
  induction l as [|p l IH] using rev_ind; [done|].
  by rewrite filteredUnique_snoc, firstOccurrences_snoc, IH.
Qed.

Lemma filteredUnique_keys l k :
  k ∈ placeKey <$> filteredUnique l ↔ k ∈ placeKey <$> l.
Proof.
  induction l as [|p l IH] using rev_ind; [done|].
  rewrite filteredUnique_snoc, !fmap_app, !elem_of_app, IH.
  case_bool_decide as Hin; cbn; [|done].
  rewrite list_elem_of_singleton, elem_of_nil. split; [tauto|].
  intros [?| ->]; auto.
Qed.

End Dedupe.

(** C1: whatever the places, the applied query and the selected tags,
    no two entries of the deduplicated filtered sequence have the same
    identity key; it keeps the first occurrence of each key of the
    filtered sequence, drops the repeats, and keeps the source order. *)
Theorem filteredUnique_dedup {cm : CaseMapping}
    (places : list Place) (query : jsstring)
    (selectedTags : list jsstring) :
  let fs := filtered places query selectedTags in
  NoDup (placeKey <$> filteredUnique fs)
  ∧ filteredUnique fs = firstOccurrences fs
  ∧ filteredUnique fs `sublist_of` fs
  ∧ (∀ k, k ∈ placeKey <$> fs ↔ k ∈ placeKey <$> filteredUnique fs).
Proof.
  intros fs. split_and!.
  - apply filteredUnique_NoDup.
  - apply filteredUnique_firstOccurrences.
  - apply filteredUnique_sublist.
  - intros k. symmetry. apply filteredUnique_keys.
Qed.

(** ** The tag predicate *)

Lemma hasTag_spec (p : Place) (t : jsstring) :
  hasTag p t = true ↔ t ∈ service_tags p.
Proof. unfold hasTag. by rewrite bool_decide_eq_true. Qed.

(** C2: a place passes the tag predicate exactly when no tag is
    selected or every selected tag is among its tags; with tags A, B, C
    it matches the selection A, B and not the selection A, D. *)
Theorem matchTags_every (p : Place) (selected : list jsstring) :
  (matchTags p selected = true
   ↔ selected = [] ∨ ∀ t, t ∈ selected → t ∈ service_tags p)
  ∧ (∀ A B C D, service_tags p = [A; B; C] → D ∉ [A; B; C] →
       matchTags p [A; B] = true ∧ matchTags p [A; D] = false).
Proof.
  assert (Hall : ∀ S, forallb (hasTag p) S = true ↔ ∀ t, t ∈ S → t ∈ service_tags p).
  { intros S. rewrite forallb_forall. setoid_rewrite hasTag_spec.
    by setoid_rewrite list_elem_of_In. }
  split.
  - unfold matchTags. rewrite orb_true_iff, Hall, Nat.eqb_eq.
    split; (intros [Hnil|Hevery]; [|by right]).
    + left. by apply length_zero_iff_nil.
    + left. by rewrite Hnil.
  - intros A B C D Htags HD. unfold matchTags. cbn [length Nat.eqb orb]. split.
    + apply Hall. rewrite Htags. intros t Ht.
      repeat (apply elem_of_cons in Ht as [->|Ht]); [| |by apply elem_of_nil in Ht].
      * by left.
      * right; by left.
    + apply not_true_is_false. rewrite Hall, Htags. intros Hsub.
      apply HD, Hsub. right; by left.
Qed.

Lemma matchTags_every_witness :
  matchTags tagsABC [js "A"; js "B"] = true
  ∧ matchTags tagsABC [js "A"; js "D"] = false.
Proof.
  apply (proj2 (matchTags_every tagsABC []) (js "A") (js "B") (js "C") (js "D"));
    [reflexivity|].
  intros Hin. repeat (apply elem_of_cons in Hin as [[=]|Hin]).
  by apply elem_of_nil in Hin.
Defined.

(** ** Identity keys *)

Lemma placeKey_office_component (p : Place) :
  placeKey p =
  match trim (orElseNull (id p) (orElseNull (place_id p) [])) with
  | c :: pid => (c :: pid) ++ sep ++ officeComponent p ++ sep ++ trim (address p)
  | [] => trim (organization p) ++ sep ++ officeComponent p ++ sep ++ trim (address p)
  end.
Proof.
  unfold placeKey, officeComponent.
  assert (Hid : ∀ s, orElse s [] = s) by (by intros []).
  rewrite !Hid. by destruct (trim (orElseNull _ _)).
Qed.

(** C3, as amended: [placeKey] gives one key per record, and two records
    that agree on everything but the office name get different keys
    exactly when their office components differ: the office names after
    trimming, an empty one standing for the organisation name when an
    upstream identifier is present.  This is the case whenever the
    trimmed office names are non-empty and different. *)
Theorem placeKey_office (p q : Place) :
  agreeExceptOffice p q →
  (p = q → placeKey p = placeKey q)
  ∧ (placeKey p ≠ placeKey q ↔ officeComponent p ≠ officeComponent q)
  ∧ (trim (office p) ≠ [] → trim (office q) ≠ [] →
     trim (office p) ≠ trim (office q) → placeKey p ≠ placeKey q).
Proof.
  intros (Hid & Hpid & Horg & Haddr & _).
  assert (Hiff : placeKey p = placeKey q ↔ officeComponent p = officeComponent q).
  { rewrite !placeKey_office_component, <- Hid, <- Hpid, <- Horg, <- Haddr.
    destruct (trim (orElseNull _ _)) as [|c pid].
    - split; [|by intros ->].
      intros Heq. by apply app_inv_head, app_inv_head, app_inv_tail in Heq.
    - split; [|by intros ->].
      intros Heq. by apply app_inv_head, app_inv_head, app_inv_tail in Heq. }
  split_and!.
  - by intros ->.
  - by rewrite Hiff.
  - intros Hp Hq Hne. rewrite Hiff. unfold officeComponent.
    rewrite <- Hid, <- Hpid.
    destruct (trim (office p)), (trim (office q)); try done;
      by destruct (trim (orElseNull _ _)).
Qed.

Lemma placeKey_office_witness :
  (roomA = roomB → placeKey roomA = placeKey roomB)
  ∧ (placeKey roomA ≠ placeKey roomB ↔ officeComponent roomA ≠ officeComponent roomB)
  ∧ (trim (office roomA) ≠ [] → trim (office roomB) ≠ [] →
     trim (office roomA) ≠ trim (office roomB) → placeKey roomA ≠ placeKey roomB).
Proof. apply placeKey_office. unfold agreeExceptOffice. by repeat split. Defined.

(** C3, as stated, fails: the offices "Room A" and "Room A " differ and
    the two records agree on everything else, upstream id and address
    included, but both get the key of "Room A". *)
Lemma placeKey_office_counterexample :
  ¬ (∀ p q, agreeExceptOffice p q → office p ≠ office q →
            placeKey p ≠ placeKey q).
Proof.
  intros Hclaim. apply (Hclaim roomA roomA').
  - unfold agreeExceptOffice. by repeat split.
  - by intros [=].
  - reflexivity.
Qed.

(** The scenario of the specification: the same upstream id and address,
    offices "Room A" and "Room B": two entries after deduplication. *)
Example rooms_both_kept :
  filteredUnique (filtered [roomA; roomB] [] []) = [roomA; roomB].
Proof. by vm_compute. Qed.

(** The scenario of the specification: the query "library" keeps the
    public library and drops the community centre. *)
Example library_query :
  filtered [ samplePlace None (js "Boston Public Library") [] [] (None, None) [];
             samplePlace None (js "Community Center") [] [] (None, None) [] ]
           (js "library") []
  = [ samplePlace None (js "Boston Public Library") [] [] (None, None) [] ].
Proof. by vm_compute. Qed.

(** ** The viewport restriction *)

(** C5: in list mode, or before the bounds are known, the in-view
    sequence is the deduplicated filtered sequence, whatever the
    bounds. *)
Theorem placesInView_unrestricted {cm : CaseMapping} (st : Dashboard.State) :
  Dashboard.viewMode st = ViewList ∨ Dashboard.mapBounds st = None →
  Dashboard.placesInViewOf st = Dashboard.filteredUniqueOf st.
Proof.
  unfold Dashboard.placesInViewOf, placesInView.
  intros [-> | ->]; [done|]. by destruct (Dashboard.viewMode st).
Qed.

Lemma placesInView_unrestricted_witness :
  Dashboard.placesInViewOf listModeState = Dashboard.filteredUniqueOf listModeState.
Proof. apply placesInView_unrestricted. left. reflexivity. Defined.

(** With numeric coordinates the test is the closed rectangle. *)
Lemma inBounds_numeric (b : Bounds) (p : Place) (la ln : float) :
  lat p = Some la → lng p = Some ln →
  inBounds b p = true
  ↔ isFinite la = true ∧ isFinite ln = true
    ∧ PrimFloat.leb (west b) ln = true ∧ PrimFloat.leb ln (east b) = true
    ∧ PrimFloat.leb (south b) la = true ∧ PrimFloat.leb la (north b) = true.
Proof.
  intros Hla Hln. unfold inBounds, safeNum, geb. rewrite Hla, Hln.
  destruct (isFinite la), (isFinite ln); try (split; [done|by intros (?&?&?)]).
  rewrite !andb_true_iff. tauto.
Qed.

(** Without coordinates the test is the one of the point (0, 0). *)
Lemma inBounds_null (b : Bounds) (p : Place) :
  lat p = None → lng p = None →
  inBounds b p
  = (PrimFloat.leb (west b) 0 && PrimFloat.leb 0 (east b)
     && PrimFloat.leb (south b) 0 && PrimFloat.leb 0 (north b)).
Proof. unfold inBounds. by intros -> ->. Qed.

(** The scenario of the specification. *)
Example boston_in_view :
  placesInView ViewMap (Some bostonBounds)
    [located 42.35 (-71.05); located 42.5 (-71.05)]
  = [located 42.35 (-71.05)].
Proof. by vm_compute. Qed.

(** C6: in map mode with known bounds, a record whose latitude and
    longitude are both [null] must not be in view.  [safeNum] turns
    [null] into 0, so the record counts as lying at (0, 0) and is in view
    as soon as the bounds contain that point. *)
Theorem null_coordinates_in_view {cm : CaseMapping} :
  lat unlocated = None ∧ lng unlocated = None
  ∧ safeNum (lat unlocated) = Some 0%float
  ∧ inBounds aroundOrigin unlocated = true
  ∧ placesInView ViewMap (Some aroundOrigin)
      (filteredUnique (filtered [unlocated] [] [])) = [unlocated].
Proof.
  do 4 (split; [by vm_compute|]).
  assert (Hf : filtered [unlocated] [] [] = [unlocated]).
  { unfold filtered. by rewrite filter_cons_True by (by rewrite matchText_blank). }
  rewrite Hf. by vm_compute.
Qed.

(** ** Category colours and icons *)

(** C7, as amended: the colour and the icon depend on the category only
    through its normalised form, so that "Food-Access", "food_access" and
    "Food Access" get the same colour and icon, and the rules apply in
    priority order: library, then food access (the normalised category
    contains "food_access", is "food", starts with "food_" or ends with
    "_food"), then government, education, community, then the neutral
    default. *)
Theorem category_rules {cm : CaseMapping} (category : jsstring) :
  (categoryColor category, categoryIcon category)
  = firstMatch categoryRules (normalizeCategory category)
  ∧ categoryColor (js "Food-Access") = js "#2563EB"
  ∧ categoryColor (js "food_access") = js "#2563EB"
  ∧ categoryColor (js "Food Access") = js "#2563EB"
  ∧ categoryIcon (js "Food-Access") = iconCannedFood
  ∧ categoryIcon (js "food_access") = iconCannedFood
  ∧ categoryIcon (js "Food Access") = iconCannedFood.
Proof.
  split.
  - unfold categoryColor, categoryIcon.
    cbn [firstMatch categoryRules categoryRulesWith].
    by repeat case_match.
  - split_and!;
      first [ rewrite categoryColor_latin1 by latin1_string
            | rewrite categoryIcon_latin1 by latin1_string ];
      by vm_compute.
Qed.

(** C7, as stated, fails, whichever way its food rule is read.  In
    "Emergency Food Bank" the word "food" is a whole token with a
    separator on each side, but the category gets the neutral colour and
    icon.  "Community Food Access" is not "food" and has "food" neither
    first nor last, but it gets the colour and icon of food access, not
    those of the community rule. *)
Lemma category_rules_counterexample :
  ¬ (∀ category,
       (categoryColor category, categoryIcon category)
       = firstMatch (categoryRulesWith foodAsToken) (normalizeCategory category))
  ∧ ¬ (∀ category,
       (categoryColor category, categoryIcon category)
       = firstMatch (categoryRulesWith foodAsAffix) (normalizeCategory category)).
Proof.
  split; intros Hclaim.
  - specialize (Hclaim (js "Emergency Food Bank")). by vm_compute in Hclaim.
  - specialize (Hclaim (js "Community Food Access")). by vm_compute in Hclaim.
Qed.

(** The two categories give the same for every case mapping. *)
Lemma food_categories_any_mapping {cm : CaseMapping} :
  (categoryColor (js "Emergency Food Bank"), categoryIcon (js "Emergency Food Bank"))
  = neutralStyle
  ∧ (categoryColor (js "Community Food Access"),
     categoryIcon (js "Community Food Access"))
    = (js "#2563EB", iconCannedFood).
Proof.
  rewrite !(categoryColor_latin1 (cm := cm)), !(categoryIcon_latin1 (cm := cm))
    by latin1_string.
  by vm_compute.
Qed.

Example emergency_food_bank :
  normalizeCategory (js "Emergency Food Bank") = js "emergency_food_bank"
  ∧ splitOn isUnderscore (js "emergency_food_bank")
    = [js "emergency"; js "food"; js "bank"]
  ∧ categoryColor (js "Emergency Food Bank") = js "#111827"
  ∧ categoryIcon (js "Emergency Food Bank") = iconPin.
Proof. by vm_compute. Qed.

Example community_food_access :
  normalizeCategory (js "Community Food Access") = js "community_food_access"
  ∧ categoryColor (js "Community Food Access") = js "#2563EB"
  ∧ firstMatch (categoryRulesWith foodAsAffix) (js "community_food_access")
    = (js "#0F766E", iconHandshake).
Proof. by vm_compute. Qed.

(** ** The initial load *)

Import Dashboard.

Lemma loadData_rejected {cm : CaseMapping} (r : Responses) (e : jsstring) :
  fetchFailure r = Some e ↔ loadData r = Rejected e.
Proof.
  unfold fetchFailure, loadData, bindSettled.
  destruct r as [[[ps|e1] [ts|e2]]|e0]; cbn; split; congruence.
Qed.

(** The counts line of the header is longer than "Loading…". *)
Lemma counts_not_loading (n m : jsstring) (middle : jsstring) :
  (8 < length middle)%nat →
  n ++ middle ++ [bullet] ++ js " " ++ m ++ js " total" ≠ loadingText.
Proof.
  intros Hlen Heq. apply (f_equal length) in Heq.
  rewrite !length_app in Heq. cbn in Heq. lia.
Qed.

(** C8, as amended: when the initial fetch fails the error is logged and
    the loading flag is cleared, whatever the state of the page by then,
    so that the header does not read "Loading…"; nothing of the data is
    stored, so that a page without places shows the counts of an empty
    dataset, in view in map mode and filtered in list mode. *)
Theorem load_failure {cm : CaseMapping}
    (r : Responses) (e : jsstring) (st : State) :
  fetchFailure r = Some e →
  loading (load r st) = false
  ∧ console (load r st) = console st ++ [e]
  ∧ places (load r st) = places st
  ∧ tagGuide (load r st) = tagGuide st
  ∧ headerText (load r st) ≠ loadingText
  ∧ (places st = [] →
     headerText (load r st)
     = match viewMode st with
       | ViewMap => js "0 in view " ++ [bullet] ++ js " 0 total"
       | ViewList => js "0 filtered " ++ [bullet] ++ js " 0 total"
       end).
Proof.
  intros Hfail%loadData_rejected. unfold load. rewrite Hfail.
  split_and!; try done.
  - unfold headerText. cbn [loading setLoading consoleError].
    destruct (viewMode _); apply counts_not_loading; vm_compute; lia.
  - intros Hps. unfold headerText, placesInViewOf, filteredUniqueOf, filteredOf.
    cbn [loading places viewMode query selectedTags mapBounds setLoading consoleError].
    rewrite Hps. by destruct (viewMode st), (mapBounds st).
Qed.

Lemma load_failure_witness :
  loading (load (Rejected (js "Failed to fetch")) pendingListState) = false
  ∧ console (load (Rejected (js "Failed to fetch")) pendingListState)
    = [js "Failed to fetch"]
  ∧ places (load (Rejected (js "Failed to fetch")) pendingListState) = []
  ∧ tagGuide (load (Rejected (js "Failed to fetch")) pendingListState) = []
  ∧ headerText (load (Rejected (js "Failed to fetch")) pendingListState)
    ≠ loadingText
  ∧ (places pendingListState = [] →
     headerText (load (Rejected (js "Failed to fetch")) pendingListState)
     = js "0 filtered " ++ [bullet] ++ js " 0 total").
Proof.
  apply (load_failure (Rejected (js "Failed to fetch")) (js "Failed to fetch")
           pendingListState).
  reflexivity.
Defined.

(** The header after a failed load, on the page as it starts and on a
    page switched to the list in the meantime. *)
Example failed_load_headers :
  headerText (load (Rejected (js "Failed to fetch")) initialState)
  = js "0 in view " ++ [bullet] ++ js " 0 total"
  ∧ headerText (load (Rejected (js "Failed to fetch")) pendingListState)
    = js "0 filtered " ++ [bullet] ++ js " 0 total".
Proof. by vm_compute. Qed.

(** C8, as stated, fails: after a failed fetch the loading flag is not
    set any more and the header does not read "Loading…". *)
Lemma load_failure_counterexample :
  ¬ (∀ r e, fetchFailure r = Some e →
       loading (load r initialState) = true
       ∧ headerText (load r initialState) = loadingText).
Proof.
  intros Hclaim.
  destruct (Hclaim (Rejected (js "Failed to fetch")) _ eq_refl) as [Hloading _].
  discriminate Hloading.
Qed.

(** When both sources answer, the canonicalised places and the tag
    guide are stored and the loading flag is cleared. *)
Lemma load_success {cm : CaseMapping}
    (ps : list Place) (ts : list TagGuide) (st : State) :
  let st' := load (Fulfilled (Fulfilled ps, Fulfilled ts)) st in
  loading st' = false
  ∧ places st' = canonicalizePlace (buildTables ts) <$> ps
  ∧ tagGuide st' = ts
  ∧ console st' = console st.
Proof. done. Qed.

(** ** Tag canonicalisation *)

Section Canonicalisation.

Implicit Types (m : gmap jsstring jsstring) (k v : jsstring)
  (tg : TagGuide) (tagsData : list TagGuide).

Lemma orElse_nil_r (s : jsstring) : orElse s [] = s.
Proof. by destruct s. Qed.

Lemma replaceEach_nbsp_twice (s : jsstring) :
  replaceEach isNbsp (js " ") (replaceEach isNbsp (js " ") s)
  = replaceEach isNbsp (js " ") s.
Proof.
  unfold replaceEach. induction s as [|c s IH]; [done|].
  cbn [mbind list_bind]. rewrite bind_app, IH. f_equal.
  destruct (isNbsp c) eqn:Hc; cbn; [done|]. by rewrite Hc.
Qed.

(** The key of a cleaned string is the key of the string. *)
Lemma normalizeTagKey_cleaned {cm : CaseMapping} (raw : jsstring) :
  normalizeTagKey (replaceEach isNbsp (js " ") (orElse raw [])) = normalizeTagKey raw.
Proof.
  unfold normalizeTagKey. by rewrite !orElse_nil_r, replaceEach_nbsp_twice.
Qed.

Lemma setAll_lookup keys v m k w :
  setAll keys v m !! k = Some w → (k ∈ keys ∧ w = v) ∨ m !! k = Some w.
Proof.
  unfold setAll. revert m. induction keys as [|k' keys IH]; intros m; cbn.
  - by right.
  - intros [[Hin ->]|Hm]%IH.
    + left. split; [by right|done].
    + destruct (decide (k' = k)) as [->|Hne].
      * rewrite lookup_insert_eq in Hm. injection Hm as <-. left. split; [by left|done].
      * rewrite lookup_insert_ne in Hm by done. by right.
Qed.

Lemma setAll_is_Some keys v m k :
  k ∈ keys ∨ is_Some (m !! k) → is_Some (setAll keys v m !! k).
Proof.
  unfold setAll. revert m. induction keys as [|k' keys IH]; intros m; cbn.
  - intros [Hin|Hm]; [by apply elem_of_nil in Hin | done].
  - intros Hk. apply IH. destruct (decide (k' = k)) as [->|Hne].
    + right. rewrite lookup_insert_eq. by eexists.
    + destruct Hk as [Hin|Hm].
      * left. apply elem_of_cons in Hin as [->|Hin]; done.
      * right. by rewrite lookup_insert_ne.
Qed.

Lemma buildTables_snoc {cm : CaseMapping} tagsData tg :
  buildTables (tagsData ++ [tg]) = addTagGuide (buildTables tagsData) tg.
Proof. unfold buildTables. by rewrite foldl_app. Qed.

(** Every value of [displayToTag] is the identifier of an entry that
    registered the key with its display name. *)
Lemma displayToTag_lookup {cm : CaseMapping} tagsData k v :
  displayToTag (buildTables tagsData) !! k = Some v →
  ∃ tg, tg ∈ tagsData ∧ canonicalOf tg = v ∧ v ≠ [] ∧ k ∈ displayKeys tg.
Proof.
  induction tagsData as [|tg tagsData IH] using rev_ind; [done|].
  rewrite buildTables_snoc. unfold addTagGuide.
  destruct (canonicalOf tg) as [|c t] eqn:Hcan.
  - intros (tg' & ? & ?)%IH. exists tg'. split; [|done].
    apply elem_of_app. by left.
  - cbn [displayToTag]. intros [[Hk ->]|Hm]%setAll_lookup.
    + exists tg. split_and!; try done. apply elem_of_app. right. by left.
    + destruct (IH Hm) as (tg' & ? & ?). exists tg'. split; [|done].
      apply elem_of_app. by left.
Qed.

(** Every value of [tagLowerToTag] is the identifier of an entry that
    registered the key as a variant of that identifier. *)
Lemma tagLowerToTag_lookup {cm : CaseMapping} tagsData k v :
  tagLowerToTag (buildTables tagsData) !! k = Some v →
  ∃ tg, tg ∈ tagsData ∧ canonicalOf tg = v ∧ v ≠ [] ∧ k ∈ tagKeys v.
Proof.
  induction tagsData as [|tg tagsData IH] using rev_ind; [done|].
  rewrite buildTables_snoc. unfold addTagGuide.
  destruct (canonicalOf tg) as [|c t] eqn:Hcan.
  - intros (tg' & ? & ?)%IH. exists tg'. split; [|done].
    apply elem_of_app. by left.
  - cbn [tagLowerToTag]. intros [[Hk ->]|Hm]%setAll_lookup.
    + exists tg. split_and!; try done. apply elem_of_app. right. by left.
    + destruct (IH Hm) as (tg' & ? & ?). exists tg'. split; [|done].
      apply elem_of_app. by left.
Qed.

(** The key of an identifier of the guide is in [tagLowerToTag]. *)
Lemma tagLowerToTag_registered {cm : CaseMapping} tagsData tg :
  tg ∈ tagsData → canonicalOf tg ≠ [] →
  is_Some (tagLowerToTag (buildTables tagsData) !! normalizeTagKey (canonicalOf tg)).
Proof.
  induction tagsData as [|tg' tagsData IH] using rev_ind.
  - by intros ?%elem_of_nil.
  - intros Hin Hcan. rewrite buildTables_snoc. unfold addTagGuide.
    apply elem_of_app in Hin as [Hin|Hin%list_elem_of_singleton]; [|subst tg'].
    + destruct (canonicalOf tg'); [by apply IH|].
      cbn [tagLowerToTag]. apply setAll_is_Some. right. by apply IH.
    + destruct (canonicalOf tg) eqn:Heq; [done|].
      cbn [tagLowerToTag]. apply setAll_is_Some. left. rewrite <- Heq. by left.
Qed.

Lemma normalizeTagKey_nil {cm : CaseMapping} : normalizeTagKey [] = [].
Proof. unfold normalizeTagKey. cbn. by rewrite toLowerCase_nil. Qed.

End Canonicalisation.

(** C4, as amended: canonicalising the identifier of a guide entry
    returns it unchanged when its normalised key is not empty and every
    entry that registers this key, through its display name or through
    its identifier, has that same identifier. *)
Theorem canonicalizeTag_canonical {cm : CaseMapping}
    (tagsData : list TagGuide) (tg : TagGuide) :
  tg ∈ tagsData →
  normalizeTagKey (canonicalOf tg) ≠ [] →
  (∀ tg', tg' ∈ tagsData → registers tg' (normalizeTagKey (canonicalOf tg)) →
          canonicalOf tg' = canonicalOf tg) →
  canonicalizeTag (buildTables tagsData) (canonicalOf tg) = canonicalOf tg.
Proof.
  intros Hin Hkey Hsame.
  assert (Hcan : canonicalOf tg ≠ [])
    by (by intros Heq; rewrite Heq, normalizeTagKey_nil in Hkey).
  unfold canonicalizeTag. rewrite normalizeTagKey_cleaned.
  destruct (normalizeTagKey (canonicalOf tg)) as [|c key] eqn:Hk; [done|].
  unfold getOr.
  destruct (displayToTag (buildTables tagsData) !! (c :: key)) as [v|] eqn:Hd.
  - apply displayToTag_lookup in Hd as (tg' & Hin' & <- & Hv & Hkeys).
    assert (Heq : canonicalOf tg' = canonicalOf tg).
    { apply Hsame; [done|]. split; [done|]. apply elem_of_app. by left. }
    rewrite Heq. by destruct (canonicalOf tg).
  - destruct (tagLowerToTag_registered tagsData tg Hin Hcan) as [v Hv].
    rewrite Hk in Hv. rewrite Hv.
    apply tagLowerToTag_lookup in Hv as (tg' & Hin' & <- & Hv & Hkeys).
    assert (Heq : canonicalOf tg' = canonicalOf tg).
    { apply Hsame; [done|]. split; [done|]. apply elem_of_app. by right. }
    rewrite Heq. by destruct (canonicalOf tg).
Qed.

Lemma canonicalizeTag_canonical_witness :
  canonicalizeTag (buildTables sampleGuide) (js "esol_classes") = js "esol_classes".
Proof.
  apply (canonicalizeTag_canonical sampleGuide (guide "esol_classes" "ESOL Classes")).
  - by left.
  - by vm_compute.
  - intros tg' Hin [_ Hreg].
    apply elem_of_cons in Hin as [->|Hin]; [reflexivity|].
    apply list_elem_of_singleton in Hin as ->. exfalso.
    vm_compute in Hreg.
    repeat (apply elem_of_cons in Hreg as [[=]|Hreg]).
    by apply elem_of_nil in Hreg.
Defined.

(** C4, as stated, fails, even for a guide whose identifiers are
    distinct, trimmed and in lower case: the display-name table is read
    first, and there "esol" is the display name of the entry
    "english". *)
Lemma canonicalizeTag_canonical_counterexample :
  ¬ (∀ tagsData tg,
       NoDup (tag <$> tagsData) → tg ∈ tagsData →
       canonicalOf tg = tag tg → tag tg ≠ [] →
       canonicalizeTag (buildTables tagsData) (tag tg) = tag tg).
Proof.
  intros Hclaim.
  specialize (Hclaim crossedGuide (guide "esol" "English")).
  assert (Hget : canonicalizeTag (buildTables crossedGuide) (js "esol") = js "english")
    by (by vm_compute).
  cbn [tag guide] in Hclaim. rewrite Hget in Hclaim.
  enough (Heq : js "english" = js "esol") by discriminate Heq.
  apply Hclaim; [|by left|done|done].
  cbn. repeat constructor.
  - intros Hin. apply list_elem_of_singleton in Hin. discriminate Hin.
  - by intros ?%elem_of_nil.
Qed.

(** The crossed guide gives the same for every case mapping. *)
Lemma crossed_guide_any_mapping {cm : CaseMapping} :
  canonicalizeTag (buildTables crossedGuide) (js "esol") = js "english".
Proof.
  rewrite canonicalizeTag_latin1; [by vm_compute|latin1_guide|latin1_string].
Qed.

(** The scenario of the specification: a place tagged with the display
    name "ESOL Classes" ends up with the identifier [esol_classes]. *)
Example esol_classes_canonicalised :
  canonicalizeTags (buildTables sampleGuide) [js "ESOL Classes"]
  = [js "esol_classes"].
Proof. by vm_compute. Qed.

(** ** Order facts on binary64 values *)

Section FloatOrder.

Implicit Types (a b c : spec_float) (x y z : float).

Lemma SFcompare_swap a b : SFcompare b a = CompOpp <$> SFcompare a b.
Proof.
  destruct a as [sa|sa| |sa ma ea], b as [sb|sb| |sb mb eb]; cbn;
    try by (try destruct sa; try destruct sb).
  destruct sa, sb; cbn; try done.
  all: rewrite (Z.compare_antisym ea eb); destruct (ea ?= eb)%Z; cbn; try done.
  all: f_equal; rewrite ?Pos.compare_cont_antisym; cbn; by rewrite ?Pos.compare_cont_antisym.
Qed.

Lemma SFcompare_Eq_finite s m e b :
  SFcompare (S754_finite s m e) b = Some Eq → b = S754_finite s m e.
Proof.
  destruct b as [sb|sb| |sb mb eb]; cbn; try by (try destruct s; try destruct sb).
  destruct s, sb; try done.
  all: destruct (e ?= eb)%Z eqn:He; try done.
  all: apply Z.compare_eq_iff in He as ->.
  all: intros [= Hm]; f_equal; symmetry.
  - apply Pos.compare_eq_iff. unfold Pos.compare.
    by destruct (Pos.compare_cont Eq m mb).
  - by apply Pos.compare_eq_iff.
Qed.

Lemma SFltb_trans a b c : SFltb a b = true → SFltb b c = true → SFltb a c = true.
Proof.
  unfold SFltb.
  destruct a as [sa|sa| |sa ma ea], b as [sb|sb| |sb mb eb],
    c as [sc|sc| |sc mc ec]; cbn;
    try by (try destruct sa; try destruct sb; try destruct sc).
  destruct sa, sb, sc; cbn; try done.
  all: destruct (Z.compare_spec ea eb), (Z.compare_spec eb ec),
         (Z.compare_spec ea ec); try done; try lia.
  all: subst; rewrite ?Pos.compare_cont_spec; cbn;
       fold (Pos.compare ma mb) (Pos.compare mb mc) (Pos.compare ma mc);
       destruct (Pos.compare_spec ma mb), (Pos.compare_spec mb mc),
         (Pos.compare_spec ma mc); cbn; try done; try lia.
Qed.

Lemma ltb_leb x y : (x <? y)%float = true → (x <=? y)%float = true.
Proof.
  rewrite ltb_spec, leb_spec. unfold SFltb, SFleb.
  by destruct (SFcompare _ _) as [[]|].
Qed.

Lemma ltb_asym x y : (x <? y)%float = true → (y <? x)%float = false.
Proof.
  rewrite !ltb_spec. unfold SFltb. rewrite (SFcompare_swap (Prim2SF x)).
  by destruct (SFcompare _ _) as [[]|].
Qed.

Lemma ltb_trans x y z :
  (x <? y)%float = true → (y <? z)%float = true → (x <? z)%float = true.
Proof. rewrite !ltb_spec. apply SFltb_trans. Qed.

Lemma SFcompare_None a b :
  SFcompare a b = None → a = S754_nan ∨ b = S754_nan.
Proof.
  destruct a as [sa|sa| |sa ma ea], b as [sb|sb| |sb mb eb]; cbn; auto;
    by (try destruct sa; try destruct sb).
Qed.

Lemma Prim2SF_cases x :
  Prim2SF x = S754_nan ∧ is_nan x = true
  ∨ is_nan x = false
    ∧ ((∃ s, Prim2SF x = S754_zero s)
       ∨ (∃ s, Prim2SF x = S754_infinity s) ∧ is_infinity x = true
       ∨ (∃ s m e, Prim2SF x = S754_finite s m e)).
Proof.
  unfold Prim2SF. destruct (is_nan x); [by left|]. right. split; [done|].
  destruct (is_zero x); [left; by eexists|].
  destruct (is_infinity x); [right; left; split; [by eexists|done]|].
  destruct (Z.frexp x) as [r exp].
  destruct (shr_fexp _ _ _ _ _) as [shr e'].
  destruct (shr_m shr); [left|right; right|left]; by repeat eexists.
Qed.

Lemma is_nan_Prim2SF x : is_nan x = true ↔ Prim2SF x = S754_nan.
Proof.
  destruct (Prim2SF_cases x) as [[-> ->]|[-> Hx]]; [done|].
  split; [done|]. intros Hnan. rewrite Hnan in Hx.
  by destruct Hx as [[? ?]|[[[? ?] _]|(? & ? & ? & ?)]].
Qed.

(** A finite number is a zero or has a mantissa and an exponent. *)
Lemma isFinite_Prim2SF x :
  isFinite x = true →
  (∃ s, Prim2SF x = S754_zero s) ∨ (∃ s m e, Prim2SF x = S754_finite s m e).
Proof.
  unfold isFinite, is_finite.
  destruct (Prim2SF_cases x) as [[_ ->]|[-> [Hx|[[_ ->]|Hx]]]]; cbn; try done;
    intros _; [by left|by right].
Qed.

Lemma isFinite_not_nan x : isFinite x = true → is_nan x = false.
Proof. unfold isFinite, is_finite. by destruct (is_nan x). Qed.

(** *** Sums and differences of finite numbers are not NaN *)

Lemma shr_1_nonneg mrs : (0 ≤ shr_m mrs)%Z → (0 ≤ shr_m (shr_1 mrs))%Z.
Proof. destruct mrs as [[|[p|p|]|p] r s]; cbn; lia. Qed.

Lemma iter_shr_1_nonneg p mrs :
  (0 ≤ shr_m mrs)%Z → (0 ≤ shr_m (SpecFloat.iter_pos shr_1 p mrs))%Z.
Proof.
  revert mrs. induction p as [p IH|p IH|]; intros mrs Hm; cbn.
  - by apply IH, IH, shr_1_nonneg.
  - by apply IH, IH.
  - by apply shr_1_nonneg.
Qed.

Lemma shr_fexp_nonneg m e l :
  (0 ≤ m)%Z → (0 ≤ shr_m (shr_fexp prec emax m e l).1)%Z.
Proof.
  intros Hm. unfold shr_fexp, shr.
  assert (0 ≤ shr_m (shr_record_of_loc m l))%Z by (by destruct l as [|[]]).
  destruct (_ - e)%Z; cbn [fst]; try done. by apply iter_shr_1_nonneg.
Qed.

Lemma round_nearest_even_nonneg m l :
  (0 ≤ m)%Z → (0 ≤ round_nearest_even m l)%Z.
Proof. destruct l as [|[]]; cbn; try case_match; lia. Qed.

Lemma binary_round_aux_not_nan sx mx ex lx :
  (0 ≤ mx)%Z → binary_round_aux prec emax sx mx ex lx ≠ S754_nan.
Proof.
  intros Hm. unfold binary_round_aux.
  pose proof (shr_fexp_nonneg mx ex lx Hm) as H1.
  destruct (shr_fexp prec emax mx ex lx) as [mrs' e']. cbn [fst] in H1.
  pose proof (shr_fexp_nonneg _ e' loc_Exact
                (round_nearest_even_nonneg _ (loc_of_shr_record mrs') H1)) as H2.
  destruct (shr_fexp prec emax _ e' loc_Exact) as [mrs'' e'']. cbn [fst] in H2.
  destruct (shr_m mrs''); [done| |lia]. by case_match.
Qed.

Lemma binary_normalize_not_nan m e szero :
  binary_normalize prec emax m e szero ≠ S754_nan.
Proof.
  destruct m as [|p|p]; cbn [binary_normalize]; [done| |];
    unfold binary_round; destruct (shl_align _ _ _) as [mz ez];
    by apply binary_round_aux_not_nan.
Qed.

Lemma SF64add_not_nan a b :
  finiteClass a → b ≠ S754_nan → SF64add a b ≠ S754_nan.
Proof.
  intros [[sa ->]|(sa & ma & ea & ->)] Hb;
    destruct b as [sb|sb| |sb mb eb]; cbn; try done.
  - by destruct sa, sb.
  - apply binary_normalize_not_nan.
Qed.

Lemma SF64sub_not_nan a b :
  finiteClass a → finiteClass b → SF64sub a b ≠ S754_nan.
Proof.
  intros [[sa ->]|(sa & ma & ea & ->)] [[sb ->]|(sb & mb & eb & ->)];
    cbn; try done.
  - by destruct sa, sb.
  - apply binary_normalize_not_nan.
Qed.

Lemma not_nan_Prim2SF x : is_nan x = false ↔ Prim2SF x ≠ S754_nan.
Proof. rewrite <- is_nan_Prim2SF. by destruct (is_nan x). Qed.

Lemma add_not_nan x y :
  isFinite x = true → is_nan y = false → is_nan (x + y) = false.
Proof.
  intros Hx%isFinite_Prim2SF Hy%not_nan_Prim2SF.
  apply not_nan_Prim2SF. rewrite add_spec. by apply SF64add_not_nan.
Qed.

Lemma sub_not_nan x y :
  isFinite x = true → isFinite y = true → is_nan (x - y) = false.
Proof.
  intros Hx%isFinite_Prim2SF Hy%isFinite_Prim2SF.
  apply not_nan_Prim2SF. rewrite sub_spec. by apply SF64sub_not_nan.
Qed.

(** A number that is neither below nor above a finite non-zero one is
    that number. *)
Lemma not_ltb_eq x y s m e :
  Prim2SF x = S754_finite s m e → is_nan y = false →
  (x <? y)%float = false → (y <? x)%float = false → y = x.
Proof.
  intros Hx Hy%not_nan_Prim2SF. rewrite !ltb_spec. unfold SFltb.
  rewrite (SFcompare_swap (Prim2SF x)).
  destruct (SFcompare (Prim2SF x) (Prim2SF y)) as [[]|] eqn:Hcmp; try done.
  - intros _ _. rewrite Hx in Hcmp. apply SFcompare_Eq_finite in Hcmp.
    rewrite <- (SF2Prim_Prim2SF y), <- (SF2Prim_Prim2SF x). congruence.
  - apply SFcompare_None in Hcmp as [Hnan|Hnan]; [|done]. by rewrite Hx in Hnan.
Qed.

Lemma is_infinity_Prim2SF x :
  is_infinity x = match Prim2SF x with S754_infinity _ => true | _ => false end.
Proof.
  unfold is_infinity. rewrite FloatAxioms.eqb_spec, abs_spec.
  change (Prim2SF infinity) with (S754_infinity false).
  by destruct (Prim2SF x) as [s|s| |s m e].
Qed.

Lemma isFinite_finiteClass x : isFinite x = true ↔ finiteClass (Prim2SF x).
Proof.
  split; [apply isFinite_Prim2SF|].
  unfold isFinite, is_finite. rewrite is_infinity_Prim2SF.
  intros [[s Hx]|(s & m & e & Hx)]; rewrite Hx;
    destruct (is_nan x) eqn:Hnan; try done;
    apply is_nan_Prim2SF in Hnan; congruence.
Qed.

(** *** [Math.max] and [Math.min] against a non-zero constant *)

Lemma mathMin_const x y :
  is_nan x = false → is_zero x = false → is_nan y = false →
  mathMin x y = if (y <? x)%float then y else x.
Proof. unfold mathMin. by intros -> -> ->. Qed.

Lemma mathMax_const x y :
  is_nan x = false → is_zero x = false → is_nan y = false →
  mathMax x y = if (x <? y)%float then y else x.
Proof. unfold mathMax. by intros -> -> ->. Qed.

End FloatOrder.

(** ** The sidebar width *)

Import Sidebar.

Lemma inRange_isFinite (w : float) : inRange w = true → isFinite w = true.
Proof.
  unfold inRange. rewrite andb_true_iff, !leb_spec. intros [Hlo Hhi].
  apply isFinite_finiteClass. unfold finiteClass.
  set (lo := Prim2SF 260) in Hlo. vm_compute in lo. subst lo.
  set (hi := Prim2SF 520) in Hhi. vm_compute in hi. subst hi.
  destruct (Prim2SF w) as [s|s| |s m e]; [by eauto| |done|by eauto 10].
  by destruct s.
Qed.

(** The clamp of [onMove] lands in the range, whatever it is given
    short of NaN. *)
Lemma clamp_inRange (y : float) :
  is_nan y = false → inRange (mathMax 260 (mathMin 520 y)) = true.
Proof.
  intros Hy. rewrite (mathMin_const 520 y) by done.
  destruct (y <? 520)%float eqn:Hhi.
  - rewrite (mathMax_const 260 y) by done.
    destruct (260 <? y)%float eqn:Hlo; [|done].
    unfold inRange. by rewrite !ltb_leb.
  - done.
Qed.

Section SidebarInvariant.

Variable toNumber : jsstring → float.
Variable numberToString : float → jsstring.

Lemma initialSidebarWidth_inRange hasWindow item :
  inRange (initialSidebarWidth toNumber hasWindow item) = true.
Proof.
  unfold initialSidebarWidth. destruct hasWindow; [|reflexivity].
  destruct (_ && _ && _) eqn:Hcond; [|reflexivity].
  apply andb_true_iff in Hcond as [[_ Hlo]%andb_true_iff Hhi].
  unfold inRange, geb in *. by rewrite Hlo, Hhi.
Qed.

Lemma mount_ok item : okState numberToString (mount toNumber numberToString item).
Proof.
  unfold okState, mount, persist.
  cbn [sidebarWidth resizeState storedWidth startX startWidth].
  split_and!; [apply initialSidebarWidth_inRange|reflexivity..].
Qed.

Lemma onMove_width clientX st :
  dragging (resizeState st) = true →
  sidebarWidth (onMove numberToString clientX st)
  = mathMax 260 (mathMin 520
      (startWidth (resizeState st) + (clientX - startX (resizeState st)))).
Proof.
  unfold onMove, setSidebarWidth. intros ->. cbn [negb].
  destruct (Leibniz.eqb _ _) eqn:Heq; [|done].
  by apply Leibniz.eqb_spec in Heq.
Qed.

Lemma step_ok st ev : finiteEvent ev → okState numberToString st →
  okState numberToString (step numberToString st ev).
Proof.
  intros Hev (Hw & Hx & Hsw & Hstored). destruct ev as [x|x|]; cbn.
  - done.
  - unfold onMove. destruct (dragging (resizeState st)) eqn:Hdrag; cbn [negb]; [|done].
    unfold setSidebarWidth. destruct (Leibniz.eqb _ _); [done|].
    unfold okState, persist. cbn. split_and!; try done.
    apply clamp_inRange, add_not_nan; [by apply inRange_isFinite|].
    by apply sub_not_nan.
  - done.
Qed.

Lemma run_ok item evs :
  Forall finiteEvent evs →
  okState numberToString (run toNumber numberToString item evs).
Proof.
  unfold run. generalize (mount_ok item).
  generalize (mount toNumber numberToString item) as st.
  induction evs as [|ev evs IH]; intros st Hst Hevs; [done|].
  apply Forall_cons in Hevs as [Hev Hevs]. cbn. apply IH; [|done].
  by apply step_ok.
Qed.

End SidebarInvariant.

(** C9: the sidebar width stays between 260 and 520 through every drag;
    a stored value that is absent, not a number or out of the range gives
    360 at start; a drag update applies the new width clamped into the
    range; and the stored value is the current width after every
    change. *)
Theorem sidebarWidth_clamped (toNumber : jsstring → float)
    (numberToString : float → jsstring) (item : option jsstring)
    (evs : list Event) :
  Forall finiteEvent evs →
  let st := run toNumber numberToString item evs in
  let v := numberOfItem toNumber item in
  inRange (sidebarWidth st) = true
  ∧ storedWidth st = Some (numberToString (sidebarWidth st))
  ∧ initialSidebarWidth toNumber true item
    = (if isFinite v && inRange v then v else 360%float)
  ∧ (item = None → initialSidebarWidth toNumber true item = 360%float)
  ∧ (∀ clientX,
       dragging (resizeState st) = true →
       sidebarWidth (onMove numberToString clientX st)
       = mathMax 260 (mathMin 520
           (startWidth (resizeState st) + (clientX - startX (resizeState st))))).
Proof.
  intros Hevs st v.
  destruct (run_ok toNumber numberToString item evs Hevs) as (Hw & _ & _ & Hstored).
  split_and!; try done.
  - unfold initialSidebarWidth, inRange, geb. fold v. by rewrite andb_assoc.
  - by intros ->.
  - intros clientX. apply onMove_width.
Qed.

Lemma sidebarWidth_clamped_witness :
  let st := run sampleToNumber sampleToString (Some (js "300")) sampleDrag in
  let v := numberOfItem sampleToNumber (Some (js "300")) in
  inRange (sidebarWidth st) = true
  ∧ storedWidth st = Some (sampleToString (sidebarWidth st))
  ∧ initialSidebarWidth sampleToNumber true (Some (js "300"))
    = (if isFinite v && inRange v then v else 360%float)
  ∧ (Some (js "300") = None →
     initialSidebarWidth sampleToNumber true (Some (js "300")) = 360%float)
  ∧ (∀ clientX,
       dragging (resizeState st) = true →
       sidebarWidth (onMove sampleToString clientX st)
       = mathMax 260 (mathMin 520
           (startWidth (resizeState st) + (clientX - startX (resizeState st))))).
Proof.
  apply sidebarWidth_clamped. unfold sampleDrag.
  repeat constructor; by vm_compute.
Defined.

(** The sample drag: from a stored 300 the width goes to 340, then stops
    at 520, and each value is written back. *)
Example sample_drag_widths :
  sidebarWidth (run sampleToNumber sampleToString (Some (js "300")) sampleDrag)
    = 520%float
  ∧ storedWidth (run sampleToNumber sampleToString (Some (js "300")) sampleDrag)
    = Some (js "520")
  ∧ sidebarWidth (run sampleToNumber sampleToString (Some (js "300"))
                    (take 2 sampleDrag)) = 340%float
  ∧ sidebarWidth (run sampleToNumber sampleToString (Some (js "9000")) [])
    = 360%float
  ∧ sidebarWidth (run sampleToNumber sampleToString (Some (js "wide")) [])
    = 360%float.
Proof. by vm_compute. Qed.

(** ** The width of the photo route *)

Import Photo.

Lemma clamp_50_1600 (x : float) :
  is_nan x = false →
  mathMin 1600 (mathMax 50 x) = clampInto 50 1600 x
  ∧ (50 <=? mathMin 1600 (mathMax 50 x))%float = true
  ∧ (mathMin 1600 (mathMax 50 x) <=? 1600)%float = true.
Proof.
  intros Hx. unfold clampInto.
  assert (H50 : ∃ m e, Prim2SF 50 = S754_finite false m e)
    by (eexists _, _; by vm_compute).
  assert (H1600 : ∃ m e, Prim2SF 1600 = S754_finite false m e)
    by (eexists _, _; by vm_compute).
  destruct H50 as (m1 & e1 & H50), H1600 as (m2 & e2 & H1600).
  rewrite (mathMax_const 50 x) by done.
  destruct (50 <? x)%float eqn:Hlo.
  - rewrite (ltb_asym _ _ Hlo), (mathMin_const 1600 x) by done.
    destruct (x <? 1600)%float eqn:Hhi.
    + rewrite (ltb_asym _ _ Hhi). by rewrite !ltb_leb.
    + destruct (1600 <? x)%float eqn:Hhi'; [done|].
      by rewrite (not_ltb_eq 1600 x _ _ _ H1600 Hx Hhi' Hhi).
  - rewrite (mathMin_const 1600 50) by done.
    change (50 <? 1600)%float with true. cbn match.
    destruct (x <? 50)%float eqn:Hlo'; [done|].
    by rewrite (not_ltb_eq 50 x _ _ _ H50 Hx Hlo Hlo').
Qed.

(** C10: the width sent upstream is 400 when [w] is absent or does not
    parse to a finite integer, and the parsed value clamped into the
    range from 50 to 1600 otherwise. *)
Theorem effectiveWidth_clamped (params : list (jsstring * jsstring)) :
  let w := searchParamsGet params (js "w") in
  (w = None → effectiveWidth params = 400%float)
  ∧ (∀ s, w = Some s → isFinite (parseInt10 s) = false →
          effectiveWidth params = 400%float)
  ∧ (∀ s, w = Some s → isFinite (parseInt10 s) = true →
          effectiveWidth params = clampInto 50 1600 (parseInt10 s))
  ∧ (50 <=? effectiveWidth params)%float = true
  ∧ (effectiveWidth params <=? 1600)%float = true.
Proof.
  intros w. unfold effectiveWidth. fold w.
  assert (Hdefault : orElseNull None (js "400") = js "400") by done.
  assert (Hempty : orElseNull (Some []) (js "400") = js "400") by done.
  assert (H400 : parseInt10 (js "400") = 400%float) by (by vm_compute).
  assert (Hsome : ∀ s, parseInt10 s ≠ nan → orElseNull (Some s) (js "400") = s).
  { intros [|c s]; [by vm_compute|done]. }
  split_and!.
  - intros ->. by rewrite Hdefault, H400.
  - intros s -> Hinf. destruct s as [|c s]; [by rewrite Hempty, H400|].
    cbn [orElseNull]. by rewrite Hinf.
  - intros s -> Hfin. rewrite Hsome by (by intros Heq; rewrite Heq in Hfin).
    rewrite Hfin. by apply clamp_50_1600, isFinite_not_nan.
  - destruct (isFinite _) eqn:Hfin; [|done].
    by apply clamp_50_1600, isFinite_not_nan.
  - destruct (isFinite _) eqn:Hfin; [|done].
    by apply clamp_50_1600, isFinite_not_nan.
Qed.

Lemma effectiveWidth_clamped_witness :
  effectiveWidth [(js "ref", js "abc"); (js "w", js "3000")]
  = clampInto 50 1600 (parseInt10 (js "3000")).
Proof.
  apply (proj1 (proj2 (proj2
           (effectiveWidth_clamped [(js "ref", js "abc"); (js "w", js "3000")])))).
  - reflexivity.
  - by vm_compute.
Defined.

Example widths :
  effectiveWidth [] = 400%float
  ∧ effectiveWidth [(js "w", js "")] = 400%float
  ∧ effectiveWidth [(js "w", js "wide")] = 400%float
  ∧ effectiveWidth [(js "w", js "300")] = 300%float
  ∧ effectiveWidth [(js "w", js "12")] = 50%float
  ∧ effectiveWidth [(js "w", js "-7")] = 50%float
  ∧ effectiveWidth [(js "w", js "3000")] = 1600%float
  ∧ effectiveWidth [(js "w", js " 640px")] = 640%float
  ∧ effectiveWidth [(js "w", repeat 57 400)] = 400%float.
Proof. by vm_compute. Qed.

(** * Properties of the rest of the dashboard *)

(** ** The filter engine *)

Section FilterEngine.

Implicit Types (p : Place) (l places : list Place) (S : list jsstring)
  (t query : jsstring).

Lemma filtered_sublist {cm : CaseMapping}
    places query S : filtered places query S `sublist_of` places.
Proof. apply sublist_filter. Qed.

Lemma placesInView_sublist mode bounds l : placesInView mode bounds l `sublist_of` l.
Proof.
  unfold placesInView. destruct mode, bounds; try done. apply sublist_filter.
Qed.

Lemma matchTags_snoc p S t :
  matchTags p (S ++ [t]) = true ↔ matchTags p S = true ∧ t ∈ service_tags p.
Proof.
  unfold matchTags. rewrite forallb_app, <- hasTag_spec.
  destruct S as [|t' S]; cbn; destruct (hasTag p t); rewrite ?andb_true_r, ?andb_false_r;
    intuition congruence.
Qed.

Lemma filter_sublist_impl {A} (P Q : A → Prop) `{!∀ x, Decision (P x)}
    `{!∀ x, Decision (Q x)} (xs : list A) :
  (∀ x, P x → Q x) → filter P xs `sublist_of` filter Q xs.
Proof.
  intros Himpl. induction xs as [|x xs IH]; [done|].
  rewrite !filter_cons.
  repeat case_decide; [by apply sublist_skip|exfalso; auto|by apply sublist_cons|done].
Qed.

(** The keys of a duplicate-free list of places bound its length by any
    list that holds all of them. *)
Lemma keys_length_le l1 l2 :
  NoDup (placeKey <$> l1) →
  (∀ k, k ∈ placeKey <$> l1 → k ∈ placeKey <$> l2) →
  (length l1 ≤ length l2)%nat.
Proof.
  intros Hnd Hsub. rewrite <- (length_fmap placeKey l1), <- (length_fmap placeKey l2).
  by apply submseteq_length, NoDup_submseteq.
Qed.

End FilterEngine.

(** X1: the places in view are taken in order from the deduplicated
    filtered places, those from the filtered places, and those from all
    places, so the counts of the header never exceed the total. *)
Theorem view_within_total {cm : CaseMapping} (st : Dashboard.State) :
  Dashboard.placesInViewOf st `sublist_of` Dashboard.filteredUniqueOf st
  ∧ Dashboard.filteredUniqueOf st `sublist_of` Dashboard.filteredOf st
  ∧ Dashboard.filteredOf st `sublist_of` Dashboard.places st
  ∧ (length (Dashboard.placesInViewOf st) ≤ length (Dashboard.filteredUniqueOf st))%nat
  ∧ (length (Dashboard.filteredUniqueOf st) ≤ length (Dashboard.places st))%nat
  ∧ NoDup (placeKey <$> Dashboard.placesInViewOf st).
Proof.
  assert (H1 := placesInView_sublist (Dashboard.viewMode st) (Dashboard.mapBounds st)
                  (Dashboard.filteredUniqueOf st)).
  assert (H2 := filteredUnique_sublist (Dashboard.filteredOf st)).
  assert (H3 := filtered_sublist (Dashboard.places st) (Dashboard.query st)
                  (Dashboard.selectedTags st)).
  fold (Dashboard.placesInViewOf st) in H1. fold (Dashboard.filteredUniqueOf st) in H2.
  fold (Dashboard.filteredOf st) in H3.
  split_and!; try done.
  - by apply sublist_length.
  - apply sublist_length. by etrans.
  - apply (sublist_NoDup _ (placeKey <$> Dashboard.filteredUniqueOf st));
      [apply filteredUnique_NoDup|by apply fmap_sublist].
Qed.

(** X2: a blank query and an empty selection filter nothing out. *)
Theorem blank_filter_keeps_all {cm : CaseMapping}
    (places : list Place) (query : jsstring) :
  trim query = [] → filtered places query [] = places.
Proof.
  intros Hq. unfold filtered.
  induction places as [|p places IH]; [done|].
  rewrite filter_cons_True; [by rewrite IH|].
  by rewrite matchText_blank.
Qed.

Lemma blank_filter_keeps_all_witness :
  filtered [roomA; roomB] (js "   ") [] = [roomA; roomB].
Proof. apply blank_filter_keeps_all. reflexivity. Defined.

(** X3: selecting one more tag narrows the result: the filtered places
    are taken from the former ones and all carry the new tag, and the
    deduplicated result does not grow. *)
Theorem one_more_tag_narrows {cm : CaseMapping}
    (places : list Place) (query : jsstring)
    (selected : list jsstring) (tag : jsstring) :
  tag ∉ selected →
  let before := filtered places query selected in
  let after := filtered places query (toggleTag tag selected) in
  after `sublist_of` before
  ∧ (∀ p, p ∈ after → tag ∈ service_tags p)
  ∧ (length (filteredUnique after) ≤ length (filteredUnique before))%nat.
Proof.
  intros Hnew before after. unfold after, before, toggleTag.
  rewrite bool_decide_eq_false_2 by done.
  assert (Hsub : filtered places query (selected ++ [tag])
                   `sublist_of` filtered places query selected).
  { apply filter_sublist_impl. intros p.
    rewrite !andb_true_iff, matchTags_snoc. tauto. }
  split_and!; [done| |].
  - intros p [Hp _]%list_elem_of_filter.
    apply andb_true_iff in Hp as [_ Hp]. by apply matchTags_snoc in Hp as [_ Hp].
  - apply keys_length_le; [apply filteredUnique_NoDup|].
    intros k. rewrite !filteredUnique_keys.
    intros (p & -> & Hp)%list_elem_of_fmap. apply list_elem_of_fmap_2.
    by eapply elem_of_sublist.
Qed.

Lemma one_more_tag_narrows_witness :
  let before := filtered [tagsABC; roomA] [] [js "A"] in
  let after := filtered [tagsABC; roomA] [] (toggleTag (js "B") [js "A"]) in
  after `sublist_of` before
  ∧ (∀ p, p ∈ after → js "B" ∈ service_tags p)
  ∧ (length (filteredUnique after) ≤ length (filteredUnique before))%nat.
Proof.
  apply one_more_tag_narrows.
  intros Hin. apply list_elem_of_singleton in Hin. discriminate Hin.
Defined.

(** ** The tag selection *)

Lemma toggleTag_elem_of (tag t : jsstring) (prev : list jsstring) :
  t ∈ toggleTag tag prev ↔ (t = tag ∧ tag ∉ prev) ∨ (t ≠ tag ∧ t ∈ prev).
Proof.
  unfold toggleTag. case_bool_decide as Hin.
  - rewrite list_elem_of_filter. split; [tauto|]. intros [[_ ?]|?]; tauto.
  - rewrite elem_of_app, list_elem_of_singleton.
    split; [|tauto]. intros [?| ->]; [|tauto].
    right. split; [|done]. by intros ->.
Qed.

Lemma toggleTag_NoDup (tag : jsstring) (prev : list jsstring) :
  NoDup prev → NoDup (toggleTag tag prev).
Proof.
  intros Hnd. unfold toggleTag. case_bool_decide as Hin.
  - by apply NoDup_filter.
  - apply NoDup_app. split_and!; [done| |apply NoDup_singleton].
    by intros t Ht ->%list_elem_of_singleton.
Qed.

(** X4: whatever the clicks on tag chips and on Clear, no tag is selected
    twice; a click on a chip selects the tag when it was not selected
    and deselects it when it was, leaving the other tags as they
    were; and two clicks on a chip that was not selected restore the
    selection. *)
Theorem selection_toggles (evs : list TagEvent) (tag : jsstring) :
  let selected := selectionAfter evs in
  NoDup selected
  ∧ (∀ t, t ∈ toggleTag tag selected
          ↔ (t = tag ∧ tag ∉ selected) ∨ (t ≠ tag ∧ t ∈ selected))
  ∧ (tag ∉ selected → toggleTag tag (toggleTag tag selected) = selected).
Proof.
  intros selected. split_and!.
  - unfold selected, selectionAfter.
    induction evs as [|ev evs IH] using rev_ind; [constructor|].
    rewrite foldl_app. cbn. destruct ev; [by apply toggleTag_NoDup|constructor].
  - intros t. apply toggleTag_elem_of.
  - intros Hnew. unfold toggleTag at 2. rewrite bool_decide_eq_false_2 by done.
    unfold toggleTag. rewrite bool_decide_eq_true_2
      by (apply elem_of_app; right; by apply list_elem_of_singleton).
    rewrite filter_app, filter_cons, filter_nil.
    rewrite decide_False by (by intros Hne; apply Hne).
    rewrite app_nil_r. clear -Hnew.
    induction selected as [|t l IH]; [done|].
    apply not_elem_of_cons in Hnew as [Hne Hnew].
    rewrite filter_cons, decide_True by done. by rewrite IH.
Qed.

(** ** Sorting *)

Section Sorting.

Context {A : Type} (cmp : A → A → Z).

Lemma insertSorted_perm (x : A) (l : list A) : insertSorted cmp x l ≡ₚ x :: l.
Proof.
  induction l as [|y l IH]; [done|]. cbn. case_match; [|done].
  rewrite IH. apply Permutation_swap.
Qed.

Lemma sortBy_perm (l : list A) : sortBy cmp l ≡ₚ l.
Proof.
  unfold sortBy. induction l as [|x l IH]; [done|]. cbn.
  by rewrite insertSorted_perm, IH.
Qed.

(** With a comparator that decides a transitive relation [R], the
    result is in order. *)
Context (R : relation A) `{!Transitive R}.
Hypothesis cmp_after : ∀ x y, (0 < cmp x y)%Z → R y x.
Hypothesis cmp_before : ∀ x y, ¬ (0 < cmp x y)%Z → R x y.

Lemma insertSorted_sorted (x : A) (l : list A) :
  StronglySorted R l → StronglySorted R (insertSorted cmp x l).
Proof.
  induction l as [|y l IH]; intros Hl; cbn.
  - by repeat constructor.
  - apply StronglySorted_inv in Hl as [Hl Hy].
    destruct (0 <? cmp x y)%Z eqn:Hcmp.
    + apply Z.ltb_lt in Hcmp. constructor; [by apply IH|].
      rewrite insertSorted_perm. constructor; [by apply cmp_after|done].
    + apply Z.ltb_ge in Hcmp.
      assert (R x y) by (apply cmp_before; lia).
      constructor; [by constructor|]. constructor; [done|].
      eapply Forall_impl; [done|]. intros z Hz. by etrans.
Qed.

Lemma sortBy_sorted (l : list A) : StronglySorted R (sortBy cmp l).
Proof.
  unfold sortBy. induction l as [|x l IH]; [constructor|]. cbn.
  by apply insertSorted_sorted.
Qed.

End Sorting.

(** ** The tags on offer *)

Section TagSet.

Implicit Types (s ts : list jsstring) (t : jsstring) (l : list Place).

Lemma setAdd_fold_elem_of ts s t :
  t ∈ foldl setAdd s ts ↔ t ∈ s ∨ t ∈ ts.
Proof.
  revert s. induction ts as [|t' ts IH]; intros s; cbn.
  - rewrite elem_of_nil. tauto.
  - rewrite IH, elem_of_cons. unfold setAdd. case_bool_decide as Hin.
    + split; [tauto|]. intros [?|[->|?]]; tauto.
    + rewrite elem_of_app, list_elem_of_singleton. tauto.
Qed.

Lemma setAdd_fold_NoDup ts s : NoDup s → NoDup (foldl setAdd s ts).
Proof.
  revert s. induction ts as [|t' ts IH]; intros s Hs; cbn; [done|].
  apply IH. unfold setAdd. case_bool_decide as Hin; [done|].
  apply NoDup_app. split_and!; [done| |apply NoDup_singleton].
  by intros t Ht ->%list_elem_of_singleton.
Qed.

Lemma tagSet_snoc l p :
  tagSet (l ++ [p]) = foldl setAdd (tagSet l) (service_tags p).
Proof. unfold tagSet. by rewrite foldl_app. Qed.

Lemma tagSet_elem_of l t : t ∈ tagSet l ↔ ∃ p, p ∈ l ∧ t ∈ service_tags p.
Proof.
  induction l as [|p l IH] using rev_ind.
  - cbn. rewrite elem_of_nil. split; [done|]. by intros (p & ?%elem_of_nil & _).
  - rewrite tagSet_snoc, setAdd_fold_elem_of, IH. split.
    + intros [(q & Hq & Ht)|Ht].
      * exists q. split; [|done]. apply elem_of_app. by left.
      * exists p. split; [|done]. apply elem_of_app. right. by left.
    + intros (q & [Hq|Hq%list_elem_of_singleton]%elem_of_app & Ht).
      * left. by exists q.
      * right. by subst q.
Qed.

Lemma tagSet_NoDup l : NoDup (tagSet l).
Proof.
  induction l as [|p l IH] using rev_ind; [constructor|].
  rewrite tagSet_snoc. by apply setAdd_fold_NoDup.
Qed.

End TagSet.

(** X5: the tag chips on offer are the tags carried by the places in
    view, each one once, whatever the labels and the collation. *)
Theorem allTags_distinct_present {cm : CaseMapping}
    (localeCompare : jsstring → jsstring → Z)
    (placesInView : list Place) (labels : gmap jsstring jsstring) :
  NoDup (allTags localeCompare placesInView labels)
  ∧ (∀ t, t ∈ allTags localeCompare placesInView labels
          ↔ ∃ p, p ∈ placesInView ∧ t ∈ service_tags p)
  ∧ (placesInView = [] → allTags localeCompare placesInView labels = []).
Proof.
  unfold allTags. split_and!.
  - rewrite sortBy_perm. apply tagSet_NoDup.
  - intros t. rewrite sortBy_perm. apply tagSet_elem_of.
  - by intros ->.
Qed.

(** ** Counts by category *)

Section CategoryCounts.

Implicit Types (m : Counts) (k key : jsstring) (v n : N) (l : list Place)
  (p : Place).

Lemma mapGet_mapSet m key v k :
  mapGet (mapSet m key v) k = if bool_decide (key = k) then Some v else mapGet m k.
Proof.
  induction m as [|[k' v'] m IH]; cbn.
  - by case_bool_decide.
  - destruct (bool_decide (k' = key)) eqn:Hk'; cbn.
    + apply bool_decide_eq_true in Hk' as ->. by case_bool_decide.
    + apply bool_decide_eq_false in Hk'. rewrite IH.
      repeat case_bool_decide; congruence.
Qed.

Lemma mapSet_keys m key v k : k ∈ (mapSet m key v).*1 ↔ k = key ∨ k ∈ m.*1.
Proof.
  induction m as [|[k' v'] m IH]; cbn.
  - rewrite list_elem_of_singleton, elem_of_nil. tauto.
  - case_bool_decide as Hk'; cbn; rewrite !elem_of_cons; [subst; tauto|].
    rewrite IH. tauto.
Qed.

Lemma mapSet_NoDup m key v : NoDup m.*1 → NoDup (mapSet m key v).*1.
Proof.
  induction m as [|[k' v'] m IH]; cbn; intros Hnd.
  - apply NoDup_singleton.
  - apply NoDup_cons in Hnd as [Hk' Hnd]. case_bool_decide as Heq; cbn.
    + by apply NoDup_cons.
    + apply NoDup_cons. split; [|by apply IH].
      rewrite mapSet_keys. intros [?|?]; congruence.
Qed.

Lemma mapGet_elem_of m k n : NoDup m.*1 → (k, n) ∈ m ↔ mapGet m k = Some n.
Proof.
  induction m as [|[k' v'] m IH]; cbn; intros Hnd.
  - by rewrite elem_of_nil.
  - apply NoDup_cons in Hnd as [Hk' Hnd]. rewrite elem_of_cons, IH by done.
    case_bool_decide as Heq.
    + subst k'. split; [|intros [= ->]; by left].
      intros [[= ->]|Hget]; [done|]. exfalso. apply Hk'.
      apply IH in Hget; [|done]. by apply (list_elem_of_fmap_2 fst) in Hget.
    + split; [|tauto]. intros [[= ? ?]|?]; [congruence|done].
Qed.

Lemma categoryCounts_snoc l p :
  categoryCounts (l ++ [p]) = countStep (categoryCounts l) p.
Proof. unfold categoryCounts. by rewrite foldl_app. Qed.

Lemma categoryCounts_NoDup l : NoDup (categoryCounts l).*1.
Proof.
  induction l as [|p l IH] using rev_ind; [constructor|].
  rewrite categoryCounts_snoc. by apply mapSet_NoDup.
Qed.

Lemma categoryCounts_get l key :
  mapGet (categoryCounts l) key
  = if decide (occurrences key l = 0) then None else Some (occurrences key l).
Proof.
  revert key. induction l as [|p l IH] using rev_ind; intros key; [done|].
  rewrite categoryCounts_snoc. unfold countStep. rewrite mapGet_mapSet, !IH.
  unfold occurrences. rewrite filter_app, length_app, filter_cons, filter_nil.
  destruct (decide (categoryKey p = key)) as [Heq|Hne].
  - rewrite bool_decide_eq_true_2 by done. subst key. cbn [length].
    repeat case_decide; cbn; try lia; f_equal; lia.
  - rewrite bool_decide_eq_false_2 by done. cbn [length].
    by rewrite Nat.add_0_r.
Qed.

Lemma categoryCounts_total l :
  foldr N.add 0 (categoryCounts l).*2 = N.of_nat (length l).
Proof.
  assert (Hset : ∀ m key,
    foldr N.add 0 (mapSet m key (default 0 (mapGet m key) + 1)).*2
    = foldr N.add 0 m.*2 + 1).
  { intros m key. induction m as [|[k v] m IH]; cbn; [done|].
    case_bool_decide; cbn; [lia|]. rewrite IH. lia. }
  induction l as [|p l IH] using rev_ind; [done|].
  rewrite categoryCounts_snoc. unfold countStep. rewrite Hset, IH, length_app.
  cbn. lia.
Qed.

End CategoryCounts.

Lemma sum_perm (l1 l2 : list N) :
  l1 ≡ₚ l2 → foldr N.add 0 l1 = foldr N.add 0 l2.
Proof. induction 1; cbn; lia. Qed.

(** X6: the category bars count the places in view: one entry per
    category key, with the number of places under that key, never zero;
    the counts add up to the number of places in view, and places
    without a category are counted under "Uncategorized". *)
Theorem countsByCategory_counts (placesInView : list Place) :
  let counts := countsByCategory placesInView in
  NoDup counts.*1
  ∧ (∀ k n, (k, n) ∈ counts ↔ n = occurrences k placesInView ∧ n ≠ 0)
  ∧ foldr N.add 0 counts.*2 = N.of_nat (length placesInView)
  ∧ (∀ p, p ∈ placesInView → category p = [] →
          ∃ n, (js "Uncategorized", n) ∈ counts).
Proof.
  intros counts.
  assert (Hperm : counts ≡ₚ categoryCounts placesInView) by apply sortBy_perm.
  assert (Hin : ∀ k n, (k, n) ∈ counts ↔ n = occurrences k placesInView ∧ n ≠ 0).
  { intros k n. rewrite Hperm, mapGet_elem_of by apply categoryCounts_NoDup.
    rewrite categoryCounts_get. case_decide as Hz.
    - split; [done|]. intros [-> ?]. congruence.
    - split; [by intros [= <-]|]. by intros [-> _]. }
  split_and!; [| done | |].
  - rewrite Hperm. apply categoryCounts_NoDup.
  - rewrite (sum_perm _ (categoryCounts placesInView).*2) by (by rewrite Hperm).
    apply categoryCounts_total.
  - intros p Hp Hcat. exists (occurrences (js "Uncategorized") placesInView).
    apply Hin. split; [done|]. unfold occurrences.
    assert (Hp' : p ∈ filter (λ p, categoryKey p = js "Uncategorized") placesInView).
    { apply list_elem_of_filter. split; [|done]. unfold categoryKey. by rewrite Hcat. }
    destruct (filter _ placesInView); [by apply elem_of_nil in Hp'|]. cbn. lia.
Qed.

Lemma countsByCategory_counts_witness :
  ∃ n, (js "Uncategorized", n) ∈ countsByCategory [roomA; unlocatedNoCategory].
Proof.
  apply (proj2 (proj2 (proj2 (countsByCategory_counts [roomA; unlocatedNoCategory])))
           unlocatedNoCategory).
  - right. by left.
  - reflexivity.
Defined.

(** X7: the category bars come in descending order of count, so the
    first one has the largest count. *)
Theorem countsByCategory_descending (placesInView : list Place) :
  let counts := countsByCategory placesInView in
  StronglySorted (λ a b, b.2 ≤ a.2) counts
  ∧ (∀ first k n, head counts = Some first → (k, n) ∈ counts → n ≤ first.2).
Proof.
  intros counts.
  assert (Hsorted : StronglySorted (λ a b : jsstring * N, b.2 ≤ a.2) counts).
  { apply sortBy_sorted.
    - intros a b c Hab Hbc. cbn in *. lia.
    - intros a b Hcmp. cbn in *. lia.
    - intros a b Hcmp. cbn in *. lia. }
  split; [done|]. intros first k n Hhead Hin.
  destruct counts as [|c counts']; [done|]. injection Hhead as ->.
  apply StronglySorted_inv in Hsorted as [_ Hall].
  apply elem_of_cons in Hin as [<-|Hin]; [cbn; lia|].
  by apply (proj1 (Forall_forall _ _) Hall (k, n)).
Qed.

Lemma countsByCategory_descending_witness :
  StronglySorted (λ a b, b.2 ≤ a.2)
    (countsByCategory [unlocatedNoCategory; roomA; roomB]).
Proof.
  apply (proj1 (countsByCategory_descending [unlocatedNoCategory; roomA; roomB])).
Defined.

(** ** The map features *)

Lemma placesGeoJSON_pids {cm : CaseMapping} (l : list Place) :
  pid <$> placesGeoJSON l `sublist_of` placeKey <$> l.
Proof.
  unfold placesGeoJSON. induction l as [|p l IH]; [done|]. cbn.
  unfold featureOf at 1.
  destruct (safeNum (lat p)), (safeNum (lng p)); cbn;
    by (apply sublist_skip || apply sublist_cons).
Qed.

Lemma safeNum_finite (n : option float) (v : float) :
  safeNum n = Some v → isFinite v = true.
Proof.
  unfold safeNum. destruct (isFinite _) eqn:Hfin; [|done]. by intros [= <-].
Qed.

(** X8: the features given to the map have distinct pids, finite
    coordinates, and each one stands for a place of the deduplicated
    filtered sequence, with its key and the colour of its category. *)
Theorem placesGeoJSON_features {cm : CaseMapping} (filtered : list Place) :
  let features := placesGeoJSON (filteredUnique filtered) in
  NoDup (pid <$> features)
  ∧ (∀ f, f ∈ features →
       isFinite (coordinates f).1 = true ∧ isFinite (coordinates f).2 = true
       ∧ ∃ p, p ∈ filteredUnique filtered ∧ pid f = placeKey p
              ∧ color f = categoryColor (category p))
  ∧ (length features ≤ length (filteredUnique filtered))%nat.
Proof.
  intros features. split_and!.
  - eapply sublist_NoDup; [apply filteredUnique_NoDup|apply placesGeoJSON_pids].
  - intros f (p & Hp & Hf)%list_elem_of_omap. unfold featureOf in Hf.
    destruct (safeNum (lat p)) as [la|] eqn:Hla; [|done].
    destruct (safeNum (lng p)) as [ln|] eqn:Hln; [|done].
    injection Hf as <-. cbn. split_and!.
    + by eapply safeNum_finite.
    + by eapply safeNum_finite.
    + exists p. split_and!; try done. by destruct (category p).
  - rewrite <- (length_fmap pid), <- (length_fmap placeKey).
    apply sublist_length, placesGeoJSON_pids.
Qed.

(** ** The active place *)

Lemma placeKey_nonempty (p : Place) : placeKey p ≠ [].
Proof.
  unfold placeKey. destruct (trim (orElseNull _ _)) as [|c pid]; [|done].
  destruct (trim (orElse (organization p) [])); done.
Qed.

Lemma find_first_key (places : list Place) (k : jsstring) (p : Place) :
  p ∈ places → placeKey p = k →
  ∃ q, List.find (λ q, bool_decide (placeKey q = k)) places = Some q
       ∧ placeKey q = k
       ∧ (∃ before after,
            places = before ++ q :: after
            ∧ ∀ r, r ∈ before → placeKey r ≠ k)
       ∧ (NoDup (placeKey <$> places) → q = p).
Proof.
  induction places as [|r places IH]; intros Hin Hk; [by apply elem_of_nil in Hin|].
  cbn. case_bool_decide as Hr.
  - exists r. split_and!; [done|done| |].
    + exists [], places. split; [done|]. by intros r' ?%elem_of_nil.
    + intros [Hnotin _]%NoDup_cons.
      apply elem_of_cons in Hin as [->|Hin]; [done|].
      exfalso. apply Hnotin. rewrite Hr, <- Hk. by apply list_elem_of_fmap_2.
  - apply elem_of_cons in Hin as [->|Hin]; [done|].
    destruct (IH Hin Hk) as (q & Hfind & Hq & (before & after & -> & Hbefore) & Huniq).
    exists q. split_and!; [done|done| |].
    + exists (r :: before), after. split; [done|].
      intros r' [->|Hr']%elem_of_cons; [done|by apply Hbefore].
    + intros [_ Hnd]%NoDup_cons. by apply Huniq.
Qed.

(** X9: activating a listed place by its key finds the first place of
    the data with that key: a place with that key, at a position before
    which no place has it; it is the place itself when the keys of the
    data are distinct.  Without an active key, or with a key no place
    has, there is no active place. *)
Theorem activePlace_by_key (places : list Place) (p : Place) :
  p ∈ places →
  (∃ q, activePlace (Some (placeKey p)) places = Some q
        ∧ placeKey q = placeKey p
        ∧ (∃ before after,
             places = before ++ q :: after
             ∧ ∀ r, r ∈ before → placeKey r ≠ placeKey p)
        ∧ (NoDup (placeKey <$> places) → q = p))
  ∧ activePlace None places = None
  ∧ (∀ k, k ∉ placeKey <$> places → activePlace (Some k) places = None).
Proof.
  intros Hin. split_and!.
  - unfold activePlace. pose proof (placeKey_nonempty p) as Hne.
    destruct (placeKey p) as [|c k] eqn:Hk; [done|].
    by apply find_first_key.
  - done.
  - intros k Hk. unfold activePlace. destruct k as [|c k]; [done|].
    destruct (List.find _ places) as [q|] eqn:Hfind; [|done].
    apply find_some in Hfind as [Hq Hkey]. apply bool_decide_eq_true in Hkey.
    exfalso. apply Hk. rewrite <- Hkey. apply list_elem_of_fmap_2.
    by apply list_elem_of_In.
Qed.

(** Of two places with one key, the first is the active one. *)
Lemma activePlace_by_key_witness :
  (∃ q, activePlace (Some (placeKey roomA')) [roomB; roomA; roomA'] = Some q
        ∧ placeKey q = placeKey roomA'
        ∧ (∃ before after,
             [roomB; roomA; roomA'] = before ++ q :: after
             ∧ ∀ r, r ∈ before → placeKey r ≠ placeKey roomA')
        ∧ (NoDup (placeKey <$> [roomB; roomA; roomA']) → q = roomA'))
  ∧ activePlace None [roomB; roomA; roomA'] = None
  ∧ (∀ k, k ∉ placeKey <$> [roomB; roomA; roomA'] →
          activePlace (Some k) [roomB; roomA; roomA'] = None).
Proof. apply activePlace_by_key. do 2 right. by left. Defined.

Example first_of_two_rooms :
  placeKey roomA = placeKey roomA'
  ∧ activePlace (Some (placeKey roomA')) [roomB; roomA; roomA'] = Some roomA.
Proof. by vm_compute. Qed.

(** ** More order facts on binary64 values *)

Section FloatOrderMore.

Implicit Types (a b : spec_float) (x y : float).

Lemma SFcompare_refl a : a ≠ S754_nan → SFcompare a a = Some Eq.
Proof.
  destruct a as [s|s| |s m e]; cbn; try done; intros _.
  - by destruct s.
  - destruct s; rewrite Z.compare_refl, Pos.compare_cont_refl; done.
Qed.

Lemma SFcompare_opp a b : SFcompare (SFopp b) (SFopp a) = SFcompare a b.
Proof.
  destruct a as [sa|sa| |sa ma ea], b as [sb|sb| |sb mb eb]; cbn;
    try by (try destruct sa; try destruct sb).
  destruct sa, sb; cbn; try done.
  all: rewrite (Z.compare_antisym ea eb); destruct (ea ?= eb)%Z; cbn; try done.
  all: f_equal; rewrite <- (Pos.compare_cont_antisym _ _ Eq); cbn;
       by rewrite ?CompOpp_involutive.
Qed.

Lemma leb_refl x : is_nan x = false → (x <=? x)%float = true.
Proof.
  intros Hx%not_nan_Prim2SF. rewrite leb_spec. unfold SFleb.
  by rewrite SFcompare_refl.
Qed.

Lemma not_ltb_leb x y :
  is_nan x = false → is_nan y = false →
  (x <? y)%float = false → (y <=? x)%float = true.
Proof.
  intros Hx%not_nan_Prim2SF Hy%not_nan_Prim2SF.
  rewrite ltb_spec, leb_spec. unfold SFltb, SFleb.
  rewrite (SFcompare_swap (Prim2SF x)).
  destruct (SFcompare (Prim2SF x) (Prim2SF y)) as [[]|] eqn:Hcmp; try done.
  by apply SFcompare_None in Hcmp as [?|?].
Qed.

Lemma leb_not_ltb x y : (x <=? y)%float = true → (y <? x)%float = false.
Proof.
  rewrite ltb_spec, leb_spec. unfold SFltb, SFleb.
  rewrite (SFcompare_swap (Prim2SF x)).
  by destruct (SFcompare (Prim2SF x) (Prim2SF y)) as [[]|].
Qed.

Lemma leb_opp x y : (- y <=? - x)%float = (x <=? y)%float.
Proof. by rewrite !leb_spec, !opp_spec; unfold SFleb; rewrite SFcompare_opp. Qed.

Lemma is_nan_opp x : is_nan (- x) = is_nan x.
Proof.
  destruct (is_nan x) eqn:Hx.
  - apply is_nan_Prim2SF. apply is_nan_Prim2SF in Hx. by rewrite opp_spec, Hx.
  - apply not_nan_Prim2SF. apply not_nan_Prim2SF in Hx. rewrite opp_spec.
    by destruct (Prim2SF x).
Qed.

(** A zero compares as the number 0. *)
Lemma is_zero_Prim2SF x : is_zero x = true → ∃ s, Prim2SF x = S754_zero s.
Proof.
  unfold is_zero. rewrite FloatAxioms.eqb_spec.
  change (Prim2SF zero) with (S754_zero false). unfold SFeqb.
  destruct (Prim2SF x) as [s|s| |s m e]; cbn; try done; [by eexists|..];
    by destruct s.
Qed.

Lemma not_zero_Prim2SF x s : is_zero x = false → Prim2SF x ≠ S754_zero s.
Proof.
  unfold is_zero. rewrite FloatAxioms.eqb_spec.
  change (Prim2SF zero) with (S754_zero false). unfold SFeqb.
  by destruct (Prim2SF x).
Qed.

Lemma SF64sub_not_nan_l a b :
  a ≠ S754_nan → finiteClass b → SF64sub a b ≠ S754_nan.
Proof.
  intros Ha Hb. destruct a as [sa|sa| |sa ma ea]; try done.
  - apply SF64sub_not_nan; [left; by eexists|done].
  - by destruct Hb as [[sb ->]|(sb & mb & eb & ->)].
  - apply SF64sub_not_nan; [right; by eexists _, _, _|done].
Qed.

Lemma sub_not_nan_l x y :
  is_nan x = false → isFinite y = true → is_nan (x - y) = false.
Proof.
  intros Hx%not_nan_Prim2SF Hy%isFinite_Prim2SF.
  apply not_nan_Prim2SF. rewrite sub_spec. by apply SF64sub_not_nan_l.
Qed.

(** The difference of a finite number with itself is a zero. *)
Lemma sub_diag_zero x :
  isFinite x = true → ∃ s, Prim2SF (x - x) = S754_zero s.
Proof.
  intros [[s Hx]|(s & m & e & Hx)]%isFinite_Prim2SF; rewrite sub_spec, Hx.
  - destruct s; by eexists.
  - cbn. rewrite Z.sub_diag. by eexists.
Qed.

(** Adding a zero to a finite non-zero number leaves it as it is. *)
Lemma add_zero_r x y s m e sz :
  Prim2SF x = S754_finite s m e → Prim2SF y = S754_zero sz → (x + y)%float = x.
Proof.
  intros Hx Hy.
  assert (Heq : Prim2SF (x + y) = Prim2SF x) by (by rewrite add_spec, Hx, Hy).
  rewrite <- (SF2Prim_Prim2SF (x + y)), Heq. apply SF2Prim_Prim2SF.
Qed.

Lemma mathMin_const_r x y :
  is_nan x = false → is_nan y = false → is_zero y = false →
  mathMin x y = if (y <? x)%float then y else x.
Proof. unfold mathMin. intros -> -> ->. by rewrite andb_false_r. Qed.

End FloatOrderMore.

(** ** Focus, clicks and the popup correction *)

Lemma focus_zoom (z : float) :
  (12 <=? mathMax 12 (orTen z))%float = true
  ∧ (is_nan z = false → (z <=? mathMax 12 (orTen z))%float = true).
Proof.
  unfold orTen. destruct (is_zero z) eqn:Hzero; cbn [orb].
  - split; [reflexivity|]. intros _.
    apply is_zero_Prim2SF in Hzero as [s Hz].
    change (mathMax 12 10) with 12%float. rewrite leb_spec, Hz.
    set (c := Prim2SF 12). vm_compute in c. subst c. by destruct s.
  - destruct (is_nan z) eqn:Hnan; [split; [reflexivity|done]|].
    rewrite (mathMax_const 12 z) by done.
    destruct (12 <? z)%float eqn:Hlt.
    + split; [by apply ltb_leb|]. intros _. by apply leb_refl.
    + split; [reflexivity|]. intros _. by apply not_ltb_leb.
Qed.

(** X10: focusing a place always makes it the active one.  The map is
    sent to it exactly when there is a map and [safeNum] gives a number
    for both coordinates: one command, to the coordinates as [safeNum]
    reads them, at zoom 12 at least and never further out than the
    current zoom, when that is a number.  A place whose coordinates are
    both [null] is no exception: [safeNum] reads them as 0, and the map
    is sent to (0, 0). *)
Theorem focusPlace_activates (p : Place) (currentZoom : option float) :
  (focusPlace p currentZoom).1 = Some (placeKey p)
  ∧ (currentZoom = None → (focusPlace p currentZoom).2 = [])
  ∧ (safeNum (lat p) = None ∨ safeNum (lng p) = None →
     (focusPlace p currentZoom).2 = [])
  ∧ (∀ z la ln,
       currentZoom = Some z → safeNum (lat p) = Some la → safeNum (lng p) = Some ln →
       ∃ zoom, (focusPlace p currentZoom).2 = [FlyTo (ln, la) zoom 900]
               ∧ (12 <=? zoom)%float = true
               ∧ (is_nan z = false → (z <=? zoom)%float = true))
  ∧ (∀ z, currentZoom = Some z → lat p = None → lng p = None →
       ∃ zoom, (focusPlace p currentZoom).2 = [FlyTo (0, 0)%float zoom 900]).
Proof.
  unfold focusPlace. split_and!.
  - by destruct (safeNum (lat p)), (safeNum (lng p)).
  - intros ->. by destruct (safeNum (lat p)), (safeNum (lng p)).
  - intros [->| ->]; [done|]. by destruct (safeNum (lat p)).
  - intros z la ln -> -> ->. cbn [snd].
    exists (mathMax 12 (orTen z)). destruct (focus_zoom z) as [H12 Hz].
    by split_and!.
  - intros z -> -> ->. by eexists.
Qed.

Example focus_unlocated :
  focusPlace unlocated (Some 9.5%float)
  = (Some (placeKey unlocated), [FlyTo (0, 0)%float 12 900]).
Proof. by vm_compute. Qed.

(** X11: a click on a cluster never changes the active place.  When
    the source of the places is there, the cluster id is a finite
    number, the source reports an expansion zoom and the feature has
    coordinates, the click sends one command: it eases the map to these
    coordinates, in 450 ms, at the reported zoom or at 16 if that is
    less; in every other case it sends nothing.  A click on a marker
    sends nothing and makes its place the active one; a click on
    nothing does nothing. *)
Theorem onMapClick_effects (clicked : Clicked) (activePlaceId : option jsstring) :
  match clicked with
  | NoFeature => onMapClick clicked activePlaceId = (activePlaceId, [])
  | ClusterMarker clusterId hasSource center expansionZoom =>
      (onMapClick clicked activePlaceId).1 = activePlaceId
      ∧ (∀ coords suggested,
           hasSource = true → isFinite clusterId = true →
           center = Some coords → expansionZoom = Some suggested →
           ∃ zoom, (onMapClick clicked activePlaceId).2 = [EaseTo coords zoom 450]
                   ∧ zoom = mathMin suggested 16
                   ∧ (is_nan suggested = false →
                      (zoom <=? 16)%float = true
                      ∧ (zoom <=? suggested)%float = true
                      ∧ (zoom = suggested ∨ zoom = 16%float)))
      ∧ (hasSource = false ∨ isFinite clusterId = false
         ∨ center = None ∨ expansionZoom = None →
         (onMapClick clicked activePlaceId).2 = [])
  | PointMarker pid =>
      (onMapClick clicked activePlaceId).2 = []
      ∧ (pid ≠ [] → (onMapClick clicked activePlaceId).1 = Some pid)
  end.
Proof.
  destruct clicked as [|clusterId hasSource center expansionZoom|pid]; cbn.
  - done.
  - split_and!; [done| |].
    + intros coords z -> -> -> ->. cbn.
      exists (mathMin z 16). split_and!; try done. intros Hz.
      rewrite (mathMin_const_r z 16) by done.
      destruct (16 <? z)%float eqn:Hlt.
      * split_and!; [reflexivity|by apply ltb_leb|by right].
      * split_and!; [by apply not_ltb_leb|by apply leb_refl|by left].
    + intros [->|[->|[->| ->]]]; cbn; [done|by rewrite orb_true_r| |].
      * destruct (negb hasSource || negb (isFinite clusterId)); [done|].
        by destruct expansionZoom.
      * by destruct (negb hasSource || negb (isFinite clusterId)).
  - destruct pid; by split.
Qed.

Lemma clampPan_within (v : float) :
  is_nan v = false → withinPanLimit (clampPan v) = true.
Proof.
  intros Hv. unfold clampPan, withinPanLimit.
  rewrite (mathMin_const 240 v) by done.
  destruct (v <? 240)%float eqn:Hhi; [|reflexivity].
  rewrite (mathMax_const (-240) v) by done.
  destruct (-240 <? v)%float eqn:Hlo; [|reflexivity].
  by rewrite !ltb_leb.
Qed.

Lemma withinPanLimit_opp (v : float) :
  withinPanLimit v = true → withinPanLimit (- v) = true.
Proof.
  unfold withinPanLimit. rewrite !andb_true_iff. intros [Hlo Hhi]. split.
  - change (-240)%float with (PrimFloat.opp 240). by rewrite leb_opp.
  - change 240%float with (PrimFloat.opp (-240)). by rewrite leb_opp.
Qed.

Lemma axisShift_not_nan (pLow pHigh cLow cHigh : float) :
  isFinite pLow = true → isFinite pHigh = true →
  isFinite cLow = true → isFinite cHigh = true →
  is_nan (axisShift pLow pHigh cLow cHigh) = false.
Proof.
  intros HpL HpH HcL HcH. unfold axisShift.
  destruct (_ <? pHigh)%float.
  - apply sub_not_nan_l; [|done]. by apply sub_not_nan.
  - destruct (pLow <? _)%float; [|reflexivity].
    apply sub_not_nan_l; [|done]. by apply add_not_nan.
Qed.

Lemma axisShift_inside (pLow pHigh cLow cHigh : float) :
  (cLow + pad <=? pLow)%float = true → (pHigh <=? cHigh - pad)%float = true →
  axisShift pLow pHigh cLow cHigh = 0%float.
Proof.
  intros Hlow Hhigh. unfold axisShift.
  by rewrite (leb_not_ltb _ _ Hlow), (leb_not_ltb _ _ Hhigh).
Qed.

(** X12: for rectangles with finite coordinates, the pan that brings
    the popup back is at most 240 pixels along each axis; and no pan is
    commanded when the popup lies inside the container with its padding
    of 12. *)
Theorem popupCorrection_bounded (cRect pRect : Rect) :
  finiteRect cRect → finiteRect pRect →
  (∀ cmd, cmd ∈ popupCorrection cRect pRect →
     ∃ px py, cmd = PanBy (px, py) 350
              ∧ withinPanLimit px = true ∧ withinPanLimit py = true)
  ∧ ((left cRect + pad <=? left pRect)%float = true →
     (right pRect <=? right cRect - pad)%float = true →
     (top cRect + pad <=? top pRect)%float = true →
     (bottom pRect <=? bottom cRect - pad)%float = true →
     popupCorrection cRect pRect = []).
Proof.
  intros (HcL & HcT & HcR & HcB) (HpL & HpT & HpR & HpB). split.
  - unfold popupCorrection. intros cmd Hcmd.
    destruct (_ || _); [|by apply elem_of_nil in Hcmd].
    apply list_elem_of_singleton in Hcmd as ->. eexists _, _.
    split; [done|].
    split; by apply withinPanLimit_opp, clampPan_within, axisShift_not_nan.
  - intros Hl Hr Ht Hb. unfold popupCorrection.
    by rewrite !axisShift_inside.
Qed.

Lemma popupCorrection_bounded_witness :
  (∀ cmd, cmd ∈ popupCorrection sampleContainer samplePopup →
     ∃ px py, cmd = PanBy (px, py) 350
              ∧ withinPanLimit px = true ∧ withinPanLimit py = true)
  ∧ ((left sampleContainer + pad <=? left samplePopup)%float = true →
     (right samplePopup <=? right sampleContainer - pad)%float = true →
     (top sampleContainer + pad <=? top samplePopup)%float = true →
     (bottom samplePopup <=? bottom sampleContainer - pad)%float = true →
     popupCorrection sampleContainer samplePopup = []).
Proof. apply popupCorrection_bounded; by repeat split. Defined.

Example popup_pulled_back :
  popupCorrection sampleContainer samplePopup
  = [PanBy (PrimFloat.neg_zero, (-62)%float) 350].
Proof. reflexivity. Qed.

(** ** Dragging the sidebar back *)

Lemma inRange_Prim2SF (w : float) :
  inRange w = true → ∃ s m e, Prim2SF w = S754_finite s m e.
Proof.
  intros Hw. pose proof (inRange_isFinite w Hw) as Hfin.
  apply isFinite_Prim2SF in Hfin as [[s Hz]|Hfin]; [|done].
  unfold inRange in Hw. apply andb_true_iff in Hw as [Hlo _].
  rewrite leb_spec, Hz in Hlo.
  set (lo := Prim2SF 260) in Hlo. vm_compute in lo. subst lo. done.
Qed.

(** The clamp leaves a width of the range as it is. *)
Lemma clamp_fixed (w : float) :
  inRange w = true → mathMax 260 (mathMin 520 w) = w.
Proof.
  intros Hw. pose proof (inRange_isFinite w Hw) as Hnan%isFinite_not_nan.
  unfold inRange in Hw. apply andb_true_iff in Hw as [Hlo Hhi].
  assert (H520 : ∃ m e, Prim2SF 520 = S754_finite false m e)
    by (eexists _, _; by vm_compute).
  assert (H260 : ∃ m e, Prim2SF 260 = S754_finite false m e)
    by (eexists _, _; by vm_compute).
  destruct H520 as (m1 & e1 & H520), H260 as (m2 & e2 & H260).
  assert (Hmin : mathMin 520 w = w).
  { rewrite (mathMin_const 520 w) by done.
    destruct (w <? 520)%float eqn:Hlt; [done|]. symmetry.
    eapply not_ltb_eq; [done|done| |done]. by apply leb_not_ltb. }
  rewrite Hmin, (mathMax_const 260 w) by done.
  destruct (260 <? w)%float eqn:Hlt; [done|]. symmetry.
  eapply not_ltb_eq; [done|done|done|]. by apply leb_not_ltb.
Qed.

Lemma onMove_resizeState (numberToString : float → jsstring) (x : float)
    (st : Sidebar.State) :
  resizeState (onMove numberToString x st) = resizeState st.
Proof.
  unfold onMove, setSidebarWidth.
  destruct (negb _); [done|]. by destruct (Leibniz.eqb _ _).
Qed.

(** X13: during a drag the width follows the pointer from where the drag
    began, not from where it last was: wherever the pointer has been in
    between, bringing it back to the point where the handle was pressed
    gives back the width the sidebar had then. *)
Theorem drag_back_restores (toNumber : jsstring → float)
    (numberToString : float → jsstring) (item : option jsstring)
    (evs : list Event) (x y : float) :
  Forall finiteEvent evs → isFinite x = true →
  sidebarWidth (run toNumber numberToString item
                  (evs ++ [PointerDown x; PointerMove y; PointerMove x]))
  = sidebarWidth (run toNumber numberToString item evs).
Proof.
  intros Hevs Hx. unfold run. rewrite foldl_app.
  fold (run toNumber numberToString item evs).
  destruct (run_ok toNumber numberToString item evs Hevs) as (Hw & _).
  set (st0 := run toNumber numberToString item evs) in *.
  cbn [foldl step].
  rewrite onMove_width
    by (by rewrite onMove_resizeState).
  rewrite onMove_resizeState. cbn [onPointerDown resizeState startX startWidth].
  destruct (sub_diag_zero x Hx) as [sz Hzero].
  destruct (inRange_Prim2SF _ Hw) as (s & m & e & Hfin).
  rewrite (add_zero_r _ _ _ _ _ _ Hfin Hzero). by apply clamp_fixed.
Qed.

Lemma drag_back_restores_witness :
  sidebarWidth (run sampleToNumber sampleToString (Some (js "300"))
                  ([PointerDown 10; PointerMove 90; PointerUp]
                   ++ [PointerDown 350; PointerMove 2000; PointerMove 350]))
  = sidebarWidth (run sampleToNumber sampleToString (Some (js "300"))
                    [PointerDown 10; PointerMove 90; PointerUp]).
Proof.
  apply drag_back_restores; [|reflexivity].
  repeat constructor; reflexivity.
Defined.

(** X14: once the pointer is released, pointer moves leave the width,
    the drag record and the stored item as they are, until the handle is
    pressed again. *)
Theorem released_moves_ignored (toNumber : jsstring → float)
    (numberToString : float → jsstring) (item : option jsstring)
    (evs : list Event) (moves : list float) :
  run toNumber numberToString item (evs ++ [PointerUp] ++ (PointerMove <$> moves))
  = run toNumber numberToString item (evs ++ [PointerUp]).
Proof.
  assert (Hidle : ∀ st, dragging (resizeState st) = false →
            foldl (step numberToString) st (PointerMove <$> moves) = st).
  { induction moves as [|x moves IH]; intros st Hst; [done|].
    cbn [fmap list_fmap foldl step]. unfold onMove. rewrite Hst. cbn [negb].
    by apply IH. }
  unfold run. rewrite !foldl_app. cbn [foldl step]. by apply Hidle.
Qed.

(** ** Trimming *)

Section Trim.

Implicit Types (f : N → bool) (s t w : jsstring) (c : N).

Lemma dropWhile_head f s c t : dropWhile f s = c :: t → f c = false.
Proof.
  induction s as [|d s IH]; cbn; [done|].
  destruct (f d) eqn:Hd; [done|]. by intros [= <- _].
Qed.

Lemma dropWhile_fixed f c s : f c = false → dropWhile f (c :: s) = c :: s.
Proof. cbn. by intros ->. Qed.

Lemma dropWhile_idem f s : dropWhile f (dropWhile f s) = dropWhile f s.
Proof.
  destruct (dropWhile f s) as [|c t] eqn:Hs; [done|].
  apply dropWhile_fixed. by eapply dropWhile_head.
Qed.

Lemma dropWhile_all f w : Forall (λ c, f c = true) w → dropWhile f w = [].
Proof. induction 1 as [|c w Hc _ IH]; cbn; [done|]. by rewrite Hc. Qed.

Lemma dropWhile_app_all f w s :
  Forall (λ c, f c = true) w → dropWhile f (w ++ s) = dropWhile f s.
Proof. induction 1 as [|c w Hc _ IH]; cbn; [done|]. by rewrite Hc. Qed.

Lemma dropWhile_app f s t :
  dropWhile f s ≠ [] → dropWhile f (s ++ t) = dropWhile f s ++ t.
Proof.
  induction s as [|c s IH]; cbn; [done|]. destruct (f c); [done|]. by intros _.
Qed.

(** What is dropped is a run of the class. *)
Lemma dropWhile_split f s :
  ∃ w, s = w ++ dropWhile f s ∧ Forall (λ c, f c = true) w.
Proof.
  induction s as [|c s (w & Hs & Hw)]; cbn; [by exists []|].
  destruct (f c) eqn:Hc.
  - exists (c :: w). split; [by rewrite Hs at 1|by constructor].
  - by exists [].
Qed.

Lemma trimEnd_split s :
  ∃ w, s = trimEnd s ++ w ∧ Forall (λ c, isSpace c = true) w.
Proof.
  unfold trimEnd. destruct (dropWhile_split isSpace (reverse s)) as (w & Hs & Hw).
  exists (reverse w). split; [|by apply Forall_reverse].
  rewrite <- reverse_app, <- Hs. by rewrite reverse_involutive.
Qed.

Lemma trimEnd_app_all s w :
  Forall (λ c, isSpace c = true) w → trimEnd (s ++ w) = trimEnd s.
Proof.
  intros Hw. unfold trimEnd. rewrite reverse_app, dropWhile_app_all; [done|].
  by apply Forall_reverse.
Qed.

Lemma trimEnd_app s t : trimEnd t ≠ [] → trimEnd (s ++ t) = s ++ trimEnd t.
Proof.
  unfold trimEnd. intros Ht. rewrite reverse_app, dropWhile_app.
  - by rewrite reverse_app, reverse_involutive.
  - intros Hnil. rewrite Hnil in Ht. by apply Ht.
Qed.

Lemma trimEnd_idem s : trimEnd (trimEnd s) = trimEnd s.
Proof. unfold trimEnd. by rewrite reverse_involutive, dropWhile_idem. Qed.

(** The result of [trim] has no white space at either end. *)
Lemma trimStart_trim s : trimStart (trim s) = trim s.
Proof.
  unfold trim. destruct (trimEnd_split (trimStart s)) as (w & Hs & _).
  destruct (trimEnd (trimStart s)) as [|c t] eqn:Ht; [done|].
  apply dropWhile_fixed. unfold trimStart in Hs.
  eapply dropWhile_head. by rewrite Hs.
Qed.

Lemma trimEnd_trim s : trimEnd (trim s) = trim s.
Proof. apply trimEnd_idem. Qed.

Lemma trim_idem s : trim (trim s) = trim s.
Proof. unfold trim at 1. by rewrite trimStart_trim, trimEnd_trim. Qed.

Lemma trimStart_all w s :
  Forall (λ c, isSpace c = true) w → trimStart (w ++ s) = trimStart s.
Proof. apply dropWhile_app_all. Qed.

(** White space around a string does not change what [trim] gives. *)
Lemma trim_padding w1 s w2 :
  Forall (λ c, isSpace c = true) w1 → Forall (λ c, isSpace c = true) w2 →
  trim (w1 ++ s ++ w2) = trim s.
Proof.
  intros Hw1 Hw2. unfold trim. rewrite trimStart_all by done. unfold trimStart.
  destruct (dropWhile isSpace s) as [|c t] eqn:Hs.
  - destruct (dropWhile_split isSpace s) as (w & Heq & Hw). rewrite Hs, app_nil_r in Heq.
    subst w. rewrite dropWhile_all; [done|]. apply Forall_app. by split.
  - rewrite dropWhile_app by (by rewrite Hs). rewrite Hs. by apply trimEnd_app_all.
Qed.

(** A string is white space, its trimmed form, and white space. *)
Lemma trim_split s :
  ∃ w1 w2, s = w1 ++ trim s ++ w2
           ∧ Forall (λ c, isSpace c = true) w1 ∧ Forall (λ c, isSpace c = true) w2.
Proof.
  destruct (dropWhile_split isSpace s) as (w1 & Hs & Hw1).
  destruct (trimEnd_split (trimStart s)) as (w2 & Ht & Hw2).
  exists w1, w2. split; [|done]. unfold trim.
  transitivity (w1 ++ trimStart s); [exact Hs|]. f_equal. exact Ht.
Qed.

(** Code units that are not white space, put in front of a trimmed
    string that is not empty, give a trimmed string. *)
Lemma trim_prefixed c t s :
  isSpace c = false → trim s ≠ [] → trim (c :: t ++ trim s) = c :: t ++ trim s.
Proof.
  intros Hc Hs. unfold trim at 1. unfold trimStart. rewrite dropWhile_fixed by done.
  change (c :: t ++ trim s) with ((c :: t) ++ trim s).
  rewrite trimEnd_app; rewrite trimEnd_trim; done.
Qed.

End Trim.

(** ** Links, photos and opening hours *)

(** X15: [safeUrl] gives nothing exactly for a missing or blank
    address; otherwise it gives an address with an http or https
    scheme, without white space around it, that [safeUrl] itself leaves
    as it is; an address that had a scheme is only trimmed. *)
Theorem safeUrl_scheme (raw : option jsstring) :
  (safeUrl raw = None ↔ trim (orElseNull raw []) = [])
  ∧ (∀ u, safeUrl raw = Some u →
       hasHttpScheme u = true ∧ trim u = u ∧ safeUrl (Some u) = Some u
       ∧ (hasHttpScheme (trim (orElseNull raw [])) = true
          → u = trim (orElseNull raw []))).
Proof.
  unfold safeUrl at 1 2. set (s := orElseNull raw []).
  destruct (trim s) as [|c t] eqn:Hs; [by split|].
  split; [by destruct (hasHttpScheme _)|]. intros u Hu.
  assert (Hout : hasHttpScheme u = true ∧ trim u = u
                 ∧ (hasHttpScheme (c :: t) = true → u = c :: t)).
  { destruct (hasHttpScheme (c :: t)) eqn:Hscheme; injection Hu as <-.
    - split_and!; [done| |done]. rewrite <- Hs. apply trim_idem.
    - split_and!; [done| |done]. rewrite <- Hs.
      apply (trim_prefixed 104 (js "ttps://")); [done|by rewrite Hs]. }
  destruct Hout as (Hscheme & Htrim & Hsame). split_and!; try done.
  unfold safeUrl. destruct u as [|d u]; [done|].
  cbn [orElseNull]. by rewrite Htrim, Hscheme.
Qed.

Lemma safeUrl_scheme_witness :
  hasHttpScheme (js "https://example.org") = true
  ∧ trim (js "https://example.org") = js "https://example.org"
  ∧ safeUrl (Some (js "https://example.org")) = Some (js "https://example.org")
  ∧ (hasHttpScheme (trim (orElseNull (Some (js " example.org ")) [])) = true
     → js "https://example.org" = trim (orElseNull (Some (js " example.org ")) [])).
Proof.
  apply (proj2 (safeUrl_scheme (Some (js " example.org ")))). reflexivity.
Defined.

(** X16: a place gets a photo address exactly when it has a photo
    reference or a place id that is not blank; a reference that is an
    http or https address is used as it is, whatever the place id, and
    every other address goes to the photo route. *)
Theorem getPhotoSrc_sources (formEncode encodeURIComponent : jsstring → jsstring)
    (photoRef placeId : option jsstring) :
  let ref := trim (orElseNull photoRef []) in
  let pid := trim (orElseNull placeId []) in
  (getPhotoSrc formEncode encodeURIComponent photoRef placeId = None
   ↔ ref = [] ∧ pid = [])
  ∧ (isDirectUrl ref = true →
     getPhotoSrc formEncode encodeURIComponent photoRef placeId = Some ref)
  ∧ (∀ src, getPhotoSrc formEncode encodeURIComponent photoRef placeId = Some src →
       isDirectUrl ref = false → startsWith src (js "/api/photo?") = true).
Proof.
  intros ref pid. unfold getPhotoSrc. fold ref pid.
  destruct ref as [|c ref'] eqn:Href.
  - cbn [isTruthy andb]. destruct pid; split_and!; try done.
    + split; [done|by intros [_ ?]].
    + by intros src [= <-].
  - cbn [isTruthy andb]. destruct (isDirectUrl (c :: ref')) eqn:Hdirect.
    + split_and!; try done. split; [done|by intros [? _]].
    + destruct pid; split_and!; try done;
        try (split; [done|by intros [? _]]); by intros src [= <-].
Qed.

Lemma getPhotoSrc_sources_witness :
  getPhotoSrc (λ s, s) (λ s, s) (Some (js "https://img.example/1.jpg")) (Some (js "ChIJ123"))
  = Some (js "https://img.example/1.jpg").
Proof.
  apply (proj1 (proj2 (getPhotoSrc_sources (λ s, s) (λ s, s)
           (Some (js "https://img.example/1.jpg")) (Some (js "ChIJ123"))))).
  reflexivity.
Defined.

Section Hours.

Implicit Types (s pending : jsstring).

Lemma replaceBars_no_bar pending afterBar s :
  124 ∉ pending → 124 ∉ replaceBars pending afterBar s.
Proof.
  revert pending afterBar. induction s as [|c s IH]; intros pending afterBar Hp; cbn;
    [done|].
  assert (Hnil : 124 ∉ @nil N) by apply not_elem_of_nil.
  destruct (isBar c) eqn:Hbar.
  - unfold spacedBullet. rewrite !not_elem_of_cons. split_and!; try done. by apply IH.
  - destruct (isSpace c) eqn:Hspace.
    + destruct afterBar; apply IH; [done|].
      rewrite not_elem_of_app, not_elem_of_cons. split_and!; try done.
      intros <-. done.
    + rewrite not_elem_of_app, not_elem_of_cons. split_and!; [done| |by apply IH].
      intros <-. done.
Qed.

Lemma replaceBars_without_bar pending s :
  124 ∉ s → replaceBars pending false s = pending ++ s.
Proof.
  revert pending. induction s as [|c s IH]; intros pending Hs; cbn;
    [by rewrite app_nil_r|].
  apply not_elem_of_cons in Hs as [Hc Hs].
  assert (Hbar : isBar c = false).
  { unfold isBar. apply N.eqb_neq. by intros ->. }
  rewrite Hbar. destruct (isSpace c).
  - rewrite IH by done. by rewrite <- app_assoc.
  - by rewrite IH.
Qed.

End Hours.

(** X17: [formatHours] gives nothing exactly for missing or blank hours;
    what it gives holds no bar any more; and hours without a bar come
    out trimmed and otherwise unchanged. *)
Theorem formatHours_bars (hours : option jsstring) :
  (formatHours hours = None ↔ trim (orElseNull hours []) = [])
  ∧ (∀ h, formatHours hours = Some h →
       (124 ∉ h)
       ∧ ((124 ∉ trim (orElseNull hours [])) → h = trim (orElseNull hours []))).
Proof.
  unfold formatHours. destruct (trim (orElseNull hours [])) as [|c t]; [by split|].
  split; [done|]. intros h Hh. apply (inj Some) in Hh as <-. split.
  - apply replaceBars_no_bar, not_elem_of_nil.
  - intros Hbar. by rewrite replaceBars_without_bar.
Qed.

Lemma formatHours_bars_witness :
  (124 ∉ js "a" ++ spacedBullet ++ js "b")
  ∧ ((124 ∉ trim (orElseNull (Some (js " a | b ")) []))
     → js "a" ++ spacedBullet ++ js "b" = trim (orElseNull (Some (js " a | b ")) [])).
Proof. apply (proj2 (formatHours_bars (Some (js " a | b ")))). reflexivity. Defined.

Example hours_samples :
  formatHours (Some (js "Mon: 9-5 | Tue: 9-5|Wed  |  closed"))
  = Some (js "Mon: 9-5" ++ spacedBullet ++ js "Tue: 9-5" ++ spacedBullet
          ++ js "Wed" ++ spacedBullet ++ js "closed")
  ∧ formatHours (Some (js "  a b  | | c ")) = Some (js "a b" ++ spacedBullet ++ spacedBullet ++ js "c")
  ∧ formatHours (Some (js "   ")) = None
  ∧ formatHours None = None.
Proof. by vm_compute. Qed.

(** X18: the hash behind [hashColor] is the polynomial hash in base 31
    modulo 2^32: the hash of two strings put together is the hash of the
    first, shifted by the length of the second, plus the hash of the
    second; and the hue is below 360. *)
Theorem hashOf_concat (s t : jsstring) :
  hashOf (s ++ t) = (hashOf s * 31 ^ N.of_nat (length t) + hashOf t) mod 2 ^ 32
  ∧ hashOf s < 2 ^ 32
  ∧ hashOf s mod 360 < 360.
Proof.
  assert (Hsnoc : ∀ u c, hashOf (u ++ [c]) = hashStep (hashOf u) c).
  { intros u c. unfold hashOf. by rewrite foldl_app. }
  assert (Hlt : ∀ u, hashOf u < 2 ^ 32).
  { intros u. induction u as [|c u _] using rev_ind; [done|].
    rewrite Hsnoc. unfold hashStep. by apply N.mod_lt. }
  split_and!; [|apply Hlt|by apply N.mod_lt].
  induction t as [|c t IH] using rev_ind.
  - rewrite app_nil_r. cbn. rewrite N.mul_1_r, N.add_0_r.
    symmetry. apply N.mod_small, Hlt.
  - rewrite app_assoc, !Hsnoc, IH. unfold hashStep. rewrite length_app. cbn [length].
    rewrite Nat2N.inj_add, N.pow_add_r. change (N.of_nat 1) with 1. rewrite N.pow_1_r.
    set (hs := hashOf s). set (ht := hashOf t). set (n := N.of_nat (length t)).
    set (M := 2 ^ 32).
    rewrite (N.Div0.add_mod (_ mod M * 31)), (N.Div0.mul_mod (_ mod M)), N.Div0.mod_mod.
    rewrite <- N.Div0.mul_mod, <- N.Div0.add_mod.
    rewrite N.Div0.add_mod_idemp_r. f_equal. lia.
Qed.

(** ** More on tag canonicalisation *)

Section CanonicalisationMore.

Implicit Types (s w raw : jsstring) (tg : TagGuide) (tagsData : list TagGuide).

Lemma clean_app s1 s2 : cleanTagSpaces (s1 ++ s2) = cleanTagSpaces s1 ++ cleanTagSpaces s2.
Proof. unfold cleanTagSpaces, replaceEach. by rewrite !bind_app. Qed.

Lemma clean_spaces w :
  Forall (λ c, isSpace c = true) w → Forall (λ c, isSpace c = true) (cleanTagSpaces w).
Proof.
  induction 1 as [|c w Hc _ IH]; [constructor|].
  change (c :: w) with ([c] ++ w). rewrite clean_app. apply Forall_app. split; [|done].
  unfold cleanTagSpaces, replaceEach. cbn. destruct (isNbsp c) eqn:Hnbsp; cbn.
  - by repeat constructor.
  - rewrite app_nil_r. destruct (isZeroWidth c); by repeat constructor.
Qed.

(** White space around a tag does not change its key. *)
Lemma normalizeTagKey_trim {cm : CaseMapping}
    s : normalizeTagKey (trim s) = normalizeTagKey s.
Proof.
  unfold normalizeTagKey. rewrite !orElse_nil_r. fold (cleanTagSpaces (trim s)) (cleanTagSpaces s).
  destruct (trim_split s) as (w1 & w2 & Hs & Hw1 & Hw2).
  rewrite Hs at 2. rewrite !clean_app.
  by rewrite trim_padding by (by apply clean_spaces).
Qed.

Lemma displayToTag_registered {cm : CaseMapping} tagsData tg :
  tg ∈ tagsData → canonicalOf tg ≠ [] → display_name tg ≠ [] →
  is_Some (displayToTag (buildTables tagsData)
             !! normalizeTagKey (trim (display_name tg))).
Proof.
  induction tagsData as [|tg' tagsData IH] using rev_ind.
  - by intros ?%elem_of_nil.
  - intros Hin Hcan Hdn. rewrite buildTables_snoc. unfold addTagGuide.
    apply elem_of_app in Hin as [Hin|Hin%list_elem_of_singleton]; [|subst tg'].
    + destruct (canonicalOf tg'); [by apply IH|].
      cbn [displayToTag]. apply setAll_is_Some. right. by apply IH.
    + destruct (canonicalOf tg) eqn:Heq; [done|].
      cbn [displayToTag]. apply setAll_is_Some. left. unfold displayKeys.
      destruct (display_name tg); [done|]. by left.
Qed.

Lemma replaceRunsFrom_free (f : N → bool) (r : jsstring) (inRun : bool) s :
  Forall (λ c, f c = false) r →
  Forall (λ c, f c = false) (replaceRunsFrom f r inRun s).
Proof.
  intros Hr. revert inRun. induction s as [|c s IH]; intros inRun; cbn; [constructor|].
  destruct (f c) eqn:Hc.
  - apply Forall_app. split; [by destruct inRun|apply IH].
  - by constructor.
Qed.

(** What [canonicalizeTag] can give: nothing, an identifier of the
    guide, or a spelling of its own without white space. *)
Lemma canonicalizeTag_cases {cm : CaseMapping} tagsData raw :
  canonicalizeTag (buildTables tagsData) raw = []
  ∨ (∃ tg, tg ∈ tagsData ∧ canonicalOf tg = canonicalizeTag (buildTables tagsData) raw)
  ∨ Forall (λ c, isSpace c = false) (canonicalizeTag (buildTables tagsData) raw).
Proof.
  unfold canonicalizeTag. destruct (normalizeTagKey _) as [|c key]; [by left|].
  right. unfold getOr.
  destruct (displayToTag _ !! _) as [v|] eqn:Hd.
  - apply displayToTag_lookup in Hd as (tg & Hin & <- & Hv & _).
    left. exists tg. split; [done|]. by destruct (canonicalOf tg).
  - destruct (tagLowerToTag _ !! _) as [v|] eqn:Ht.
    + apply tagLowerToTag_lookup in Ht as (tg & Hin & <- & Hv & _).
      left. exists tg. split; [done|]. by destruct (canonicalOf tg).
    + right. apply replaceRunsFrom_free. by repeat constructor.
Qed.

End CanonicalisationMore.

(** X19: a raw tag with the normalised key of the display name of a
    guide entry, that is the same text up to the case folding of
    [toLowerCase] and the white space in and around it, is canonicalised
    to the identifier of the entry, provided the key is not empty and the
    entries that register it as a display key all have that
    identifier. *)
Theorem canonicalizeTag_display_name {cm : CaseMapping}
    (tagsData : list TagGuide) (tg : TagGuide) (raw : jsstring) :
  tg ∈ tagsData → canonicalOf tg ≠ [] →
  normalizeTagKey raw = normalizeTagKey (display_name tg) →
  normalizeTagKey raw ≠ [] →
  (∀ tg', tg' ∈ tagsData → canonicalOf tg' ≠ [] →
          normalizeTagKey raw ∈ displayKeys tg' → canonicalOf tg' = canonicalOf tg) →
  canonicalizeTag (buildTables tagsData) raw = canonicalOf tg.
Proof.
  intros Hin Hcan Hraw Hkey Hsame.
  assert (Hdn : display_name tg ≠ []).
  { intros Hdn. rewrite Hraw, Hdn, normalizeTagKey_nil in Hkey. by apply Hkey. }
  pose proof (displayToTag_registered tagsData tg Hin Hcan Hdn) as [v Hv].
  rewrite normalizeTagKey_trim, <- Hraw in Hv.
  unfold canonicalizeTag. rewrite normalizeTagKey_cleaned.
  destruct (normalizeTagKey raw) as [|c key] eqn:Hk; [done|].
  unfold getOr. rewrite Hv.
  apply displayToTag_lookup in Hv as (tg' & Hin' & <- & Hne & Hkeys).
  rewrite (Hsame tg' Hin' Hne Hkeys). by destruct (canonicalOf tg).
Qed.

Lemma canonicalizeTag_display_name_witness :
  canonicalizeTag (buildTables sampleGuide) (js "  esol   CLASSES ") = js "esol_classes".
Proof.
  apply (canonicalizeTag_display_name sampleGuide (guide "esol_classes" "ESOL Classes")).
  - by left.
  - by vm_compute.
  - by vm_compute.
  - by vm_compute.
  - intros tg' Hin _ Hreg.
    apply elem_of_cons in Hin as [->|Hin]; [reflexivity|].
    apply list_elem_of_singleton in Hin as ->. exfalso.
    vm_compute in Hreg.
    repeat (apply elem_of_cons in Hreg as [[=]|Hreg]).
    by apply elem_of_nil in Hreg.
Defined.

(** X20: a successful load changes nothing of the places but their
    tags: each stored place agrees with the loaded place at the same
    position on every field other than the tags, so the places keep
    their number, their order and their identity keys; its tags are the
    canonical forms of the loaded tags that are not empty, in order, so
    that no stored tag is empty and every one is an identifier of the
    guide or a spelling without white space. *)
Theorem load_changes_only_tags {cm : CaseMapping} (ps : list Place)
    (ts : list TagGuide) (st : Dashboard.State) :
  let st' := load (Fulfilled (Fulfilled ps, Fulfilled ts)) st in
  Forall2 (λ p' p,
      agreeExceptTags p' p
      ∧ service_tags p'
        = filter (λ t, t ≠ []) (canonicalizeTag (buildTables ts) <$> service_tags p))
    (places st') ps
  ∧ placeKey <$> places st' = placeKey <$> ps
  ∧ length (places st') = length ps
  ∧ (∀ p t, p ∈ places st' → t ∈ service_tags p →
       t ≠ []
       ∧ ((∃ tg, tg ∈ ts ∧ canonicalOf tg = t) ∨ Forall (λ c, isSpace c = false) t)).
Proof.
  intros st'. cbn. split_and!.
  - apply Forall2_fmap_l, Forall_Forall2_diag, Forall_forall. intros p _.
    split; [by repeat split|]. cbn. unfold canonicalizeTags.
    apply list_filter_iff. intros t. by destruct t.
  - rewrite <- list_fmap_compose. by apply list_fmap_ext.
  - apply length_fmap.
  - intros p t (p0 & -> & Hp0)%list_elem_of_fmap. cbn. unfold canonicalizeTags.
    intros [Ht (raw & -> & Hraw)%list_elem_of_fmap]%list_elem_of_filter.
    split; [by intros Heq; rewrite Heq in Ht|].
    destruct (canonicalizeTag_cases ts raw) as [Hnil|Hcases];
      [by rewrite Hnil in Ht|done].
Qed.

(** ** The photo route *)

Section PhotoRouteProps.

Variables (params : list (jsstring * jsstring)) (env : PhotoRoute.Env).
Variables (first details second : Settled Upstream).

Lemma effectiveWidth_range :
  (50 <=? effectiveWidth params)%float = true
  ∧ (effectiveWidth params <=? 1600)%float = true.
Proof.
  unfold effectiveWidth. destruct (isFinite _) eqn:Hfin; [|done].
  by apply clamp_50_1600, isFinite_not_nan.
Qed.

Lemma isTruthy_nil (s : jsstring) : isTruthy s = false ↔ s = [].
Proof. by destruct s. Qed.

Lemma isTruthy_cons (s : jsstring) : isTruthy s = true ↔ s ≠ [].
Proof. by destruct s. Qed.

End PhotoRouteProps.

Ltac GET_cases :=
  repeat match goal with
  | |- context [match ?x with _ => _ end] =>
      match type of x with
      | Settled _ => destruct x eqn:?
      | option _ => destruct x eqn:?
      | list _ => destruct x eqn:?
      | bool => destruct x eqn:?
      end; cbn in *
  | H : context [match ?x with _ => _ end] |- _ =>
      match type of x with
      | Settled _ => destruct x eqn:?
      | option _ => destruct x eqn:?
      | list _ => destruct x eqn:?
      | bool => destruct x eqn:?
      end; cbn in *
  end.

(** X21: a request with neither [ref] nor a place id is answered 400, and
    one with either of them but no API key in the environment is answered
    500; in both cases nothing is requested upstream and nothing is
    logged, whatever the network would have answered. *)
Theorem GET_validates_first (params : list (jsstring * jsstring))
    (env : PhotoRoute.Env) (first details second : Settled Upstream) :
  (refParam params = [] → placeIdParam params = [] →
     GET params env first details second = ([], Fulfilled (JsonError 400 missingRef)))
  ∧ ((refParam params ≠ [] ∨ placeIdParam params ≠ []) → apiKey env = [] →
     GET params env first details second = ([], Fulfilled (JsonError 500 missingKey))).
Proof.
  unfold GET. split.
  - by intros -> ->.
  - intros Hsome ->. cbn.
    destruct (refParam params), (placeIdParam params); cbn; try done.
    by destruct Hsome.
Qed.

Lemma GET_validates_first_witness :
  GET [] sampleEnv (Fulfilled jpeg) (Fulfilled jpeg) (Fulfilled jpeg)
    = ([], Fulfilled (JsonError 400 missingRef))
  ∧ GET [(js "ref", js "abc")] {| GOOGLE_PLACES_API_KEY := None; GOOGLE_MAPS_API_KEY := Some [] |}
      (Fulfilled jpeg) (Fulfilled jpeg) (Fulfilled jpeg)
    = ([], Fulfilled (JsonError 500 missingKey)).
Proof.
  split.
  - apply (proj1 (GET_validates_first [] sampleEnv (Fulfilled jpeg) (Fulfilled jpeg)
                    (Fulfilled jpeg))); reflexivity.
  - apply (proj2 (GET_validates_first [(js "ref", js "abc")]
                    {| GOOGLE_PLACES_API_KEY := None; GOOGLE_MAPS_API_KEY := Some [] |}
                    (Fulfilled jpeg) (Fulfilled jpeg) (Fulfilled jpeg))).
    + by left.
    + reflexivity.
Defined.

(** X22: whatever the network answers, the handler makes at most three
    upstream requests, every one of them carries the API key of the
    environment, and every photo request asks for a width from 50 to
    1600. *)
Theorem GET_requests (params : list (jsstring * jsstring))
    (env : PhotoRoute.Env) (first details second : Settled Upstream) :
  let run := GET params env first details second in
  (length (requests run) ≤ 3)%nat
  ∧ Forall (λ req,
      requestKey req = apiKey env
      ∧ ∀ w, requestedWidth req = Some w →
             (50 <=? w)%float = true ∧ (w <=? 1600)%float = true)
      (requests run).
Proof.
  intros run. subst run. unfold GET, requests.
  pose proof (effectiveWidth_range params) as Hw.
  set (w := effectiveWidth params) in *. clearbody w.
  set (key := apiKey env). clearbody key.
  set (ref := refParam params). clearbody ref.
  set (placeId := placeIdParam params). clearbody placeId.
  assert (Hreq : ∀ req : Request,
            requestKey req = key → requestedWidth req = Some w ∨ requestedWidth req = None →
            requestKey req = key
            ∧ ∀ w', requestedWidth req = Some w' →
                    (50 <=? w')%float = true ∧ (w' <=? 1600)%float = true).
  { intros req Hk [Hr|Hr]; (split; [done|]); intros w'; rewrite Hr; [|done].
    by intros [= <-]. }
  unfold fetchUpstream, consoleError, arrayBuffer, Handler.ret, Handler.bindRun.
  cbn.
  GET_cases; cbn; (split; [lia|]);
    repeat (apply Forall_cons; split; [apply Hreq; cbn; auto|]);
    by try apply Forall_nil.
Qed.

(** X23: when the handler replies, the reply is never the one for "no
    upstream request made", its status is 200, 400, 500 or 502, and a 200
    reply carries the content and the type (by default [image/jpeg]) of a
    response that was ok: one of the two photo responses, or a details
    response that had no body.  The JSON of a details response is never
    served as the image. *)
Theorem GET_reply (params : list (jsstring * jsstring))
    (env : PhotoRoute.Env) (first details second : Settled Upstream) (r : Reply) :
  (GET params env first details second).2 = Fulfilled r →
  r ≠ NoUpstreamRequest
  ∧ httpStatus r ∈ [200; 400; 500; 502]
  ∧ ∀ type content, r = Image type content →
      ∃ u, ok u = true
           ∧ type = orElseNull (contentType u) (js "image/jpeg")
           ∧ content = from_option bytes [] (body u)
           ∧ (first = Fulfilled u ∨ second = Fulfilled u
              ∨ (details = Fulfilled u ∧ body u = None)).
Proof.
  unfold GET.
  set (w := effectiveWidth params). clearbody w.
  set (key := apiKey env). clearbody key.
  set (ref := refParam params). clearbody ref.
  set (placeId := placeIdParam params). clearbody placeId.
  unfold fetchUpstream, consoleError, arrayBuffer, Handler.ret, Handler.bindRun.
  cbn.
  intros Hr. GET_cases; simplify_eq/=;
    repeat match goal with
    | H : negb _ = false |- _ => apply negb_false_iff in H
    | H : negb _ = true |- _ => apply negb_true_iff in H
    end; try congruence;
    (split; [done|]); (split; [set_solver|]);
    intros type content ?; simplify_eq/=;
    match goal with
    | u : Upstream |- _ =>
        solve [exists u; split_and!;
               [assumption | reflexivity
               | by match goal with H : body u = _ |- _ => rewrite H end
               | auto]]
    end.
Qed.

Lemma GET_reply_witness :
  httpStatus (Image (js "image/jpeg") [255; 216; 255]) ∈ [200; 400; 500; 502].
Proof.
  apply (GET_reply [(js "ref", js "abc")] sampleEnv (Fulfilled jpeg)
           (Fulfilled noPhotos) (Fulfilled jpeg)).
  reflexivity.
Defined.

(** X24: the details of the place are requested exactly when there is an
    API key and a place id and the first attempt was not made (no [ref])
    or was answered with a status that is not ok. *)
Theorem GET_fallback (params : list (jsstring * jsstring))
    (env : PhotoRoute.Env) (first details second : Settled Upstream) :
  PlaceDetails (placeIdParam params) (apiKey env)
    ∈ requests (GET params env first details second)
  ↔ apiKey env ≠ [] ∧ placeIdParam params ≠ []
    ∧ (refParam params = [] ∨ ∃ u, first = Fulfilled u ∧ ok u = false).
Proof.
  unfold GET, requests.
  set (w := effectiveWidth params). clearbody w.
  set (key := apiKey env). clearbody key.
  set (ref := refParam params). clearbody ref.
  set (placeId := placeIdParam params). clearbody placeId.
  unfold fetchUpstream, consoleError, arrayBuffer, Handler.ret, Handler.bindRun.
  cbn. split.
  - intros Hin. GET_cases; simplify_eq/=;
      repeat match goal with
      | H : _ ∈ [] |- _ => by apply elem_of_nil in H
      | H : _ ∈ _ :: _ |- _ => apply elem_of_cons in H as [H|H]
      | H : _ && _ = true |- _ => apply andb_true_iff in H as [? ?]
      | H : negb _ = false |- _ => apply negb_false_iff in H
      | H : negb _ = true |- _ => apply negb_true_iff in H
      | H : isTruthy _ = false |- _ => apply isTruthy_nil in H
      | H : isTruthy _ = true |- _ => apply isTruthy_cons in H
      end; simplify_eq/=; split_and!; try done; eauto.
  - intros (Hk & Hp & Hfirst).
    destruct key as [|k key]; [done|]. destruct placeId as [|c placeId]; [done|].
    destruct Hfirst as [->|(u & -> & Hu)]; cbn.
    + GET_cases; set_solver.
    + destruct ref; cbn; rewrite ?Hu; cbn; GET_cases; set_solver.
Qed.

(** X25: when there is an API key and a [ref] and the first attempt is
    answered ok, that attempt is the only request, made to the new
    endpoint for a photo name and to the legacy one otherwise, and the
    reply is the 200 with its content; the place id plays no part. *)
Theorem GET_direct (params : list (jsstring * jsstring))
    (env : PhotoRoute.Env) (u : Upstream) (details second : Settled Upstream) :
  apiKey env ≠ [] → refParam params ≠ [] → ok u = true →
  GET params env (Fulfilled u) details second
  = ([Fetch (photoRequest (refParam params) (effectiveWidth params) (apiKey env))],
     match body u with
     | Some b => Fulfilled (Image (orElseNull (contentType u) (js "image/jpeg")) (bytes b))
     | None => Fulfilled (Image (orElseNull (contentType u) (js "image/jpeg")) [])
     end).
Proof.
  unfold GET, photoRequest.
  set (w := effectiveWidth params). clearbody w.
  destruct (apiKey env) as [|k key]; [done|].
  destruct (refParam params) as [|c ref]; [done|].
  intros _ _ Hok.
  generalize (isNewPlacesPhotoName (c :: ref)). intros isNew.
  unfold fetchUpstream, consoleError, arrayBuffer, Handler.ret, Handler.bindRun. cbn.
  destruct isNew, (body u) eqn:Hb; do 3 (cbn; rewrite ?Hok, ?Hb); done.
Qed.

Lemma GET_direct_witness :
  GET [(js "ref", js "places/p1/photos/a"); (js "placeId", js "p1")] sampleEnv
    (Fulfilled jpeg) (Fulfilled noPhotos) (Fulfilled jpeg)
  = ([Fetch (NewPhoto (js "places/p1/photos/a") 400 (js "k"))],
     Fulfilled (Image (js "image/jpeg") [255; 216; 255])).
Proof.
  apply (GET_direct [(js "ref", js "places/p1/photos/a"); (js "placeId", js "p1")]
           sampleEnv jpeg (Fulfilled noPhotos) (Fulfilled jpeg)).
  - by vm_compute.
  - by vm_compute.
  - reflexivity.
Defined.

(** X26: when the first attempt is missing or not ok, there is a place
    id, and the details name a first photo, the photo is requested by
    that name with the same width and key, after the details, and the
    answer to that request alone decides the reply: its content with 200
    when it is ok, a 502 that reports its status when it is not. *)
Theorem GET_fresh_photo (params : list (jsstring * jsstring))
    (env : PhotoRoute.Env) (first : Settled Upstream) (d u : Upstream)
    (name : jsstring) :
  let run := GET params env first (Fulfilled d) (Fulfilled u) in
  apiKey env ≠ [] → placeIdParam params ≠ [] →
  (refParam params = [] ∨ ∃ u1, first = Fulfilled u1 ∧ ok u1 = false) →
  ok d = true → photoNameOf d = Some name → name ≠ [] →
  requests run
  = (if isTruthy (refParam params)
     then [photoRequest (refParam params) (effectiveWidth params) (apiKey env)]
     else [])
    ++ [PlaceDetails (placeIdParam params) (apiKey env);
        NewPhoto name (effectiveWidth params) (apiKey env)]
  ∧ if ok u
    then run.2 = Fulfilled (Image (orElseNull (contentType u) (js "image/jpeg"))
                              (from_option bytes [] (body u)))
    else ∃ type text hint, run.2 = Fulfilled (UpstreamError (status u) type text hint).
Proof.
  intros run. subst run. unfold GET, photoRequest, requests.
  set (w := effectiveWidth params). clearbody w.
  destruct (apiKey env) as [|k key]; [done|].
  destruct (placeIdParam params) as [|c placeId]; [done|].
  intros _ _ Hfirst Hd Hname Hne.
  destruct name as [|n name]; [done|]. clear Hne.
  unfold fetchUpstream, consoleError, arrayBuffer, Handler.ret, Handler.bindRun.
  generalize (isNewPlacesPhotoName (refParam params)). intros isNew.
  destruct (ok u) eqn:Hu, (body u) eqn:Hb, isNew;
    (destruct Hfirst as [->|(u1 & -> & Hu1)];
     [|destruct (refParam params) as [|r ref];
       [|destruct (status u1 =? 0) eqn:Hz]]);
    do 4 (cbn; rewrite ?Hd, ?Hname, ?Hu, ?Hb, ?Hu1, ?Hz); eauto.
Qed.

Lemma GET_fresh_photo_witness :
  requests (GET [(js "placeId", js "p1"); (js "w", js "640")] sampleEnv
              (Rejected []) (Fulfilled onePhoto) (Fulfilled jpeg))
  = [PlaceDetails (js "p1") (js "k"); NewPhoto (js "places/p1/photos/a") 640 (js "k")]
  ∧ (GET [(js "placeId", js "p1"); (js "w", js "640")] sampleEnv
       (Rejected []) (Fulfilled onePhoto) (Fulfilled jpeg)).2
    = Fulfilled (Image (js "image/jpeg") [255; 216; 255]).
Proof.
  apply (GET_fresh_photo [(js "placeId", js "p1"); (js "w", js "640")] sampleEnv
           (Rejected []) onePhoto jpeg (js "places/p1/photos/a")).
  - by vm_compute.
  - by vm_compute.
  - by left.
  - reflexivity.
  - reflexivity.
  - by vm_compute.
Defined.

(** X27: a request by place id alone, for a place whose details are
    answered ok with a body that names no photo, gets no reply: after the
    one request for the details the handler ends with the exception of
    reading that body a second time. *)
Theorem GET_place_without_photos (params : list (jsstring * jsstring))
    (env : PhotoRoute.Env) (first second : Settled Upstream) (d : Upstream) (b : Body) :
  apiKey env ≠ [] → refParam params = [] → placeIdParam params ≠ [] →
  ok d = true → body d = Some b →
  firstPhotoName b = None ∨ firstPhotoName b = Some [] →
  GET params env first (Fulfilled d) second
  = ([Fetch (PlaceDetails (placeIdParam params) (apiKey env))], Rejected bodyUsed).
Proof.
  unfold GET.
  destruct (apiKey env) as [|k key]; [done|].
  destruct (placeIdParam params) as [|c placeId]; [done|].
  intros _ -> _ Hd Hb Hname.
  unfold fetchUpstream, consoleError, arrayBuffer, Handler.ret, Handler.bindRun, photoNameOf.
  destruct Hname as [Hname|Hname];
    do 4 (cbn; rewrite ?Hd, ?Hb, ?Hname); done.
Qed.

Lemma GET_place_without_photos_witness :
  GET [(js "placeId", js "p1")] sampleEnv (Rejected []) (Fulfilled noPhotos) (Rejected [])
  = ([Fetch (PlaceDetails (js "p1") (js "k"))], Rejected bodyUsed).
Proof.
  apply (GET_place_without_photos [(js "placeId", js "p1")] sampleEnv
           (Rejected []) (Rejected []) noPhotos
           {| text := js "{}"; bytes := [123; 125]; firstPhotoName := None |}).
  - by vm_compute.
  - reflexivity.
  - by vm_compute.
  - reflexivity.
  - reflexivity.
  - by left.
Defined.

(** ** Regular expressions *)

Section RegExpProps.

Import RegExp.

Lemma nullable_Matches (r : Regex) : nullable r = true ↔ Matches r [].
Proof.
  induction r as [| |f|r1 IH1 r2 IH2|r1 IH1 r2 IH2|r IH]; cbn.
  - split; [done|]. inversion 1.
  - split; [constructor|done].
  - split; [done|]. inversion 1.
  - rewrite andb_true_iff, IH1, IH2. split.
    + intros [H1 H2]. by apply (MSeq _ _ [] []).
    + inversion 1 as [| |? ? s1 s2 H1 H2 Hr Hs| | | |]; subst.
      by apply app_eq_nil in Hs as [-> ->].
  - rewrite orb_true_iff, IH1, IH2. split.
    + intros [H|H]; by constructor.
    + inversion 1; subst; auto.
  - split; [constructor|done].
Qed.

Lemma Matches_Star_cons (r : Regex) (c : N) (s : jsstring) :
  Matches (Star r) (c :: s) →
  ∃ s1 s2, s = s1 ++ s2 ∧ Matches r (c :: s1) ∧ Matches (Star r) s2.
Proof.
  intros H. remember (Star r) as r' eqn:Hr. remember (c :: s) as cs eqn:Hs.
  revert s Hs.
  induction H as [| | | | | |r0 s1 s2 H1 _ H2 IH2]; intros t Ht; try done.
  injection Hr as ->. destruct s1 as [|c1 s1]; cbn in Ht.
  - by apply IH2.
  - injection Ht as -> <-. by exists s1, s2.
Qed.

Lemma deriv_Matches (r : Regex) (c : N) (s : jsstring) :
  Matches (deriv c r) s ↔ Matches r (c :: s).
Proof.
  revert s.
  induction r as [| |f|r1 IH1 r2 IH2|r1 IH1 r2 IH2|r IH]; intros s; cbn.
  - split; inversion 1.
  - split; inversion 1.
  - destruct (f c) eqn:Hf; split.
    + inversion 1; subst. by constructor.
    + inversion 1; subst. constructor.
    + inversion 1.
    + inversion 1; subst. congruence.
  - split.
    + inversion 1 as [| | |? ? ? H1|? ? ? H2| |]; subst.
      * inversion H1 as [| |? ? s1 s2 Ha Hb| | | |]; subst.
        apply IH1 in Ha. by apply (MSeq _ _ (c :: s1) s2).
      * destruct (nullable r1) eqn:Hn; [|inversion H2].
        apply IH2 in H2. apply nullable_Matches in Hn.
        by apply (MSeq _ _ [] (c :: s)).
    + inversion 1 as [| |? ? s1 s2 Ha Hb Hr Hs| | | |]; subst.
      destruct s1 as [|c1 s1]; cbn in Hs.
      * subst s2. apply MAltR.
        apply nullable_Matches in Ha. rewrite Ha. by apply IH2.
      * injection Hs as -> <-. apply MAltL. constructor; [by apply IH1|done].
  - split.
    + inversion 1; subst; [apply MAltL; by apply IH1|apply MAltR; by apply IH2].
    + inversion 1; subst; [apply MAltL; by apply IH1|apply MAltR; by apply IH2].
  - split.
    + inversion 1 as [| |? ? s1 s2 Ha Hb| | | |]; subst.
      apply IH in Ha. by apply (MStarApp _ (c :: s1) s2).
    + intros (s1 & s2 & -> & Ha & Hb)%Matches_Star_cons.
      constructor; [by apply IH|done].
Qed.

(** The test decides membership. *)
Lemma test_Matches (r : Regex) (s : jsstring) : test r s = true ↔ Matches r s.
Proof.
  unfold test. revert r.
  induction s as [|c s IH]; intros r; cbn.
  - apply nullable_Matches.
  - by rewrite IH, deriv_Matches.
Qed.

Lemma Matches_Class (f : N → bool) (s : jsstring) :
  Matches (Class f) s ↔ ∃ c, s = [c] ∧ f c = true.
Proof.
  split.
  - inversion 1; subst. eauto.
  - intros (c & -> & Hc). by constructor.
Qed.

Lemma Matches_Star_Class (f : N → bool) (s : jsstring) :
  Matches (Star (Class f)) s ↔ forallb f s = true.
Proof.
  split.
  - intros H. remember (Star (Class f)) as r eqn:Hr.
    induction H as [| | | | | |r0 s1 s2 H1 _ H2 IH2]; try done.
    injection Hr as ->. apply Matches_Class in H1 as (c & -> & Hc).
    cbn. rewrite Hc. by apply IH2.
  - induction s as [|c s IH]; cbn; [constructor|].
    intros [Hc Hs]%andb_true_iff.
    apply (MStarApp _ [c] s); [by constructor|by apply IH].
Qed.

Lemma Matches_Plus_Class (f : N → bool) (s : jsstring) :
  Matches (Plus (Class f)) s ↔ s ≠ [] ∧ forallb f s = true.
Proof.
  unfold Plus. split.
  - inversion 1 as [| |? ? s1 s2 Ha Hb| | | |]; subst.
    apply Matches_Class in Ha as (c & -> & Hc).
    apply Matches_Star_Class in Hb. cbn. by rewrite Hc.
  - destruct s as [|c s]; [by intros [? _]|].
    cbn. intros [_ [Hc Hs]%andb_true_iff].
    apply (MSeq _ _ [c] s); [by constructor|by apply Matches_Star_Class].
Qed.

Lemma Matches_Seq (r1 r2 : Regex) (s : jsstring) :
  Matches (Seq r1 r2) s ↔ ∃ s1 s2, s = s1 ++ s2 ∧ Matches r1 s1 ∧ Matches r2 s2.
Proof.
  split.
  - inversion 1; subst. eauto.
  - intros (s1 & s2 & -> & H1 & H2). by constructor.
Qed.

End RegExpProps.

(** The addresses the form accepts: one [@], after a local part and
    before a domain with a dot inside it, and neither white space nor a
    second [@] anywhere. *)
Lemma emailRegex_test (s : jsstring) :
  RegExp.test Feedback.emailRegex s = true
  ↔ ∃ a b c, s = a ++ 64 :: b ++ 46 :: c
             ∧ a ≠ [] ∧ b ≠ [] ∧ c ≠ []
             ∧ forallb Feedback.plain (a ++ b ++ c) = true.
Proof.
  rewrite test_Matches. unfold Feedback.emailRegex.
  rewrite Matches_Seq. split.
  - intros (a & s1 & -> & Ha & H1). apply Matches_Seq in H1 as (at' & s2 & -> & Hat & H2).
    apply Matches_Seq in H2 as (b & s3 & -> & Hb & H3).
    apply Matches_Seq in H3 as (dot & c & -> & Hdot & Hc).
    apply Matches_Class in Hat as (x & -> & ->%N.eqb_eq).
    apply Matches_Class in Hdot as (y & -> & ->%N.eqb_eq).
    apply Matches_Plus_Class in Ha as [? Ha], Hb as [? Hb], Hc as [? Hc].
    exists a, b, c. split_and!; try done.
    by rewrite !forallb_app, Ha, Hb, Hc.
  - intros (a & b & c & -> & ? & ? & ? & Hall).
    rewrite !forallb_app, !andb_true_iff in Hall. destruct Hall as (Ha & Hb & Hc).
    exists a, (64 :: b ++ 46 :: c). split_and!; [done|by apply Matches_Plus_Class|].
    apply (RegExp.MSeq _ _ [64]); [by constructor|].
    apply RegExp.MSeq; [by apply Matches_Plus_Class|].
    apply (RegExp.MSeq _ _ [46]); [by constructor|].
    by apply Matches_Plus_Class.
Qed.

Example email_samples :
  RegExp.test Feedback.emailRegex (js "ana@example.org") = true
  ∧ RegExp.test Feedback.emailRegex (js "a@b.c.d") = true
  ∧ RegExp.test Feedback.emailRegex (js "a@b") = false
  ∧ RegExp.test Feedback.emailRegex (js "a@b.") = false
  ∧ RegExp.test Feedback.emailRegex (js "a b@c.d") = false
  ∧ RegExp.test Feedback.emailRegex (js "a@b@c.d") = false
  ∧ RegExp.test Feedback.emailRegex (js "@b.c") = false.
Proof. by vm_compute. Qed.

(** ** The feedback route *)

Section FeedbackRoute.

Import Feedback.

Lemma truthy_orJson (v : option Json) (d : Json) :
  truthy v = true → Some (orJson v d) = v.
Proof. destruct v as [v|]; [|done]. cbn [orJson]. by intros ->. Qed.

Lemma truthy_orJson_default (v : option Json) (d : Json) :
  truthy (Some d) = true → truthy (Some (orJson v d)) = true.
Proof.
  intros Hd. destruct v as [v|]; [|done]. cbn [orJson].
  by destruct (truthy (Some v)) eqn:Hv.
Qed.

Lemma unset_false (v : option jsstring) :
  unset v = false ↔ ∃ s, v = Some s ∧ s ≠ [].
Proof.
  unfold unset. destruct v as [[|c s]|]; cbn; split; try done.
  - by intros (s & [= <-] & ?).
  - intros _. by eexists.
  - by intros (s & ? & ?).
Qed.

End FeedbackRoute.

(** X28: the feedback route always replies, with 200, 400 or 500.  It
    replies 400 exactly when the body is JSON other than [null] with one
    of the four fields missing or falsy; it sends at most one request to
    Airtable, and sends it exactly when all four fields are truthy and
    the base and the API key are configured; and it replies 200 only
    after Airtable has answered that request ok. *)
Theorem POST_replies (body : Settled Feedback.Json) (env : Feedback.Env)
    (now : jsstring) (answer : Settled Feedback.Response) :
  let served := Feedback.POST body env now answer in
  Feedback.code served.2 ∈ [200; 400; 500]
  ∧ (Feedback.code served.2 = 400
     ↔ ∃ b, body = Fulfilled b ∧ b ≠ Feedback.JNull ∧ Feedback.complete b = false)
  ∧ (length (Feedback.sent served.1) ≤ 1)%nat
  ∧ (Feedback.sent served.1 ≠ []
     ↔ ∃ b, body = Fulfilled b ∧ Feedback.complete b = true
            ∧ Feedback.configured env = true)
  ∧ (Feedback.code served.2 = 200
     → ∃ r, answer = Fulfilled r ∧ Feedback.ok r = true
            ∧ Feedback.sent served.1 ≠ []).
Proof.
  intros served. subst served.
  unfold Feedback.POST, Feedback.attempt, Feedback.complete, Feedback.configured.
  unfold Handler.await, Handler.ret, Handler.bindRun.
  assert (Hin200 : (200:N) ∈ [200; 400; 500]) by (by left).
  assert (Hin400 : (400:N) ∈ [200; 400; 500]) by (right; by left).
  assert (Hin500 : (500:N) ∈ [200; 400; 500]) by (do 2 right; by left).
  destruct body as [b|e].
  2:{ cbn. split_and!; try done; try lia.
      - split; [done|]. by intros (b & ? & _).
      - split; [done|]. by intros (b & ? & _). }
  assert (Hnull : b = Feedback.JNull ∨ b ≠ Feedback.JNull)
    by (destruct b; auto).
  destruct Hnull as [->|Hb].
  { cbn. split_and!; try done; try lia.
    - split; [done|]. by intros (b & [= <-] & ? & _).
    - split; [done|]. by intros (b & [= <-] & ? & _). }
  assert (Hget : Feedback.get (Some b) (js "category")
                 = Fulfilled (Feedback.member b (js "category"))) by (by destruct b).
  rewrite Hget. clear Hget.
  destruct (Feedback.truthy (Feedback.member b (js "category"))) eqn:H1,
           (Feedback.truthy (Feedback.member b (js "name"))) eqn:H2,
           (Feedback.truthy (Feedback.member b (js "email"))) eqn:H3,
           (Feedback.truthy (Feedback.member b (js "comment"))) eqn:H4;
    cbn [negb orb andb];
    repeat match goal with
    | |- context [match ?x with _ => _ end] =>
        match type of x with
        | Settled _ => destruct x eqn:?
        | option _ => destruct x eqn:?
        | bool => destruct x eqn:?
        end;
        cbn -[Feedback.truthy Feedback.member Feedback.get Feedback.first
              Feedback.json Feedback.orJson Feedback.getOptional Feedback.unset
              Feedback.ok js]
    end;
    repeat match goal with
    | H : _ || _ = false |- _ => apply orb_false_iff in H as [? ?]
    | H : negb _ = false |- _ => apply negb_false_iff in H
    | H : negb _ = true |- _ => apply negb_true_iff in H
    end;
    cbn -[Feedback.truthy Feedback.member Feedback.get Feedback.first
          Feedback.json Feedback.orJson Feedback.getOptional Feedback.unset
          Feedback.ok js];
    split_and!.
  all: try assumption.
  all: try (cbn; lia).
  all: try (intros [=]).
  all: try solve [split; [intros [=]|];
                  intros (b' & [= <-] & Hc & Hcf);
                  rewrite ?H1, ?H2, ?H3, ?H4 in *; done].
  all: try solve [split; [intros _; exists b; by rewrite ?H1, ?H2, ?H3, ?H4|done]].
  all: try solve [split; [done|];
                  intros (b' & _ & _ & [Hu1%negb_true_iff Hu2%negb_true_iff]%andb_true_iff);
                  by rewrite Hu1, Hu2 in *].
  all: try solve [split; [|done]; intros _; exists b;
                  repeat match goal with
                  | H : Feedback.unset _ = false |- _ => rewrite H; clear H
                  end; by rewrite H1, H2, H3, H4].
  all: try solve [eexists; split_and!; done].
  all: split; [done|]; intros (b' & [= <-] & Hc & _);
    by rewrite ?H1, ?H2, ?H3, ?H4 in Hc.
Qed.



(** ** The feedback page *)

Lemma wellFormed_test (f : Feedback.FormData) :
  Feedback.wellFormed f
  ↔ isTruthy (Feedback.category f) = true ∧ isTruthy (Feedback.name f) = true
    ∧ isTruthy (Feedback.email f) = true ∧ isTruthy (Feedback.comment f) = true
    ∧ RegExp.test Feedback.emailRegex (Feedback.email f) = true.
Proof.
  unfold Feedback.wellFormed. rewrite emailRegex_test, !isTruthy_cons. split.
  - intros (? & ? & ? & a & b & c & He & Ha & ?). split_and!; try done.
    + rewrite He. by destruct a.
    + by exists a, b, c.
  - intros (? & ? & ? & ? & ?). by split_and!.
Qed.

(** X29: submitting the form posts it, once, exactly when every field is
    filled in and the address has the shape [a@b.c] with neither white
    space nor a second [@]; otherwise nothing is posted and only the error
    line changes, to the message for a missing field or else for the
    address.  After a post the page is no longer submitting, and it is
    reset, showing the dialog, when the answer is ok, and keeps its fields
    under an error otherwise. *)
Theorem handleSubmit_validates (stringOf : Feedback.Json → jsstring)
    (st : Feedback.State) (answer : Settled Feedback.Response) :
  let f := Feedback.formData st in
  let posted := (Feedback.handleSubmit stringOf st answer).1 in
  let next := (Feedback.handleSubmit stringOf st answer).2 in
  (posted = [Feedback.formJson f] ∧ Feedback.wellFormed f
   ∨ posted = [] ∧ ¬ Feedback.wellFormed f)
  ∧ (posted = [] →
     next = {| Feedback.formData := f;
               Feedback.isSubmitting := Feedback.isSubmitting st;
               Feedback.showSuccessDialog := Feedback.showSuccessDialog st;
               Feedback.error :=
                 Some (if isTruthy (Feedback.category f) && isTruthy (Feedback.name f)
                          && isTruthy (Feedback.email f) && isTruthy (Feedback.comment f)
                       then Feedback.invalidEmail else Feedback.fillInAll) |})
  ∧ (posted ≠ [] →
     Feedback.isSubmitting next = false
     ∧ if Feedback.answeredOk answer
       then next = {| Feedback.formData := Feedback.emptyForm;
                      Feedback.isSubmitting := false;
                      Feedback.showSuccessDialog := true;
                      Feedback.error := None |}
       else Feedback.formData next = f
            ∧ Feedback.showSuccessDialog next = Feedback.showSuccessDialog st
            ∧ ∃ message, Feedback.error next = Some message).
Proof.
  intros f posted next. subst posted next.
  pose proof (wellFormed_test f) as Hwf. fold f in Hwf.
  unfold Feedback.handleSubmit. cbn [Feedback.formData]. fold f.
  destruct (isTruthy (Feedback.category f)) eqn:H1,
           (isTruthy (Feedback.name f)) eqn:H2,
           (isTruthy (Feedback.email f)) eqn:H3,
           (isTruthy (Feedback.comment f)) eqn:H4;
    cbn [negb orb andb fst snd].
  all: try (split_and!; [right; split; [done|]; intros (? & ? & ? & ? & ?)%Hwf; congruence|done|done]).
  destruct (RegExp.test Feedback.emailRegex (Feedback.email f)) eqn:H5;
    cbn [negb orb andb fst snd].
  - split_and!; [left; split; [done|by apply Hwf]|done|].
    intros _. unfold Feedback.outcome, Feedback.answeredOk.
    destruct answer as [r|e]; cbn.
    + destruct (Feedback.ok r); cbn; [done|]. split_and!; eauto.
    + split_and!; eauto.
  - split_and!; [right; split; [done|]; intros (? & ? & ? & ? & ?)%Hwf; congruence|done|done].
Qed.

Lemma handleSubmit_validates_witness :
  (Feedback.handleSubmit (λ _, []) sampleForm (Fulfilled created)).2
  = {| Feedback.formData := Feedback.emptyForm; Feedback.isSubmitting := false;
       Feedback.showSuccessDialog := true; Feedback.error := None |}.
Proof.
  refine (proj2 (proj2 (proj2 (handleSubmit_validates (λ _, []) sampleForm
                                 (Fulfilled created))) _)).
  by vm_compute.
Defined.

Lemma wellFormed_complete (f : Feedback.FormData) :
  Feedback.wellFormed f → Feedback.complete (Feedback.formJson f) = true.
Proof.
  intros (H1 & H2 & H3 & H4 & _)%wellFormed_test.
  unfold Feedback.complete, Feedback.formJson.
  change (Feedback.member _ (js "category")) with (Some (Feedback.JString (Feedback.category f))).
  change (Feedback.member _ (js "name")) with (Some (Feedback.JString (Feedback.name f))).
  change (Feedback.member _ (js "email")) with (Some (Feedback.JString (Feedback.email f))).
  change (Feedback.member _ (js "comment")) with (Some (Feedback.JString (Feedback.comment f))).
  cbn [Feedback.truthy]. by rewrite H1, H2, H3, H4.
Qed.

Lemma POST_shape (f : Feedback.FormData) (env : Feedback.Env) (now : jsstring)
    (airtable : Settled Feedback.Response) :
  Feedback.wellFormed f →
  let served := Feedback.POST (Fulfilled (Feedback.formJson f)) env now airtable in
  Feedback.sent served.1
  = (if Feedback.configured env
     then [{| Feedback.baseId := orElseNull (Feedback.AIRTABLE_BASE_ID env) [];
              Feedback.tableName :=
                orElseNull (Feedback.AIRTABLE_TABLE_NAME env) (js "Feedback");
              Feedback.bearer := orElseNull (Feedback.AIRTABLE_API_KEY env) [];
              Feedback.Category := Feedback.JString (Feedback.category f);
              Feedback.Name := Feedback.JString (Feedback.name f);
              Feedback.Email := Feedback.JString (Feedback.email f);
              Feedback.Comment := Feedback.JString (Feedback.comment f);
              Feedback.SubmittedAt := now |}]
     else [])
  ∧ (Feedback.code served.2 = 200 ∧ (∃ id, Feedback.payload served.2 = Feedback.Success id)
     ∨ Feedback.code served.2 = 500 ∧ ∃ e, Feedback.payload served.2 = Feedback.Failure e).
Proof.
  intros (H1 & H2 & H3 & H4 & _)%wellFormed_test served. subst served.
  unfold Feedback.POST, Feedback.attempt, Feedback.configured, Feedback.formJson.
  unfold Handler.await, Handler.ret, Handler.bindRun.
  change (Feedback.get (Some ?b) (js "category"))
    with (Fulfilled (Some (Feedback.JString (Feedback.category f)))).
  change (Feedback.member _ (js "name")) with (Some (Feedback.JString (Feedback.name f))).
  change (Feedback.member _ (js "email")) with (Some (Feedback.JString (Feedback.email f))).
  change (Feedback.member _ (js "comment")) with (Some (Feedback.JString (Feedback.comment f))).
  cbn [Feedback.truthy Feedback.orJson]. rewrite H1, H2, H3, H4.
  destruct (Feedback.unset (Feedback.AIRTABLE_BASE_ID env)) eqn:Hu1,
           (Feedback.unset (Feedback.AIRTABLE_API_KEY env)) eqn:Hu2;
    cbn [negb orb andb];
    repeat match goal with
    | |- context [match ?x with _ => _ end] =>
        match type of x with
        | Settled _ => destruct x eqn:?
        | option _ => destruct x eqn:?
        | bool => destruct x eqn:?
        end;
        cbn -[Feedback.truthy Feedback.member Feedback.get Feedback.first
              Feedback.json Feedback.orJson Feedback.getOptional Feedback.unset
              Feedback.ok js]
    end;
    cbn -[Feedback.truthy Feedback.member Feedback.get Feedback.first
          Feedback.json Feedback.orJson Feedback.getOptional Feedback.unset
          Feedback.ok js];
    (split; [done|]); eauto.
Qed.


Lemma handleSubmit_wellFormed (stringOf : Feedback.Json → jsstring)
    (st : Feedback.State) (answer : Settled Feedback.Response) :
  Feedback.wellFormed (Feedback.formData st) →
  Feedback.handleSubmit stringOf st answer
  = ([Feedback.formJson (Feedback.formData st)],
     match Feedback.outcome stringOf answer with
     | Fulfilled _ =>
         {| Feedback.formData := Feedback.emptyForm; Feedback.isSubmitting := false;
            Feedback.showSuccessDialog := true; Feedback.error := None |}
     | Rejected message =>
         {| Feedback.formData := Feedback.formData st; Feedback.isSubmitting := false;
            Feedback.showSuccessDialog := Feedback.showSuccessDialog st;
            Feedback.error := Some message |}
     end).
Proof.
  intros (H1 & H2 & H3 & H4 & H5)%wellFormed_test.
  unfold Feedback.handleSubmit. cbn [Feedback.formData Feedback.showSuccessDialog].
  by rewrite H1, H2, H3, H4, H5.
Qed.

(** X30: the page and the route together.  A form the page accepts is
    never answered 400 by the route; with the base and the API key
    configured Airtable receives one record made of the four fields as
    typed, and none otherwise; the page is reset and shows the dialog
    exactly when the route replies 200, and otherwise keeps its fields and
    shows the error of the reply, or the page's own message when that
    error is empty. *)
Theorem submit_round_trip (stringOf : Feedback.Json → jsstring)
    (st : Feedback.State) (env : Feedback.Env) (now : jsstring)
    (airtable : Settled Feedback.Response) (statusText bodyText : jsstring) :
  let f := Feedback.formData st in
  let served := Feedback.POST (Fulfilled (Feedback.formJson f)) env now airtable in
  let done := Feedback.submit stringOf st env now airtable statusText bodyText in
  Feedback.wellFormed f →
  Feedback.code served.2 ≠ 400
  ∧ Feedback.sent done.1
    = (if Feedback.configured env
       then [{| Feedback.baseId := orElseNull (Feedback.AIRTABLE_BASE_ID env) [];
                Feedback.tableName :=
                  orElseNull (Feedback.AIRTABLE_TABLE_NAME env) (js "Feedback");
                Feedback.bearer := orElseNull (Feedback.AIRTABLE_API_KEY env) [];
                Feedback.Category := Feedback.JString (Feedback.category f);
                Feedback.Name := Feedback.JString (Feedback.name f);
                Feedback.Email := Feedback.JString (Feedback.email f);
                Feedback.Comment := Feedback.JString (Feedback.comment f);
                Feedback.SubmittedAt := now |}]
       else [])
  ∧ (Feedback.code served.2 = 200 →
     done.2 = {| Feedback.formData := Feedback.emptyForm;
                 Feedback.isSubmitting := false;
                 Feedback.showSuccessDialog := true;
                 Feedback.error := None |})
  ∧ (Feedback.code served.2 ≠ 200 →
     ∃ e, Feedback.payload served.2 = Feedback.Failure e
          ∧ done.2 = {| Feedback.formData := f;
                        Feedback.isSubmitting := false;
                        Feedback.showSuccessDialog := Feedback.showSuccessDialog st;
                        Feedback.error :=
                          Some (Feedback.messageOf stringOf
                                  (Feedback.orJson (Some e)
                                     (Feedback.JString Feedback.failedToSubmit))) |}).
Proof.
  intros f served done Hwf. subst done. unfold Feedback.submit. fold f. fold served.
  pose proof (POST_shape f env now airtable Hwf) as Hshape. fold served in Hshape.
  cbv zeta in Hshape. destruct Hshape as [Hsent Hcode].
  rewrite (handleSubmit_wellFormed stringOf st _ Hwf). fold f.
  clearbody served. destruct served as [t [code payload]].
  cbn [fst snd Feedback.code Feedback.payload] in *.
  destruct Hcode as [[-> [id ->]]|[-> [e ->]]].
  - by split_and!.
  - split_and!; try done. intros _. exists e. split; [done|].
    unfold Feedback.outcome, Feedback.respond, Feedback.ok, Feedback.json. cbn.
    done.
Qed.

Lemma submit_round_trip_witness :
  Feedback.wellFormed (Feedback.formData sampleForm)
  ∧ (Feedback.submit (λ _, []) sampleForm airtableEnv (js "2024-05-01T00:00:00.000Z")
       (Fulfilled created) (js "OK") []).2
    = {| Feedback.formData := Feedback.emptyForm; Feedback.isSubmitting := false;
         Feedback.showSuccessDialog := true; Feedback.error := None |}.
Proof.
  assert (Hwf : Feedback.wellFormed (Feedback.formData sampleForm)).
  { split_and!; try done.
    exists (js "ana"), (js "example"), (js "org"). by vm_compute. }
  split; [exact Hwf|].
  refine (proj1 (proj2 (proj2 (submit_round_trip (λ _, []) sampleForm airtableEnv
                                 (js "2024-05-01T00:00:00.000Z") (Fulfilled created)
                                 (js "OK") [] Hwf))) _).
  by vm_compute.
Defined.
